(** * brainmap.js: the mind-map tree, its radial layout and its viewport

    A shallow embedding of [src/brainmap.js] (class [MindMap]).

    - JavaScript numbers are modelled as real numbers [R]: the arithmetic of
      the layout and of the viewport is the exact one, IEEE rounding is not
      part of the model.  The id counter is a natural number [N]: it is
      seeded with [Date.now()] and incremented by [++], which is exact up to
      2^53 and leaves 2^53 where it is.
    - A node object is a record of its own fields plus an optional child
      array; the fields that [render] writes on the node ([_leafCount],
      [_isLeaf], [_isRoot], [_x], [_y], [_angle], [_depth]) are optional,
      absent until a pass sets them.
    - The tree is owned by the instance ([setData] deep-clones), so in-place
      mutation of the node found by a search is modelled by rebuilding the
      tree with that node replaced. *)

From Stdlib Require Import List String Ascii Bool Arith NArith ZArith Lia.
From Stdlib Require Import DecimalString DecimalN.
From Stdlib Require Import Reals Lra Permutation.
Import ListNotations.

Open Scope string_scope.

(** ** Data model *)

(** The own fields of a node object, children apart. *)
Record Fields := mkFields {
  id : string;
  name : string;
  _leafCount : option nat;
  _isLeaf : option bool;
  _isRoot : option bool;
  _x : option R;
  _y : option R;
  _angle : option R;
  _depth : option nat
}.

(** A node: its fields and its [children] array, [None] when the key is
    absent. *)
#[local] Unset Elimination Schemes.
Inductive Node := mkNode {
  fields : Fields;
  children : option (list Node)
}.

#[local] Set Elimination Schemes.

(** A node as a caller writes it: [{ id, name }] or [{ id, name, children }]. *)
Definition plainFields (i n : string) : Fields :=
  mkFields i n None None None None None None None.

Definition leafNode (i n : string) : Node := mkNode (plainFields i n) None.

Definition branchNode (i n : string) (cs : list Node) : Node :=
  mkNode (plainFields i n) (Some cs).


(** Field updates ([node.k = v]). *)
Definition set_name (v : string) (f : Fields) : Fields :=
  mkFields (id f) v (_leafCount f) (_isLeaf f) (_isRoot f)
           (_x f) (_y f) (_angle f) (_depth f).

Definition set_leaf (count : nat) (leaf : bool) (f : Fields) : Fields :=
  mkFields (id f) (name f) (Some count) (Some leaf) (_isRoot f)
           (_x f) (_y f) (_angle f) (_depth f).

Definition set_position (x y angle : R) (depth : nat) (f : Fields) : Fields :=
  mkFields (id f) (name f) (_leafCount f) (_isLeaf f) (_isRoot f)
           (Some x) (Some y) (Some angle) (Some depth).

Definition set_isRoot (f : Fields) : Fields :=
  mkFields (id f) (name f) (_leafCount f) (_isLeaf f) (Some true)
           (_x f) (_y f) (_angle f) (_depth f).

(** All nodes of a tree, in pre-order. *)
Fixpoint preorder (n : Node) : list Node :=
  n :: match children n with
       | None => []
       | Some cs => flat_map preorder cs
       end.

Definition ids (n : Node) : list string := map (fun m => id (fields m)) (preorder n).

(** ** Tree search *)

(** [findNodeById(tree, id)]: pre-order, first match. *)
Fixpoint findNodeById (tree : Node) (i : string) : option Node :=
  if String.eqb (id (fields tree)) i then Some tree
  else match children tree with
       | None => None
       | Some cs =>
           (fix loop (l : list Node) : option Node :=
              match l with
              | [] => None
              | child :: l' =>
                  match findNodeById child i with
                  | Some found => Some found
                  | None => loop l'
                  end
              end) cs
       end.

(** [findParentById(tree, childId)]: the first node, in the order of the
    search, one of whose children has the id. *)
Fixpoint findParentById (tree : Node) (childId : string) : option Node :=
  match children tree with
  | None => None
  | Some cs =>
      (fix loop (l : list Node) : option Node :=
         match l with
         | [] => None
         | child :: l' =>
             if String.eqb (id (fields child)) childId then Some tree
             else match findParentById child childId with
                  | Some found => Some found
                  | None => loop l'
                  end
         end) cs
  end.

(** ** Leaf counting *)

(** [countLeaves(node)] writes [_leafCount] and [_isLeaf] on every node of the
    subtree and returns the count; here it returns the rewritten node too. *)
Fixpoint countLeaves (node : Node) : Node * nat :=
  match children node with
  | None => (mkNode (set_leaf 1 true (fields node)) None, 1%nat)
  | Some [] => (mkNode (set_leaf 1 true (fields node)) (Some []), 1%nat)
  | Some cs =>
      let '(cs', sum) :=
        (fix loop (l : list Node) (sum : nat) : list Node * nat :=
           match l with
           | [] => ([], sum)
           | c :: l' =>
               let '(c', k) := countLeaves c in
               let '(r, total) := loop l' (sum + k)%nat in
               (c' :: r, total)
           end) cs 0%nat in
      (mkNode (set_leaf sum false (fields node)) (Some cs'), sum)
  end.

Definition leafCountOf (node : Node) : nat := snd (countLeaves node).

(** ** Radial layout *)

Record Config := mkConfig {
  width : R;
  height : R;
  radiusStep : R;
  editable : bool;
  showStatus : bool
}.

Definition defaultConfig : Config := mkConfig 800 800 120 true true.

(** A node as [layout] leaves it, kept together with the arguments
    [startAngle] and [endAngle] of the call that placed it (for the root: the
    sweep [layoutRoot] hands to its children).  [erase] forgets the two
    angles and gives the node object itself. *)
#[local] Unset Elimination Schemes.
Inductive Placed := mkPlaced {
  p_fields : Fields;
  p_start : R;
  p_end : R;
  p_children : option (list Placed)
}.
#[local] Set Elimination Schemes.

Fixpoint erase (p : Placed) : Node :=
  mkNode (p_fields p)
         match p_children p with
         | None => None
         | Some ps => Some (map erase ps)
         end.

(** [c._leafCount] read as a number.  [render] runs [countLeaves] first, so
    the field is present whenever [layout] reads it; an absent field (NaN in
    the arithmetic of the source) has no counterpart in [R] and reads as 0. *)
Definition leafCountR (node : Node) : R :=
  match _leafCount (fields node) with
  | Some k => INR k
  | None => 0
  end.

Open Scope R_scope.

(** [layout(node, startAngle, endAngle, depth)]. *)
Fixpoint layout (cfg : Config) (node : Node) (startAngle endAngle : R)
         (depth : nat) : Placed :=
  let mid := (startAngle + endAngle) / 2 in
  let r := INR depth * radiusStep cfg in
  let centerX := width cfg / 2 in
  let centerY := height cfg / 2 in
  let f := set_position (centerX + r * cos mid) (centerY + r * sin mid)
                        mid depth (fields node) in
  match children node with
  | None => mkPlaced f startAngle endAngle None
  | Some [] => mkPlaced f startAngle endAngle (Some [])
  | Some cs =>
      mkPlaced f startAngle endAngle
        (Some
           ((fix loop (l : list Node) (angle : R) : list Placed :=
               match l with
               | [] => []
               | c :: l' =>
                   let span := (endAngle - startAngle)
                               * (leafCountR c / leafCountR node) in
                   layout cfg c angle (angle + span) (S depth)
                   :: loop l' (angle + span)
               end) cs startAngle))
  end.

(** The [for] loop over the children, as [layout] and [layoutRoot] run it:
    [total] is the width being shared, [parentLeaves] the parent's
    [_leafCount], [depth] the depth given to the children. *)
Definition layoutChildren (cfg : Config) (total parentLeaves : R) (depth : nat)
  : list Node -> R -> list Placed :=
  fix loop (l : list Node) (angle : R) : list Placed :=
    match l with
    | [] => []
    | c :: l' =>
        let span := total * (leafCountR c / parentLeaves) in
        layout cfg c angle (angle + span) depth :: loop l' (angle + span)
    end.

Definition gap : R := 1 / 10000.
Definition rootStart : R := - PI / 2 + gap.
Definition rootEnd : R := - PI / 2 + PI * 2 - gap.

(** [layoutRoot(root)]. *)
Definition layoutRoot (cfg : Config) (root : Node) : Placed :=
  let centerX := width cfg / 2 in
  let centerY := height cfg / 2 in
  let f := set_isRoot (set_position centerX centerY 0 0 (fields root)) in
  match children root with
  | None => mkPlaced f rootStart rootEnd None
  | Some cs =>
      mkPlaced f rootStart rootEnd
        (Some (layoutChildren cfg (rootEnd - rootStart) (leafCountR root)
                              1 cs rootStart))
  end.

(** The tree part of [render()]: [countLeaves] then [layoutRoot], both
    writing on the nodes of [treeData]. *)
Definition annotate (tree : Node) : Node := fst (countLeaves tree).

Definition renderPlaced (cfg : Config) (tree : Node) : Placed :=
  layoutRoot cfg (annotate tree).

Definition render (cfg : Config) (tree : Node) : Node :=
  erase (renderPlaced cfg tree).

(** All placed nodes of a layout, and those at a given distance from its
    root. *)
Fixpoint placedNodes (p : Placed) : list Placed :=
  p :: match p_children p with
       | None => []
       | Some ps => flat_map placedNodes ps
       end.

Definition placedChildren (p : Placed) : list Placed :=
  match p_children p with
  | None => []
  | Some ps => ps
  end.

Fixpoint placedAt (d : nat) (p : Placed) : list Placed :=
  match d with
  | O => [p]
  | S d' => flat_map (placedAt d') (placedChildren p)
  end.

(** ** The widget instance *)

(** [dragStart] and [touchStart]; the latter holds [zoom], [svgX] and [svgY]
    only when it was recorded with two touches. *)
Record DragStart := mkDragStart {
  d_x : R; d_y : R; d_ox : R; d_oy : R
}.

Record PinchStart := mkPinchStart {
  t_zoom : R; t_svgX : R; t_svgY : R
}.

Record TouchStart := mkTouchStart {
  t_x : R; t_y : R; t_ox : R; t_oy : R;
  t_pinch : option PinchStart
}.

Record Point := mkPoint { pt_x : R; pt_y : R }.

(** The fields of a [MindMap] instance that the modelled methods read or
    write.  [statusEl] is the text of the status element, [None] when the
    element was not created ([showStatus] false). *)
Record MindMap := mkMindMap {
  config : Config;
  treeData : Node;
  zoom : R;
  offsetX : R;
  offsetY : R;
  isDragging : bool;
  dragStart : option DragStart;
  isEditing : bool;
  editingNode : option string;
  nodeIdCounter : N;
  isTouching : bool;
  touchStart : option TouchStart;
  lastTouchDistance : option R;
  lastTouchCenter : option Point;
  statusEl : option string
}.

Definition with_tree (t : Node) (st : MindMap) : MindMap :=
  mkMindMap (config st) t (zoom st) (offsetX st) (offsetY st)
            (isDragging st) (dragStart st) (isEditing st) (editingNode st)
            (nodeIdCounter st) (isTouching st) (touchStart st)
            (lastTouchDistance st) (lastTouchCenter st) (statusEl st).

Definition with_counter (c : N) (st : MindMap) : MindMap :=
  mkMindMap (config st) (treeData st) (zoom st) (offsetX st) (offsetY st)
            (isDragging st) (dragStart st) (isEditing st) (editingNode st)
            c (isTouching st) (touchStart st)
            (lastTouchDistance st) (lastTouchCenter st) (statusEl st).

Definition with_status (s : option string) (st : MindMap) : MindMap :=
  mkMindMap (config st) (treeData st) (zoom st) (offsetX st) (offsetY st)
            (isDragging st) (dragStart st) (isEditing st) (editingNode st)
            (nodeIdCounter st) (isTouching st) (touchStart st)
            (lastTouchDistance st) (lastTouchCenter st) s.

Definition with_view (z ox oy : R) (st : MindMap) : MindMap :=
  mkMindMap (config st) (treeData st) z ox oy
            (isDragging st) (dragStart st) (isEditing st) (editingNode st)
            (nodeIdCounter st) (isTouching st) (touchStart st)
            (lastTouchDistance st) (lastTouchCenter st) (statusEl st).

Definition with_drag (dragging : bool) (ds : option DragStart) (st : MindMap)
  : MindMap :=
  mkMindMap (config st) (treeData st) (zoom st) (offsetX st) (offsetY st)
            dragging ds (isEditing st) (editingNode st)
            (nodeIdCounter st) (isTouching st) (touchStart st)
            (lastTouchDistance st) (lastTouchCenter st) (statusEl st).

Definition with_touch (dragging touching : bool) (ts : option TouchStart)
           (dist : option R) (center : option Point) (st : MindMap) : MindMap :=
  mkMindMap (config st) (treeData st) (zoom st) (offsetX st) (offsetY st)
            dragging (dragStart st) (isEditing st) (editingNode st)
            (nodeIdCounter st) touching ts dist center (statusEl st).

Definition with_editing (editing : bool) (node : option string) (st : MindMap)
  : MindMap :=
  mkMindMap (config st) (treeData st) (zoom st) (offsetX st) (offsetY st)
            (isDragging st) (dragStart st) editing node
            (nodeIdCounter st) (isTouching st) (touchStart st)
            (lastTouchDistance st) (lastTouchCenter st) (statusEl st).

(** [setStatus(message)]: nothing without a status element.  (The timer that
    restores the hint text three seconds later is not modelled.) *)
Definition setStatus (message : string) (st : MindMap) : MindMap :=
  match statusEl st with
  | None => st
  | Some _ => with_status (Some message) st
  end.

(** [JSON.parse(JSON.stringify(x))] on a node: a fresh copy with the same
    keys (absent keys stay absent, finite numbers print and parse back to
    themselves). *)
Fixpoint deepClone (n : Node) : Node :=
  mkNode (mkFields (id (fields n)) (name (fields n)) (_leafCount (fields n))
                   (_isLeaf (fields n)) (_isRoot (fields n)) (_x (fields n))
                   (_y (fields n)) (_angle (fields n)) (_depth (fields n)))
         match children n with
         | None => None
         | Some cs => Some (map deepClone cs)
         end.

(** [setData(data)]. *)
Definition setData (st : MindMap) (data : Node) : MindMap :=
  setStatus "Data loaded successfully"
            (with_tree (render (config st) (deepClone data)) st).

(** [getData()]. *)
Definition getData (st : MindMap) : Node := deepClone (treeData st).

(** The largest integer up to which [++] on a number is exact: adding 1 to
    2^53 rounds back to 2^53.  [Date.now()] is below it. *)
Definition maxExact : N := 9007199254740992.

(** A non-negative integer printed in decimal, as [String(n)] does below
    10^21. *)
Definition decimal (n : N) : string := NilEmpty.string_of_uint (N.to_uint n).

Definition idOf (n : N) : string := "node_" ++ decimal n.

(** The counter after [++this.nodeIdCounter]. *)
Definition nextCounter (c : N) : N := if (c <? maxExact)%N then (c + 1)%N else c.

(** [generateId()]: ['node_' + (++this.nodeIdCounter)]. *)
Definition generateId (st : MindMap) : string * MindMap :=
  let c := nextCounter (nodeIdCounter st) in
  (idOf c, with_counter c st).

(** [name || fallback] for a string argument that may be missing. *)
Definition orDefault (s : option string) (fallback : string) : string :=
  match s with
  | None => fallback
  | Some "" => fallback
  | Some v => v
  end.

(** ** Mutating the node a search returned *)

(** The tree after [f] has been applied, in place, to the node that
    [findNodeById(tree, i)] returns; [None] when the search returns [null]. *)
Fixpoint updateNodeById (f : Node -> Node) (tree : Node) (i : string)
  : option Node :=
  if String.eqb (id (fields tree)) i then Some (f tree)
  else match children tree with
       | None => None
       | Some cs =>
           match
             (fix loop (l : list Node) : option (list Node) :=
                match l with
                | [] => None
                | child :: l' =>
                    match updateNodeById f child i with
                    | Some child' => Some (child' :: l')
                    | None =>
                        match loop l' with
                        | Some r => Some (child :: r)
                        | None => None
                        end
                    end
                end) cs
           with
           | Some cs' => Some (mkNode (fields tree) (Some cs'))
           | None => None
           end
       end.

(** Where the loop of [findParentById] stops in a child array: on a child
    with the id ([Here]: the node itself is the parent), or inside a child
    ([Below], with the array in which that child has been rewritten). *)
Inductive Hit :=
| Here
| Below (cs' : list Node).

(** The tree after [f] has been applied, in place, to the node that
    [findParentById(tree, childId)] returns. *)
Fixpoint updateParentById (f : Node -> Node) (tree : Node) (childId : string)
  : option Node :=
  match children tree with
  | None => None
  | Some cs =>
      match
        (fix loop (l : list Node) : option Hit :=
           match l with
           | [] => None
           | child :: l' =>
               if String.eqb (id (fields child)) childId then Some Here
               else match updateParentById f child childId with
                    | Some child' => Some (Below (child' :: l'))
                    | None =>
                        match loop l' with
                        | Some Here => Some Here
                        | Some (Below r) => Some (Below (child :: r))
                        | None => None
                        end
                    end
           end) cs
      with
      | Some Here => Some (f tree)
      | Some (Below cs') => Some (mkNode (fields tree) (Some cs'))
      | None => None
      end
  end.

Definition mutateNode (f : Node -> Node) (tree : Node) (i : string) : Node :=
  match updateNodeById f tree i with
  | Some t => t
  | None => tree
  end.

Definition mutateParent (f : Node -> Node) (tree : Node) (childId : string)
  : Node :=
  match updateParentById f tree childId with
  | Some t => t
  | None => tree
  end.

(** ** Arrays *)

(** [array.findIndex(p)]: the first index at which [p] holds, else -1. *)
Fixpoint findIndex {A} (p : A -> bool) (l : list A) : Z :=
  match l with
  | [] => (-1)%Z
  | x :: l' => if p x then 0%Z else
                 let k := findIndex p l' in
                 if (k <? 0)%Z then (-1)%Z else (k + 1)%Z
  end.

(** The start index of [splice], brought into [0 .. length]. *)
Definition spliceStart (len : nat) (start : Z) : nat :=
  if (start <? 0)%Z then Z.to_nat (Z.max (Z.of_nat len + start) 0)
  else Nat.min (Z.to_nat start) len.

(** [array.splice(start, 0, item)]. *)
Definition spliceInsert {A} (l : list A) (start : Z) (item : A) : list A :=
  let k := spliceStart (List.length l) start in
  (firstn k l ++ item :: skipn k l)%list.

(** [array.splice(start, 1)]. *)
Definition spliceRemove {A} (l : list A) (start : Z) : list A :=
  let k := spliceStart (List.length l) start in
  (firstn k l ++ skipn (S k) l)%list.

Definition childArray (n : Node) : list Node :=
  match children n with
  | None => []
  | Some cs => cs
  end.

Definition hasId (i : string) (c : Node) : bool := String.eqb (id (fields c)) i.

(** ** Editing the tree *)

Definition dq : string := String "034"%char EmptyString.

(** [parent.children.push(c)], after [if (!parent.children) parent.children = []]. *)
Definition pushChild (c : Node) (parent : Node) : Node :=
  mkNode (fields parent) (Some (childArray parent ++ [c])%list).

(** [parent.children.splice(siblingIndex + 1, 0, newNode)]. *)
Definition insertSibling (nodeId : string) (newNode : Node) (parent : Node)
  : Node :=
  let siblingIndex := findIndex (hasId nodeId) (childArray parent) in
  mkNode (fields parent)
         (Some (spliceInsert (childArray parent) (siblingIndex + 1)%Z newNode)).

(** [parent.children.splice(nodeIndex, 1)]. *)
Definition removeChild (nodeId : string) (parent : Node) : Node :=
  let nodeIndex := findIndex (hasId nodeId) (childArray parent) in
  mkNode (fields parent) (Some (spliceRemove (childArray parent) nodeIndex)).

Definition renamed (v : string) (node : Node) : Node :=
  mkNode (set_name v (fields node)) (children node).

(** [addChild(parentId, name)]. *)
Definition addChild (st : MindMap) (parentId : string) (nm : option string)
  : MindMap * bool :=
  if negb (editable (config st)) then (st, false)
  else match findNodeById (treeData st) parentId with
       | None => (st, false)
       | Some parent =>
           let '(newId, st1) := generateId st in
           let newNode := leafNode newId (orDefault nm "New Node") in
           let tree1 := mutateNode (pushChild newNode) (treeData st1) parentId in
           let st2 := with_tree (render (config st1) tree1) st1 in
           (setStatus ("Added child " ++ dq ++ orDefault nm "New Node" ++ dq
                       ++ " to " ++ dq ++ name (fields parent) ++ dq) st2,
            true)
       end.

(** [addSibling(nodeId, name)]. *)
Definition addSibling (st : MindMap) (nodeId : string) (nm : option string)
  : MindMap * bool :=
  if negb (editable (config st)) then (st, false)
  else match findParentById (treeData st) nodeId with
       | None => (st, false)
       | Some parent =>
           let '(newId, st1) := generateId st in
           let newNode := leafNode newId (orDefault nm "New Node") in
           let tree1 :=
             mutateParent (insertSibling nodeId newNode) (treeData st1) nodeId in
           let st2 := with_tree (render (config st1) tree1) st1 in
           (setStatus ("Added sibling " ++ dq ++ orDefault nm "New Node" ++ dq)
                      st2,
            true)
       end.

(** [deleteNode(nodeId)]. *)
Definition deleteNode (st : MindMap) (nodeId : string) : MindMap * bool :=
  if negb (editable (config st)) then (st, false)
  else if String.eqb nodeId (id (fields (treeData st)))
  then (setStatus "Cannot delete root node" st, false)
  else match findParentById (treeData st) nodeId with
       | None => (st, false)
       | Some parent =>
           let nodeIndex := findIndex (hasId nodeId) (childArray parent) in
           let nodeName :=
             name (fields (nth (Z.to_nat nodeIndex) (childArray parent)
                               (leafNode "" ""))) in
           let tree1 := mutateParent (removeChild nodeId) (treeData st) nodeId in
           let st2 := with_tree (render (config st) tree1) st in
           (setStatus ("Deleted " ++ dq ++ nodeName ++ dq) st2, true)
       end.

(** [renameNode(nodeId, newName)]. *)
Definition renameNode (st : MindMap) (nodeId : string) (newName : option string)
  : MindMap * bool :=
  if negb (editable (config st)) then (st, false)
  else match findNodeById (treeData st) nodeId with
       | None => (st, false)
       | Some node =>
           let oldName := name (fields node) in
           let newName' := orDefault newName "Unnamed" in
           let tree1 := mutateNode (renamed newName') (treeData st) nodeId in
           let st2 := with_tree (render (config st) tree1) st in
           (setStatus ("Renamed " ++ dq ++ oldName ++ dq ++ " to "
                       ++ dq ++ newName' ++ dq) st2,
            true)
       end.

(** ** Construction *)

Definition hintText (cfg : Config) (isTouchDevice : bool) : string :=
  if editable cfg
  then if isTouchDevice
       then "Long press nodes for menu • Double tap to rename"
       else "Right-click nodes to edit • Double-click to rename"
  else "Interactive Mind Map".

(** The data [init()] loads. *)
Definition defaultData : Node :=
  branchNode "root" "My Mind Map"
    [ branchNode "node1" "Idea 1" [ leafNode "node1-1" "Detail A" ];
      leafNode "node2" "Idea 2";
      branchNode "node3" "Idea 3"
        [ leafNode "node3-1" "Detail B"; leafNode "node3-2" "Detail C" ] ].

(** [new MindMap(container, options)]: [now] is the value of [Date.now()].
    The constructor sets the fields, [setupDOM] creates the status element,
    [init] loads the default data ([treeData] is [null] until then; no
    modelled method runs in between). *)
Definition construct (cfg : Config) (now : N) (isTouchDevice : bool) : MindMap :=
  setData
    (mkMindMap cfg defaultData 1 0 0 false None false None now
               false None None None
               (if showStatus cfg then Some (hintText cfg isTouchDevice)
                else None))
    defaultData.

(** ** Viewport *)

(** [svg.getBoundingClientRect()]. *)
Record Rect := mkRect {
  r_left : R; r_top : R; r_width : R; r_height : R
}.

(** [screenToSvg(screenX, screenY)]. *)
Definition screenToSvg (cfg : Config) (rect : Rect) (screenX screenY : R)
  : Point :=
  mkPoint ((screenX - r_left rect) / r_width rect * width cfg)
          ((screenY - r_top rect) / r_height rect * height cfg).

(** The point of the canvas on which the viewport group draws a point of
    the diagram: [translate(offsetX, offsetY) scale(zoom)], as
    [updateTransform] writes it. *)
Definition toCanvas (st : MindMap) (p : Point) : Point :=
  mkPoint (offsetX st + zoom st * pt_x p) (offsetY st + zoom st * pt_y p).

(** The centre of the displayed surface, in canvas coordinates. *)
Definition viewCenter (cfg : Config) (rect : Rect) : Point :=
  screenToSvg cfg rect (r_left rect + r_width rect / 2)
              (r_top rect + r_height rect / 2).

(** [handleWheel(e)], for a wheel event with the given [deltaY]. *)
Definition handleWheel (st : MindMap) (rect : Rect) (deltaY : R) : MindMap :=
  if isEditing st then st
  else
    let scaleFactor := if Rlt_dec 0 deltaY then 9 / 10 else 11 / 10 in
    let newZoom := zoom st * scaleFactor in
    let centerPoint := viewCenter (config st) rect in
    let fixedX := (pt_x centerPoint - offsetX st) / zoom st in
    let fixedY := (pt_y centerPoint - offsetY st) / zoom st in
    with_view newZoom
              (pt_x centerPoint - fixedX * newZoom)
              (pt_y centerPoint - fixedY * newZoom) st.

(** [handleMouseDown(e)]. *)
Definition handleMouseDown (st : MindMap) (clientX clientY : R) : MindMap :=
  if isEditing st then st
  else with_drag true
                 (Some (mkDragStart clientX clientY (offsetX st) (offsetY st)))
                 st.

(** [handleMouseMove(e)].  [isDragging] is set by [handleMouseDown] together
    with [dragStart], or by a touch while [dragStart] is still [null]; in the
    latter case reading [dragStart.ox] throws and the handler changes
    nothing. *)
Definition handleMouseMove (st : MindMap) (clientX clientY : R) : MindMap :=
  if negb (isDragging st) || isEditing st then st
  else match dragStart st with
       | None => st
       | Some ds =>
           with_view (zoom st)
                     (d_ox ds + (clientX - d_x ds))
                     (d_oy ds + (clientY - d_y ds)) st
       end.

(** [handleMouseUp()] and [handleMouseLeave()]. *)
Definition handleMouseUp (st : MindMap) : MindMap :=
  with_drag false (dragStart st) st.

Definition handleMouseLeave (st : MindMap) : MindMap :=
  with_drag false (dragStart st) st.

Record Touch := mkTouch { clientX : R; clientY : R }.

(** A touch event: [e.touches], and whether [e.target] lies in a node
    element ([target.closest('.mindmap-node')]). *)
Record TouchEvent := mkTouchEvent {
  touches : list Touch;
  onNode : bool
}.

(** [getTouchDistance(touches)] and [getTouchCenter(touches)], on the first
    two touches. *)
Definition getTouchDistance (a b : Touch) : R :=
  let dx := clientX a - clientX b in
  let dy := clientY a - clientY b in
  sqrt (dx * dx + dy * dy).

Definition getTouchCenter (a b : Touch) : Point :=
  mkPoint ((clientX a + clientX b) / 2) ((clientY a + clientY b) / 2).

(** [handleTouchStart(e)]. *)
Definition handleTouchStart (st : MindMap) (rect : Rect) (e : TouchEvent)
  : MindMap :=
  if isEditing st then st
  else if onNode e then st
  else match touches e with
       | [a] =>
           with_touch true true
             (Some (mkTouchStart (clientX a) (clientY a) (offsetX st)
                                 (offsetY st) None))
             (lastTouchDistance st) (lastTouchCenter st) st
       | [a; b] =>
           let center := getTouchCenter a b in
           let svgCenter := screenToSvg (config st) rect (pt_x center)
                                        (pt_y center) in
           with_touch false true
             (Some (mkTouchStart (pt_x center) (pt_y center) (offsetX st)
                      (offsetY st)
                      (Some (mkPinchStart (zoom st) (pt_x svgCenter)
                                          (pt_y svgCenter)))))
             (Some (getTouchDistance a b)) (Some center) st
       | _ =>
           with_touch (isDragging st) true (touchStart st)
                      (lastTouchDistance st) (lastTouchCenter st) st
       end.

(** [Math.max(0.1, Math.min(5, z))]. *)
Definition clampZoom (z : R) : R := Rmax (1 / 10) (Rmin 5 z).

(** [handleTouchMove(e)].  The result is [None] where the source leaves the
    numbers of the model: the pinch branch entered with a [touchStart] that
    was recorded with one touch (its [zoom] is [undefined] and the new zoom
    NaN), or with [lastTouchCenter] null (reading its [x] throws). *)
Definition handleTouchMove (st : MindMap) (rect : Rect) (e : TouchEvent)
  : option MindMap :=
  if negb (isTouching st) || isEditing st then Some st
  else if onNode e then Some st
  else
    match touches e, touchStart st with
    | [a], Some ts =>
        if isDragging st
        then Some (with_view (zoom st)
                             (t_ox ts + (clientX a - t_x ts))
                             (t_oy ts + (clientY a - t_y ts)) st)
        else Some st
    | [a; b], Some ts =>
        match lastTouchDistance st with
        | None => Some st
        | Some dist =>
            if Req_dec_T dist 0 then Some st
            else
              match t_pinch ts, lastTouchCenter st with
              | Some pinch, Some lastCenter =>
                  let currentDistance := getTouchDistance a b in
                  let currentCenter := getTouchCenter a b in
                  let scaleFactor := currentDistance / dist in
                  let newZoom := clampZoom (t_zoom pinch * scaleFactor) in
                  let fixedX := (t_svgX pinch - t_ox ts) / t_zoom pinch in
                  let fixedY := (t_svgY pinch - t_oy ts) / t_zoom pinch in
                  let centerDx := pt_x currentCenter - pt_x lastCenter in
                  let centerDy := pt_y currentCenter - pt_y lastCenter in
                  let svgCenter :=
                    screenToSvg (config st) rect (pt_x currentCenter)
                                (pt_y currentCenter) in
                  Some (with_view newZoom
                          (pt_x svgCenter - fixedX * newZoom + centerDx)
                          (pt_y svgCenter - fixedY * newZoom + centerDy) st)
              | _, _ => None
              end
        end
    | _, _ => Some st
    end.

(** [handleTouchEnd(e)]. *)
Definition handleTouchEnd (st : MindMap) (e : TouchEvent) : MindMap :=
  if negb (isTouching st) then st
  else if onNode e then st
  else match touches e with
       | [] => with_touch false false None None None st
       | [a] =>
           match lastTouchDistance st with
           | None => st
           | Some dist =>
               if Req_dec_T dist 0 then st
               else with_touch true (isTouching st)
                      (Some (mkTouchStart (clientX a) (clientY a)
                                          (offsetX st) (offsetY st) None))
                      None None st
           end
       | _ => st
       end.

(** [resetView()]. *)
Definition resetView (st : MindMap) : MindMap :=
  setStatus "View reset to center" (with_view 1 0 0 st).

(** [startEdit(nodeId)], up to the point where the input element is created:
    the edit session is open from then on. *)
Definition startEdit (st : MindMap) (nodeId : string) : MindMap :=
  if negb (editable (config st)) || isEditing st then st
  else match findNodeById (treeData st) nodeId with
       | None => st
       | Some _ => with_editing true (Some nodeId) st
       end.

(** The pan and zoom gestures, and the handler each one runs. *)
Inductive Gesture :=
| Wheel (deltaY : R)
| MouseDown (x y : R)
| MouseMove (x y : R)
| TouchStartEv (e : TouchEvent)
| TouchMoveEv (e : TouchEvent).

Definition handle (st : MindMap) (rect : Rect) (g : Gesture) : option MindMap :=
  match g with
  | Wheel deltaY => Some (handleWheel st rect deltaY)
  | MouseDown x y => Some (handleMouseDown st x y)
  | MouseMove x y => Some (handleMouseMove st x y)
  | TouchStartEv e => Some (handleTouchStart st rect e)
  | TouchMoveEv e => handleTouchMove st rect e
  end.

(** [n] wheel events in a row. *)
Fixpoint wheels (n : nat) (st : MindMap) (rect : Rect) (deltaY : R) : MindMap :=
  match n with
  | O => st
  | S n' => handleWheel (wheels n' st rect deltaY) rect deltaY
  end.

(** ** Definitions used by the statements and the proofs *)

Fixpoint firstSome {A B} (f : A -> option B) (l : list A) : option B :=
  match l with
  | [] => None
  | x :: l' => match f x with
               | Some y => Some y
               | None => firstSome f l'
               end
  end.

Fixpoint parentLoop (tree : Node) (childId : string) (l : list Node)
  : option Node :=
  match l with
  | [] => None
  | child :: l' =>
      if hasId childId child then Some tree
      else match findParentById child childId with
           | Some found => Some found
           | None => parentLoop tree childId l'
           end
  end.

Fixpoint updateLoop (f : Node -> Node) (i : string) (l : list Node)
  : option (list Node) :=
  match l with
  | [] => None
  | child :: l' =>
      match updateNodeById f child i with
      | Some child' => Some (child' :: l')
      | None => match updateLoop f i l' with
                | Some r => Some (child :: r)
                | None => None
                end
      end
  end.

Fixpoint updateParentLoop (f : Node -> Node) (childId : string) (l : list Node)
  : option Hit :=
  match l with
  | [] => None
  | child :: l' =>
      if hasId childId child then Some Here
      else match updateParentById f child childId with
           | Some child' => Some (Below (child' :: l'))
           | None =>
               match updateParentLoop f childId l' with
               | Some Here => Some Here
               | Some (Below r) => Some (Below (child :: r))
               | None => None
               end
           end
  end.

Fixpoint countAll (l : list Node) (sum : nat) : list Node * nat :=
  match l with
  | [] => ([], sum)
  | c :: l' =>
      let '(c', k) := countLeaves c in
      let '(r, total) := countAll l' (sum + k)%nat in
      (c' :: r, total)
  end.

(** The persisted part of a tree: [id], [name] and [children] of every node,
    the fields written by [render] left out. *)
Fixpoint strip (n : Node) : Node :=
  mkNode (plainFields (id (fields n)) (name (fields n)))
         match children n with
         | None => None
         | Some cs => Some (map strip cs)
         end.

Definition label (n : Node) : string * string :=
  (id (fields n), name (fields n)).

(** Id and name of every node, in pre-order. *)
Definition labels (n : Node) : list (string * string) := map label (preorder n).

(** The nodes at distance [d] below a node, in the order of the child
    arrays. *)
Fixpoint nodesAt (d : nat) (n : Node) : list Node :=
  match d with
  | O => [n]
  | S d' => flat_map (nodesAt d') (childArray n)
  end.

(** [s.trim()].  A string of the model is the UTF-8 encoding of the text, so
    the white space and line terminators that [trim] strips are: in one byte,
    tab, line feed, vertical tab, form feed, carriage return and space
    (U+0009 to U+000D, U+0020); in two bytes, U+00A0 (C2 A0); in three
    bytes, U+1680 (E1 9A 80), U+2000 to U+200A (E2 80 80 to E2 80 8A),
    U+2028, U+2029, U+202F (E2 80 A8, A9, AF), U+205F (E2 81 9F), U+3000
    (E3 80 80) and U+FEFF (EF BB BF).  No byte of another character starts
    one of these sequences, so reading byte by byte finds them exactly at
    the characters. *)
Definition isSpace (c : ascii) : bool :=
  match nat_of_ascii c with
  | 9%nat | 10%nat | 11%nat | 12%nat | 13%nat | 32%nat => true
  | _ => false
  end.

Definition isSpace2 (c1 c2 : ascii) : bool :=
  Ascii.eqb c1 "194"%char && Ascii.eqb c2 "160"%char.

Definition isSpace3 (c1 c2 c3 : ascii) : bool :=
  (Ascii.eqb c1 "225"%char && Ascii.eqb c2 "154"%char
   && Ascii.eqb c3 "128"%char)
  || (Ascii.eqb c1 "226"%char && Ascii.eqb c2 "128"%char
      && ((N.leb 128 (N_of_ascii c3) && N.leb (N_of_ascii c3) 138)
          || Ascii.eqb c3 "168"%char || Ascii.eqb c3 "169"%char
          || Ascii.eqb c3 "175"%char))
  || (Ascii.eqb c1 "226"%char && Ascii.eqb c2 "129"%char
      && Ascii.eqb c3 "159"%char)
  || (Ascii.eqb c1 "227"%char && Ascii.eqb c2 "128"%char
      && Ascii.eqb c3 "128"%char)
  || (Ascii.eqb c1 "239"%char && Ascii.eqb c2 "187"%char
      && Ascii.eqb c3 "191"%char).

Fixpoint trimStart (s : string) : string :=
  match s with
  | EmptyString => EmptyString
  | String c1 r1 =>
      if isSpace c1 then trimStart r1
      else match r1 with
           | EmptyString => s
           | String c2 r2 =>
               if isSpace2 c1 c2 then trimStart r2
               else match r2 with
                    | EmptyString => s
                    | String c3 r3 =>
                        if isSpace3 c1 c2 c3 then trimStart r3 else s
                    end
           end
  end.

Fixpoint trimEnd (s : string) : string :=
  match s with
  | EmptyString => EmptyString
  | String c1 r1 =>
      if isSpace c1
      then match trimEnd r1 with
           | EmptyString => EmptyString
           | t => String c1 t
           end
      else match r1 with
           | EmptyString => s
           | String c2 r2 =>
               if isSpace2 c1 c2
               then match trimEnd r2 with
                    | EmptyString => EmptyString
                    | t => String c1 (String c2 t)
                    end
               else match r2 with
                    | EmptyString => String c1 (trimEnd r1)
                    | String c3 r3 =>
                        if isSpace3 c1 c2 c3
                        then match trimEnd r3 with
                             | EmptyString => EmptyString
                             | t => String c1 (String c2 (String c3 t))
                             end
                        else String c1 (trimEnd r1)
                    end
           end
  end.

Definition trim (s : string) : string := trimEnd (trimStart s).


(** The tree of the scenarios:
    [{id:"root", name:"R", children:[{id:"a", name:"A"},
      {id:"b", name:"B", children:[{id:"b1", name:"B1"}]}]}]. *)
Definition scenario : Node :=
  branchNode "root" "R"
    [ leafNode "a" "A"; branchNode "b" "B" [ leafNode "b1" "B1" ] ].

(** An instance created at [Date.now() = 1700000000000] and given the
    scenario tree. *)
Definition demo : MindMap :=
  setData (construct defaultConfig 1700000000000 false) scenario.

(** The same with editing switched off. *)
Definition readOnlyConfig : Config := mkConfig 800 800 120 false true.

Definition readOnlyDemo : MindMap :=
  setData (construct readOnlyConfig 1700000000000 false) scenario.

(** A tree whose caller-supplied ids are distinct, one of them being the id
    the instance generates next. *)
Definition clashData : Node :=
  branchNode "root" "R" [ leafNode "node_1700000000001" "A" ].

Definition clashDemo : MindMap :=
  setData (construct defaultConfig 1700000000000 false) clashData.

(** Sequences of [addChild] and [addSibling] calls. *)
Inductive Op :=
| AddChild (parentId : string) (nm : option string)
| AddSibling (nodeId : string) (nm : option string).

Definition applyOp (st : MindMap) (o : Op) : MindMap :=
  match o with
  | AddChild parentId nm => fst (addChild st parentId nm)
  | AddSibling nodeId nm => fst (addSibling st nodeId nm)
  end.

Definition run (ops : list Op) (st : MindMap) : MindMap :=
  fold_left applyOp ops st.

(** A node that carries every field the two passes of [render] write. *)
Definition hasLayoutFields (f : Fields) : Prop :=
  _leafCount f <> None /\ _isLeaf f <> None /\ _x f <> None
  /\ _y f <> None /\ _angle f <> None /\ _depth f <> None.

(** No id of the tree is one that the counter has yet to produce. *)
Definition aheadOfIds (st : MindMap) : Prop :=
  forall k, (nodeIdCounter st < k)%N -> ~ In (idOf k) (ids (treeData st)).

(** The leaf count a placed node carries, as a number. *)
Definition leafR (p : Placed) : R :=
  match _leafCount (p_fields p) with
  | Some k => INR k
  | None => 0
  end.

Definition widthOf (p : Placed) : R := p_end p - p_start p.

(** [chain a l b]: the intervals of [l], taken in order, start at [a], each
    starts where the one before ends, each is non-empty, and the last one
    ends at [b]. *)
Fixpoint chain (a : R) (l : list Placed) (b : R) : Prop :=
  match l with
  | [] => a = b
  | c :: l' => p_start c = a /\ p_start c < p_end c /\ chain (p_end c) l' b
  end.

Fixpoint sumWidths (l : list Placed) : R :=
  match l with
  | [] => 0
  | c :: l' => widthOf c + sumWidths l'
  end.

(** What [layout] writes on a node placed at depth [d]. *)
Definition positioned (cfg : Config) (d : nat) (p : Placed) : Prop :=
  let mid := (p_start p + p_end p) / 2 in
  let r := INR d * radiusStep cfg in
  _angle (p_fields p) = Some mid
  /\ _depth (p_fields p) = Some d
  /\ _x (p_fields p) = Some (width cfg / 2 + r * cos mid)
  /\ _y (p_fields p) = Some (height cfg / 2 + r * sin mid).

Definition counted (n : Node) : Prop :=
  _leafCount (fields n) <> None /\ _isLeaf (fields n) <> None.

(** The children of [p] share its interval: in order, without gap or
    overlap, each in proportion to its leaf count. *)
Definition partitioned (p : Placed) : Prop :=
  forall cs,
    p_children p = Some cs -> cs <> [] ->
    chain (p_start p) cs (p_end p)
    /\ Forall (fun c => widthOf c = widthOf p * (leafR c / leafR p)) cs
    /\ sumWidths cs = widthOf p.

Fixpoint sumLeafR (l : list Node) : R :=
  match l with
  | [] => 0
  | c :: l' => leafCountR c + sumLeafR l'
  end.

Definition demoRect : Rect := mkRect 0 0 800 800.

(** ** Further definitions used by the statements *)

(** The nodes below a node, in pre-order. *)
Definition descendants (n : Node) : list Node :=
  flat_map preorder (childArray n).

(** A node without children: no [children] key, or an empty array. *)
Definition childless (n : Node) : bool :=
  match childArray n with
  | [] => true
  | _ :: _ => false
  end.

(** The childless nodes of a subtree. *)
Definition leafNodes (n : Node) : list Node := filter childless (preorder n).

(** A node with the six fields that [countLeaves] and [layout] write taken
    off, on every node of the subtree ([_isRoot] is kept). *)
Definition clearLayoutFields (f : Fields) : Fields :=
  mkFields (id f) (name f) None None (_isRoot f) None None None None.

Fixpoint clearLayout (n : Node) : Node :=
  mkNode (clearLayoutFields (fields n))
         match children n with
         | None => None
         | Some cs => Some (map clearLayout cs)
         end.

(** [root._isRoot = true]. *)
Definition markRoot (n : Node) : Node := mkNode (set_isRoot (fields n)) (children n).

(** The tree on display is the one a fresh [render()] would produce. *)
Definition upToDate (st : MindMap) : Prop :=
  render (config st) (treeData st) = treeData st.

(** The outline of a tree: depth, id and name of every node, in pre-order,
    the root being at depth [d]. *)
Fixpoint outlineAt (d : nat) (n : Node) : list (nat * (string * string)) :=
  (d, label n)
  :: match children n with
     | None => []
     | Some cs => flat_map (outlineAt (S d)) cs
     end.

Definition outline (n : Node) : list (nat * (string * string)) := outlineAt 0 n.

(** ** The context menu *)

Inductive MenuAction :=
| ActRename
| ActAddChild
| ActAddSibling
| ActDelete.

Record MenuItem := mkMenuItem {
  itemText : string;
  itemAction : MenuAction;
  dangerous : bool
}.

(** The items of [showContextMenu(x, y, nodeId)]: [None] when no menu comes up
    (editing disabled, or no node has the id and reading [node.name]
    throws). *)
Definition contextMenuItems (st : MindMap) (nodeId : string)
  : option (list MenuItem) :=
  if negb (editable (config st)) then None
  else match findNodeById (treeData st) nodeId with
       | None => None
       | Some node =>
           let isRoot := String.eqb nodeId (id (fields (treeData st))) in
           Some ([ mkMenuItem ("Rename " ++ dq ++ name (fields node) ++ dq)
                              ActRename false;
                   mkMenuItem "Add Child" ActAddChild false ]
                 ++ (if isRoot then []
                     else [ mkMenuItem "Add Sibling" ActAddSibling false;
                            mkMenuItem ("Delete " ++ dq ++ name (fields node)
                                        ++ dq) ActDelete true ]))%list
       end.

(** ** Drawing *)

Inductive NodeClass :=
| ClassRoot
| ClassLeaf
| ClassBranch.

(** The class [drawNodes] gives the element of a node. *)
Definition nodeClass (n : Node) : NodeClass :=
  match _isRoot (fields n) with
  | Some true => ClassRoot
  | _ => match _isLeaf (fields n) with
         | Some true => ClassLeaf
         | _ => ClassBranch
         end
  end.



(** An edit session is open exactly when [editingNode] is set. *)
Definition sessionConsistent (st : MindMap) : Prop :=
  (isEditing st = true /\ editingNode st <> None)
  \/ (isEditing st = false /\ editingNode st = None).

(** The pointer visits the positions of [path] one after the other, a
    [mousemove] at each. *)
Definition mouseMoves (st : MindMap) (path : list (R * R)) : MindMap :=
  fold_left (fun s p => handleMouseMove s (fst p) (snd p)) path st.

(** [drawNodes(node)]: the node elements appended to the drawing, in order,
    each with its [data-node-id] and its class. *)
Fixpoint drawNodes (n : Node) : list (string * NodeClass) :=
  (id (fields n), nodeClass n)
  :: match children n with
     | None => []
     | Some cs => flat_map drawNodes cs
     end.

(** The class by the data given: a node that carries [_isRoot: true] is a
    root, another one a leaf when it has no children and a branch when it
    has. *)
Definition classByData (n : Node) : NodeClass :=
  match _isRoot (fields n) with
  | Some true => ClassRoot
  | _ => if childless n then ClassLeaf else ClassBranch
  end.

(** Sequences of calls of the four editing methods. *)
Inductive Edit :=
| EditAddChild (parentId : string) (nm : option string)
| EditAddSibling (nodeId : string) (nm : option string)
| EditDelete (nodeId : string)
| EditRename (nodeId : string) (newName : option string).

Definition applyEdit (st : MindMap) (e : Edit) : MindMap :=
  match e with
  | EditAddChild parentId nm => fst (addChild st parentId nm)
  | EditAddSibling nodeId nm => fst (addSibling st nodeId nm)
  | EditDelete nodeId => fst (deleteNode st nodeId)
  | EditRename nodeId newName => fst (renameNode st nodeId newName)
  end.

Definition edits (es : list Edit) (st : MindMap) : MindMap :=
  fold_left applyEdit es st.

(** [strip] on the result of the loop of [updateParentById]. *)
Definition stripHit (h : Hit) : Hit :=
  match h with
  | Here => Here
  | Below cs => Below (map strip cs)
  end.

(** * Properties *)

(** ** Induction on trees *)

Section NodeInduction.
Variable P : Node -> Prop.
Hypothesis P_absent : forall f, P (mkNode f None).
Hypothesis P_array : forall f cs, Forall P cs -> P (mkNode f (Some cs)).

Fixpoint Node_rect_children (n : Node) : P n :=
  match n with
  | mkNode f None => P_absent f
  | mkNode f (Some cs) =>
      P_array f cs
        ((fix all (l : list Node) : Forall P l :=
            match l with
            | [] => Forall_nil P
            | c :: l' => Forall_cons c (Node_rect_children c) (all l')
            end) cs)
  end.
End NodeInduction.

(** ** Viewport *)

Lemma handleWheel_idle st rect deltaY :
  isEditing st = false ->
  zoom (handleWheel st rect deltaY)
  = zoom st * (if Rlt_dec 0 deltaY then 9 / 10 else 11 / 10)
  /\ isEditing (handleWheel st rect deltaY) = false.
Proof.
  intros H. unfold handleWheel. rewrite H. simpl. auto.
Qed.

Lemma setStatus_zoom m st : zoom (setStatus m st) = zoom st.
Proof. unfold setStatus. destruct (statusEl st); reflexivity. Qed.

Lemma setStatus_isEditing m st : isEditing (setStatus m st) = isEditing st.
Proof. unfold setStatus. destruct (statusEl st); reflexivity. Qed.

Lemma construct_zoom cfg now touch : zoom (construct cfg now touch) = 1.
Proof. unfold construct, setData. rewrite setStatus_zoom. reflexivity. Qed.

Lemma construct_isEditing cfg now touch :
  isEditing (construct cfg now touch) = false.
Proof. unfold construct, setData. rewrite setStatus_isEditing. reflexivity. Qed.

Lemma wheels_in_zoom n st rect :
  isEditing st = false ->
  zoom (wheels n st rect (-1)) = zoom st * (11 / 10) ^ n
  /\ isEditing (wheels n st rect (-1)) = false.
Proof.
  intros H. induction n as [|n [IHz IHe]]; simpl.
  - split; [lra | assumption].
  - destruct (handleWheel_idle (wheels n st rect (-1)) rect (-1) IHe) as [Hz He].
    split; [| exact He].
    rewrite Hz, IHz. destruct (Rlt_dec 0 (-1)); lra.
Qed.

(** C3. Wheel zoom keeps the centre of the view fixed: a point of the diagram
    that the viewport transform draws on the centre of the displayed surface
    is still drawn there after [handleWheel] has changed zoom and offset
    (zoom positive, any offset, any wheel event; exact in real arithmetic). *)
Theorem wheel_zoom_anchor_stable :
  forall (st : MindMap) (rect : Rect) (deltaY : R) (p : Point),
    0 < zoom st ->
    toCanvas st p = viewCenter (config st) rect ->
    toCanvas (handleWheel st rect deltaY) p = viewCenter (config st) rect.
Proof.
  intros st rect deltaY p Hz Hp.
  unfold handleWheel. destruct (isEditing st); [exact Hp|].
  remember (viewCenter (config st) rect) as c eqn:Ec. clear Ec.
  destruct c as [cx cy].
  remember (if Rlt_dec 0 deltaY then 9 / 10 else 11 / 10) as k eqn:Ek. clear Ek.
  unfold toCanvas in *. simpl in *. injection Hp as Hx Hy.
  f_equal.
  - rewrite <- Hx. field. lra.
  - rewrite <- Hy. field. lra.
Qed.

Lemma wheels_out_zoom n st rect :
  isEditing st = false ->
  zoom (wheels n st rect 1) = zoom st * (9 / 10) ^ n
  /\ isEditing (wheels n st rect 1) = false.
Proof.
  intros H. induction n as [|n [IHz IHe]]; simpl.
  - split; [lra | assumption].
  - destruct (handleWheel_idle (wheels n st rect 1) rect 1 IHe) as [Hz He].
    split; [| exact He].
    rewrite Hz, IHz. destruct (Rlt_dec 0 1); lra.
Qed.

(** C4. Seventeen wheel steps inwards from the initial view bring the zoom
    above 5, and twenty-two steps outwards bring it below 0.1: [handleWheel]
    multiplies the zoom and never clamps it. *)
Theorem wheel_zoom_exceeds_max :
  forall (now : N) (touch : bool) (rect : Rect),
    5 < zoom (wheels 17 (construct defaultConfig now touch) rect (-1))
    /\ zoom (wheels 22 (construct defaultConfig now touch) rect 1) < 1 / 10.
Proof.
  intros now touch rect.
  destruct (wheels_in_zoom 17 (construct defaultConfig now touch) rect
              (construct_isEditing _ _ _)) as [Hz _].
  destruct (wheels_out_zoom 22 (construct defaultConfig now touch) rect
              (construct_isEditing _ _ _)) as [Hz' _].
  rewrite Hz, Hz', construct_zoom. simpl. lra.
Qed.

Lemma clampZoom_bounds z : 1 / 10 <= clampZoom z <= 5.
Proof.
  unfold clampZoom, Rmax, Rmin.
  destruct (Rle_dec 5 z); destruct (Rle_dec (1 / 10) _); lra.
Qed.

(** The pinch branch of [handleTouchMove] is the one place that clamps: when
    the handler changes the zoom, the new value lies in [0.1, 5]. *)
Lemma handleTouchMove_zoom_bounds st rect e st' :
  handleTouchMove st rect e = Some st' ->
  zoom st' = zoom st \/ 1 / 10 <= zoom st' <= 5.
Proof.
  unfold handleTouchMove.
  destruct (negb (isTouching st) || isEditing st).
  { intros [= <-]; auto. }
  destruct (onNode e). { intros [= <-]; auto. }
  destruct (touches e) as [|a [|b [|c l]]]; destruct (touchStart st) as [ts|];
    try (intros [= <-]; auto; fail).
  - destruct (isDragging st); intros [= <-]; auto.
  - destruct (lastTouchDistance st) as [dist|]; [|intros [= <-]; auto].
    destruct (Req_dec_T dist 0); [intros [= <-]; auto|].
    destruct (t_pinch ts); [|discriminate].
    destruct (lastTouchCenter st); [|discriminate].
    intros [= <-]. right. simpl. apply clampZoom_bounds.
Qed.

(** C9. With an edit session open, the wheel, mouse-down, mouse-move,
    touch-start and touch-move handlers return at once: the instance, and with
    it zoom and offset, is left as it was. *)
Theorem gestures_inert_while_editing :
  forall (st : MindMap) (rect : Rect) (g : Gesture),
    isEditing st = true ->
    exists st', handle st rect g = Some st'
                /\ zoom st' = zoom st
                /\ offsetX st' = offsetX st
                /\ offsetY st' = offsetY st
                /\ st' = st.
Proof.
  intros st rect g H. exists st.
  split; [|repeat split].
  destruct g; simpl.
  - unfold handleWheel. now rewrite H.
  - unfold handleMouseDown. now rewrite H.
  - unfold handleMouseMove. rewrite H, orb_true_r. reflexivity.
  - unfold handleTouchStart. now rewrite H.
  - unfold handleTouchMove. rewrite H, orb_true_r. reflexivity.
Qed.

(** ** The loops, as functions on the child array *)

Lemma findNodeById_eq tree i :
  findNodeById tree i
  = if String.eqb (id (fields tree)) i then Some tree
    else firstSome (fun c => findNodeById c i) (childArray tree).
Proof.
  destruct tree as [f [cs|]]; unfold childArray; simpl;
    destruct (String.eqb (id f) i); try reflexivity.
  induction cs as [|c cs IH]; simpl; [reflexivity|].
  destruct (findNodeById c i); [reflexivity | exact IH].
Qed.

Lemma findParentById_eq tree childId :
  findParentById tree childId = parentLoop tree childId (childArray tree).
Proof.
  destruct tree as [f [cs|]]; unfold childArray; simpl; [|reflexivity].
  generalize (mkNode f (Some cs)) as t. intros t.
  induction cs as [|c cs IH]; simpl; [reflexivity|].
  unfold hasId. destruct (String.eqb (id (fields c)) childId); [reflexivity|].
  destruct (findParentById c childId); [reflexivity | exact IH].
Qed.

Lemma updateNodeById_eq f tree i :
  updateNodeById f tree i
  = if String.eqb (id (fields tree)) i then Some (f tree)
    else match children tree with
         | None => None
         | Some cs => match updateLoop f i cs with
                      | Some cs' => Some (mkNode (fields tree) (Some cs'))
                      | None => None
                      end
         end.
Proof.
  destruct tree as [fl [cs|]]; simpl;
    destruct (String.eqb (id fl) i); try reflexivity.
  match goal with
  | |- match ?a with _ => _ end = match ?b with _ => _ end =>
      assert (E : a = b); [|now rewrite E]
  end.
  induction cs as [|c cs IH]; simpl; [reflexivity|].
  destruct (updateNodeById f c i); [reflexivity|]. now rewrite IH.
Qed.

Lemma updateParentById_eq f tree childId :
  updateParentById f tree childId
  = match children tree with
    | None => None
    | Some cs =>
        match updateParentLoop f childId cs with
        | Some Here => Some (f tree)
        | Some (Below cs') => Some (mkNode (fields tree) (Some cs'))
        | None => None
        end
    end.
Proof.
  destruct tree as [fl [cs|]]; simpl; [|reflexivity].
  match goal with
  | |- match ?a with _ => _ end = match ?b with _ => _ end =>
      assert (E : a = b); [|now rewrite E]
  end.
  induction cs as [|c cs IH]; simpl; [reflexivity|].
  unfold hasId. destruct (String.eqb (id (fields c)) childId); [reflexivity|].
  destruct (updateParentById f c childId); [reflexivity|]. now rewrite IH.
Qed.

Lemma countLeaves_eq node :
  countLeaves node
  = match children node with
    | None => (mkNode (set_leaf 1 true (fields node)) None, 1%nat)
    | Some [] => (mkNode (set_leaf 1 true (fields node)) (Some []), 1%nat)
    | Some cs =>
        let '(cs', sum) := countAll cs 0%nat in
        (mkNode (set_leaf sum false (fields node)) (Some cs'), sum)
    end.
Proof.
  destruct node as [fl [[|c cs]|]]; reflexivity.
Qed.

Lemma layout_eq cfg node startAngle endAngle depth :
  layout cfg node startAngle endAngle depth
  = let mid := (startAngle + endAngle) / 2 in
    let r := INR depth * radiusStep cfg in
    let f := set_position (width cfg / 2 + r * cos mid)
                          (height cfg / 2 + r * sin mid)
                          mid depth (fields node) in
    mkPlaced f startAngle endAngle
      match children node with
      | None => None
      | Some cs =>
          Some (layoutChildren cfg (endAngle - startAngle) (leafCountR node)
                               (S depth) cs startAngle)
      end.
Proof.
  destruct node as [fl [[|c cs]|]]; reflexivity.
Qed.

(** ** What [render] keeps *)

Lemma preorder_eq n : preorder n = n :: flat_map preorder (childArray n).
Proof. destruct n as [f [cs|]]; reflexivity. Qed.

Lemma labels_eq n : labels n = label n :: flat_map labels (childArray n).
Proof.
  unfold labels. rewrite preorder_eq. simpl. f_equal.
  induction (childArray n) as [|c cs IH]; simpl; [reflexivity|].
  now rewrite map_app, IH.
Qed.

Lemma ids_labels n : ids n = map fst (labels n).
Proof. unfold ids, labels. rewrite map_map. reflexivity. Qed.

Lemma map_ext_Forall {A B} (f g : A -> B) l :
  Forall (fun x => f x = g x) l -> map f l = map g l.
Proof. induction 1; simpl; congruence. Qed.

Lemma flat_map_ext_Forall {A B} (f g : A -> list B) l :
  Forall (fun x => f x = g x) l -> flat_map f l = flat_map g l.
Proof. induction 1; simpl; congruence. Qed.

Lemma deepClone_id n : deepClone n = n.
Proof.
  induction n as [f|f cs IH] using Node_rect_children;
    destruct f; simpl; [reflexivity|].
  do 2 f_equal. rewrite <- (map_id cs) at 2. now apply map_ext_Forall.
Qed.

Lemma countAll_spec l s :
  countAll l s
  = (map annotate l, (s + list_sum (map leafCountOf l))%nat).
Proof.
  revert s. induction l as [|c l IH]; intros s; simpl.
  - now rewrite Nat.add_0_r.
  - unfold annotate, leafCountOf. destruct (countLeaves c) as [c' k]. simpl.
    rewrite IH. f_equal. unfold leafCountOf. lia.
Qed.

Lemma annotate_eq node :
  annotate node
  = match children node with
    | None => mkNode (set_leaf 1 true (fields node)) None
    | Some [] => mkNode (set_leaf 1 true (fields node)) (Some [])
    | Some cs =>
        mkNode (set_leaf (list_sum (map leafCountOf cs)) false (fields node))
               (Some (map annotate cs))
    end.
Proof.
  unfold annotate. rewrite countLeaves_eq.
  destruct (children node) as [[|c cs]|]; try reflexivity.
  rewrite countAll_spec. reflexivity.
Qed.

Lemma leafCountOf_eq node :
  leafCountOf node
  = match children node with
    | None => 1%nat
    | Some [] => 1%nat
    | Some cs => list_sum (map leafCountOf cs)
    end.
Proof.
  unfold leafCountOf. rewrite countLeaves_eq.
  destruct (children node) as [[|c cs]|]; try reflexivity.
  rewrite countAll_spec. reflexivity.
Qed.

Lemma strip_annotate n : strip (annotate n) = strip n.
Proof.
  induction n as [f|f cs IH] using Node_rect_children;
    rewrite annotate_eq; cbn [children fields]; [reflexivity|].
  destruct cs as [|c cs]; [reflexivity|].
  cbn [strip children fields set_leaf id name].
  do 2 f_equal. rewrite map_map. now apply map_ext_Forall.
Qed.

Lemma strip_layoutChildren cfg total k depth cs :
  Forall (fun c => forall s e d, strip (erase (layout cfg c s e d)) = strip c)
         cs ->
  forall angle,
    map strip (map erase (layoutChildren cfg total k depth cs angle))
    = map strip cs.
Proof.
  induction 1 as [|c cs Hc _ IH]; intros angle; simpl; [reflexivity|].
  now rewrite Hc, IH.
Qed.

Lemma strip_layout cfg n :
  forall s e d, strip (erase (layout cfg n s e d)) = strip n.
Proof.
  induction n as [f|f cs IH] using Node_rect_children; intros s e d;
    rewrite layout_eq; cbn; [reflexivity|].
  do 2 f_equal. now apply strip_layoutChildren.
Qed.

Lemma strip_layoutRoot cfg n : strip (erase (layoutRoot cfg n)) = strip n.
Proof.
  destruct n as [f [cs|]]; cbn; [|reflexivity].
  do 2 f_equal. apply strip_layoutChildren.
  apply Forall_forall. intros c _. apply strip_layout.
Qed.

Lemma strip_render cfg t : strip (render cfg t) = strip t.
Proof.
  unfold render, renderPlaced. now rewrite strip_layoutRoot, strip_annotate.
Qed.

Lemma labels_strip n : labels (strip n) = labels n.
Proof.
  induction n as [f|f cs IH] using Node_rect_children;
    rewrite !labels_eq; unfold childArray; cbn; [reflexivity|].
  f_equal. rewrite flat_map_concat_map, map_map, <- flat_map_concat_map.
  now apply flat_map_ext_Forall.
Qed.

Lemma labels_render cfg t : labels (render cfg t) = labels t.
Proof. now rewrite <- labels_strip, strip_render, labels_strip. Qed.

Lemma ids_render cfg t : ids (render cfg t) = ids t.
Proof. now rewrite !ids_labels, labels_render. Qed.

Lemma findNodeById_strip t i :
  findNodeById (strip t) i = option_map strip (findNodeById t i).
Proof.
  induction t as [f|f cs IH] using Node_rect_children;
    rewrite (findNodeById_eq (strip _)), findNodeById_eq; unfold childArray;
    cbn; destruct (String.eqb (id f) i); try reflexivity.
  induction IH as [|c cs Hc _ IHcs]; simpl; [reflexivity|].
  rewrite Hc. destruct (findNodeById c i); [reflexivity | exact IHcs].
Qed.

Lemma findNodeById_render cfg t i n :
  findNodeById t i = Some n ->
  exists n', findNodeById (render cfg t) i = Some n' /\ strip n' = strip n.
Proof.
  intros H.
  pose proof (findNodeById_strip (render cfg t) i) as E.
  rewrite strip_render, findNodeById_strip, H in E.
  destruct (findNodeById (render cfg t) i) as [n'|]; [|discriminate].
  exists n'. split; [reflexivity|]. simpl in E. injection E as E. now symmetry.
Qed.

Lemma findParentById_strip t i :
  findParentById (strip t) i = option_map strip (findParentById t i).
Proof.
  induction t as [f|f cs IH] using Node_rect_children;
    rewrite (findParentById_eq (strip _)), findParentById_eq; unfold childArray;
    cbn [children strip]; [reflexivity|].
  change (mkNode (plainFields (id (fields (mkNode f (Some cs))))
                    (name (fields (mkNode f (Some cs)))))
                 (Some (map strip cs)))
    with (strip (mkNode f (Some cs))).
  generalize (mkNode f (Some cs)) as u. intros u.
  induction IH as [|c cs Hc _ IHcs]; simpl; [reflexivity|].
  assert (E : hasId i (strip c) = hasId i c) by (now destruct c as [[] ?]).
  rewrite E, Hc. destruct (hasId i c); [reflexivity|].
  destruct (findParentById c i); [reflexivity | exact IHcs].
Qed.

Lemma findParentById_render cfg t i p :
  findParentById t i = Some p ->
  exists p', findParentById (render cfg t) i = Some p' /\ strip p' = strip p.
Proof.
  intros H.
  pose proof (findParentById_strip (render cfg t) i) as E.
  rewrite strip_render, findParentById_strip, H in E.
  destruct (findParentById (render cfg t) i) as [p'|]; [|discriminate].
  exists p'. split; [reflexivity|]. simpl in E. injection E as E. now symmetry.
Qed.

Lemma strip_name a b : strip a = strip b -> name (fields a) = name (fields b).
Proof.
  destruct a as [[] ?], b as [[] ?]. simpl. intros H. now injection H.
Qed.

Lemma strip_id a b : strip a = strip b -> id (fields a) = id (fields b).
Proof.
  destruct a as [[] ?], b as [[] ?]. simpl. intros H. now injection H.
Qed.

(** ** Search and in-place update agree *)

Section UpdateNode.
Variable f : Node -> Node.
Variable i : string.

Lemma updateNodeById_none t :
  findNodeById t i = None -> updateNodeById f t i = None.
Proof.
  induction t as [fl|fl cs IH] using Node_rect_children;
    rewrite findNodeById_eq, updateNodeById_eq; unfold childArray;
    cbn [children fields]; destruct (String.eqb (id fl) i);
    try discriminate; try reflexivity.
  intros H.
  assert (E : updateLoop f i cs = None); [|now rewrite E].
  induction IH as [|c cs Hc _ IHcs]; simpl in *; [reflexivity|].
  destruct (findNodeById c i); [discriminate|].
  rewrite (Hc eq_refl), (IHcs H). reflexivity.
Qed.

Hypothesis f_id : forall m, id (fields (f m)) = id (fields m).

Lemma updateNodeById_find t n :
  findNodeById t i = Some n ->
  exists t', updateNodeById f t i = Some t'
             /\ findNodeById t' i = Some (f n).
Proof.
  induction t as [fl|fl cs IH] using Node_rect_children;
    rewrite findNodeById_eq, updateNodeById_eq; unfold childArray;
    cbn [children fields]; destruct (String.eqb (id fl) i) eqn:Ei;
    try discriminate.
  - intros [= <-]. eexists; split; [reflexivity|].
    rewrite findNodeById_eq, f_id. cbn. now rewrite Ei.
  - intros [= <-]. eexists; split; [reflexivity|].
    rewrite findNodeById_eq, f_id. cbn. now rewrite Ei.
  - intros H.
    assert (E : exists cs', updateLoop f i cs = Some cs'
               /\ firstSome (fun c => findNodeById c i) cs' = Some (f n)).
    { induction IH as [|c cs Hc _ IHcs]; simpl in *; [discriminate|].
      destruct (findNodeById c i) as [m|] eqn:Ec.
      - injection H as ->. destruct (Hc eq_refl) as (c' & -> & Hf).
        eexists; split; [reflexivity|]. simpl. now rewrite Hf.
      - rewrite (updateNodeById_none c Ec).
        destruct (IHcs H) as (r & -> & Hr).
        eexists; split; [reflexivity|]. simpl. now rewrite Ec. }
    destruct E as (cs' & -> & Hcs').
    eexists; split; [reflexivity|].
    rewrite findNodeById_eq. cbn. now rewrite Ei.
Qed.
End UpdateNode.

Section UpdateLabels.
Variable f : Node -> Node.
Variable i : string.
Variable extra : list (string * string).
Hypothesis f_labels : forall m, Permutation (labels (f m)) (extra ++ labels m).

Lemma updateNodeById_labels t n :
  findNodeById t i = Some n ->
  exists t', updateNodeById f t i = Some t'
             /\ Permutation (labels t') (extra ++ labels t).
Proof.
  revert n.
  induction t as [fl|fl cs IH] using Node_rect_children; intros n;
    rewrite findNodeById_eq, updateNodeById_eq; unfold childArray;
    cbn [children fields]; destruct (String.eqb (id fl) i) eqn:Ei;
    try discriminate.
  - intros _. eexists; split; [reflexivity | apply f_labels].
  - intros _. eexists; split; [reflexivity | apply f_labels].
  - intros H.
    assert (E : exists cs', updateLoop f i cs = Some cs'
               /\ Permutation (flat_map labels cs')
                              (extra ++ flat_map labels cs)).
    { induction IH as [|c cs Hc _ IHcs]; simpl in *; [discriminate|].
      destruct (findNodeById c i) as [m|] eqn:Ec.
      - destruct (Hc m eq_refl) as (c' & -> & Hp).
        eexists; split; [reflexivity|]. simpl.
        rewrite Hp, app_assoc. reflexivity.
      - rewrite (updateNodeById_none f i c Ec).
        destruct (IHcs H) as (r & -> & Hr).
        eexists; split; [reflexivity|]. simpl. rewrite Hr.
        rewrite !app_assoc. apply Permutation_app_tail, Permutation_app_comm. }
    destruct E as (cs' & -> & Hcs').
    eexists; split; [reflexivity|].
    rewrite !labels_eq. unfold childArray, label. cbn.
    rewrite Hcs'. apply Permutation_middle.
Qed.

Lemma updateParentById_none t :
  findParentById t i = None -> updateParentById f t i = None.
Proof.
  induction t as [fl|fl cs IH] using Node_rect_children;
    rewrite findParentById_eq, updateParentById_eq; unfold childArray;
    cbn [children fields]; [reflexivity|].
  generalize (mkNode fl (Some cs)) as t. intros t H.
  assert (E : updateParentLoop f i cs = None); [|now rewrite E].
  induction IH as [|c cs Hc _ IHcs]; simpl in *; [reflexivity|].
  destruct (hasId i c); [discriminate|].
  destruct (findParentById c i); [discriminate|].
  rewrite (Hc eq_refl), (IHcs H). reflexivity.
Qed.

Lemma updateParentById_labels t p :
  findParentById t i = Some p ->
  exists t', updateParentById f t i = Some t'
             /\ Permutation (labels t') (extra ++ labels t).
Proof.
  revert p.
  induction t as [fl|fl cs IH] using Node_rect_children; intros p;
    rewrite findParentById_eq, updateParentById_eq; unfold childArray;
    cbn [children fields]; [discriminate|].
  intros H.
  assert (E : updateParentLoop f i cs = Some Here
              \/ exists cs', updateParentLoop f i cs = Some (Below cs')
                 /\ Permutation (flat_map labels cs')
                                (extra ++ flat_map labels cs)).
  { revert H. generalize (mkNode fl (Some cs)) as t. intros t H.
    induction IH as [|c cs Hc _ IHcs]; simpl in *; [discriminate|].
    destruct (hasId i c); [now left|].
    destruct (findParentById c i) as [m|] eqn:Ec.
    - destruct (Hc m eq_refl) as (c' & -> & Hp). right.
      eexists; split; [reflexivity|]. simpl.
      rewrite Hp, app_assoc. reflexivity.
    - rewrite (updateParentById_none c Ec).
      destruct (IHcs H) as [->|(r & -> & Hr)]; [now left|]. right.
      eexists; split; [reflexivity|]. simpl. rewrite Hr.
      rewrite !app_assoc. apply Permutation_app_tail, Permutation_app_comm. }
  destruct E as [->|(cs' & -> & Hcs')].
  - eexists; split; [reflexivity | apply f_labels].
  - eexists; split; [reflexivity|].
    rewrite !labels_eq. unfold childArray, label. cbn.
    rewrite Hcs'. apply Permutation_middle.
Qed.
End UpdateLabels.

Lemma flat_map_labels_insert l k c :
  Permutation (flat_map labels (firstn k l ++ c :: skipn k l))
              (labels c ++ flat_map labels l).
Proof.
  rewrite <- (firstn_skipn k l) at 3.
  rewrite !flat_map_app. simpl.
  rewrite !app_assoc. apply Permutation_app_tail, Permutation_app_comm.
Qed.

Lemma pushChild_labels c m :
  Permutation (labels (pushChild c m)) (labels c ++ labels m).
Proof.
  rewrite (labels_eq (pushChild c m)), (labels_eq m).
  unfold pushChild, childArray at 1. cbn.
  rewrite flat_map_app. simpl. rewrite app_nil_r.
  etransitivity; [|apply Permutation_middle].
  apply perm_skip, Permutation_app_comm.
Qed.

Lemma insertSibling_labels i c m :
  Permutation (labels (insertSibling i c m)) (labels c ++ labels m).
Proof.
  rewrite (labels_eq (insertSibling i c m)), (labels_eq m).
  unfold insertSibling, childArray at 1, spliceInsert. cbn.
  etransitivity; [|apply Permutation_middle].
  apply perm_skip, flat_map_labels_insert.
Qed.

Lemma leafNode_labels i n : labels (leafNode i n) = [(i, n)].
Proof. reflexivity. Qed.

(** ** Editing: helper lemmas *)

Lemma setStatus_treeData m st : treeData (setStatus m st) = treeData st.
Proof. unfold setStatus. destruct (statusEl st); reflexivity. Qed.

Lemma setStatus_config m st : config (setStatus m st) = config st.
Proof. unfold setStatus. destruct (statusEl st); reflexivity. Qed.

Lemma setStatus_counter m st : nodeIdCounter (setStatus m st) = nodeIdCounter st.
Proof. unfold setStatus. destruct (statusEl st); reflexivity. Qed.

Lemma setStatus_statusEl m st :
  statusEl (setStatus m st)
  = match statusEl st with
    | None => None
    | Some _ => Some m
    end.
Proof. unfold setStatus. destruct (statusEl st) eqn:E; [reflexivity | exact E]. Qed.

Lemma findParentById_none_of_find t i :
  findNodeById t i = None -> findParentById t i = None.
Proof.
  induction t as [fl|fl cs IH] using Node_rect_children;
    rewrite findNodeById_eq, findParentById_eq; unfold childArray;
    cbn [children fields]; [reflexivity|].
  destruct (String.eqb (id fl) i); [discriminate|].
  generalize (mkNode fl (Some cs)) as t. intros t H.
  induction IH as [|c cs Hc _ IHcs]; simpl in *; [reflexivity|].
  destruct (findNodeById c i) eqn:Ec; [discriminate|].
  rewrite (Hc eq_refl), (IHcs H).
  rewrite findNodeById_eq in Ec. unfold hasId.
  destruct (String.eqb (id (fields c)) i); [discriminate | reflexivity].
Qed.

Lemma findNodeById_root t : findNodeById t (id (fields t)) = Some t.
Proof. rewrite findNodeById_eq, String.eqb_refl. reflexivity. Qed.

Lemma generateId_eq st :
  generateId st
  = (idOf (nextCounter (nodeIdCounter st)),
     with_counter (nextCounter (nodeIdCounter st)) st).
Proof. reflexivity. Qed.

Lemma addChild_done st parentId nm parent :
  editable (config st) = true ->
  findNodeById (treeData st) parentId = Some parent ->
  exists st',
    addChild st parentId nm = (st', true)
    /\ Permutation (labels (treeData st'))
                   ((idOf (nextCounter (nodeIdCounter st)),
                     orDefault nm "New Node") :: labels (treeData st))
    /\ nodeIdCounter st' = nextCounter (nodeIdCounter st)
    /\ config st' = config st.
Proof.
  intros He Hf. unfold addChild. rewrite He, Hf. cbn [negb].
  rewrite generateId_eq. eexists. split; [reflexivity|].
  rewrite setStatus_treeData, setStatus_counter, setStatus_config.
  cbn [treeData nodeIdCounter config with_tree with_counter].
  split; [|split; reflexivity].
  rewrite labels_render. unfold mutateNode.
  match goal with
  | |- context [updateNodeById (pushChild ?c) _ _] =>
      destruct (updateNodeById_labels (pushChild c) parentId (labels c)
                  (pushChild_labels c) (treeData st) parent Hf)
        as (t' & -> & Hp)
  end.
  exact Hp.
Qed.

Lemma addSibling_done st nodeId nm parent :
  editable (config st) = true ->
  findParentById (treeData st) nodeId = Some parent ->
  exists st',
    addSibling st nodeId nm = (st', true)
    /\ Permutation (labels (treeData st'))
                   ((idOf (nextCounter (nodeIdCounter st)),
                     orDefault nm "New Node") :: labels (treeData st))
    /\ nodeIdCounter st' = nextCounter (nodeIdCounter st)
    /\ config st' = config st.
Proof.
  intros He Hf. unfold addSibling. rewrite He, Hf. cbn [negb].
  rewrite generateId_eq. eexists. split; [reflexivity|].
  rewrite setStatus_treeData, setStatus_counter, setStatus_config.
  cbn [treeData nodeIdCounter config with_tree with_counter].
  split; [|split; reflexivity].
  rewrite labels_render. unfold mutateParent.
  match goal with
  | |- context [updateParentById (insertSibling _ ?c) _ _] =>
      destruct (updateParentById_labels (insertSibling nodeId c) nodeId
                  (labels c) (insertSibling_labels nodeId c) (treeData st)
                  parent Hf)
        as (t' & -> & Hp)
  end.
  exact Hp.
Qed.

Lemma addChild_refused st parentId nm :
  editable (config st) = false \/ findNodeById (treeData st) parentId = None ->
  addChild st parentId nm = (st, false).
Proof.
  unfold addChild. intros [H|H].
  - now rewrite H.
  - rewrite H. now destruct (negb _).
Qed.

Lemma addSibling_refused st nodeId nm :
  editable (config st) = false \/ findParentById (treeData st) nodeId = None ->
  addSibling st nodeId nm = (st, false).
Proof.
  unfold addSibling. intros [H|H].
  - now rewrite H.
  - rewrite H. now destruct (negb _).
Qed.

Lemma renamed_id v m : id (fields (renamed v m)) = id (fields m).
Proof. reflexivity. Qed.

Lemma renameNode_done st nodeId newName node :
  editable (config st) = true ->
  findNodeById (treeData st) nodeId = Some node ->
  exists st' node',
    renameNode st nodeId newName = (st', true)
    /\ findNodeById (treeData st') nodeId = Some node'
    /\ name (fields node') = orDefault newName "Unnamed"
    /\ ids (treeData st') = ids (treeData st).
Proof.
  intros He Hf. unfold renameNode. rewrite He, Hf. cbn [negb].
  set (v := orDefault newName "Unnamed").
  destruct (updateNodeById_find (renamed v) nodeId (renamed_id v)
              (treeData st) node Hf) as (t' & Hu & Hf').
  destruct (findNodeById_render (config st) t' nodeId _ Hf')
    as (node' & Hr & Hs).
  exists (setStatus ("Renamed " ++ dq ++ name (fields node) ++ dq ++ " to "
                     ++ dq ++ v ++ dq)
            (with_tree (render (config st)
                          (mutateNode (renamed v) (treeData st) nodeId)) st)),
    node'.
  split; [reflexivity|].
  rewrite setStatus_treeData. cbn [treeData with_tree].
  unfold mutateNode. rewrite Hu.
  split; [exact Hr|]. split; [exact (strip_name _ _ Hs)|].
  rewrite ids_render, !ids_labels.
  assert (L : forall t t0,
             updateNodeById (renamed v) t nodeId = Some t0 ->
             map fst (labels t0) = map fst (labels t)).
  { clear. intros t.
    induction t as [fl|fl cs IH] using Node_rect_children; intros t0;
      rewrite updateNodeById_eq; cbn [children fields];
      destruct (String.eqb (id fl) nodeId); try discriminate;
      try (intros [= <-]; reflexivity).
    destruct (updateLoop (renamed v) nodeId cs) as [cs'|] eqn:E;
      [|discriminate].
    intros [= <-]. rewrite !labels_eq. unfold childArray. cbn. f_equal.
    revert cs' E. induction IH as [|c cs Hc _ IHcs]; intros cs' E;
      simpl in E; [discriminate|].
    destruct (updateNodeById (renamed v) c nodeId) as [c'|].
    - injection E as <-. simpl. rewrite !map_app. now rewrite (Hc c' eq_refl).
    - destruct (updateLoop (renamed v) nodeId cs) as [r|]; [|discriminate].
      injection E as <-. simpl. rewrite !map_app. now rewrite (IHcs r eq_refl). }
  exact (L _ _ Hu).
Qed.

Lemma renameNode_refused st nodeId newName :
  editable (config st) = false \/ findNodeById (treeData st) nodeId = None ->
  renameNode st nodeId newName = (st, false).
Proof.
  unfold renameNode. intros [H|H].
  - now rewrite H.
  - rewrite H. now destruct (negb _).
Qed.

(** ** Editing: theorems *)

Lemma orDefault_empty d : orDefault None d = d /\ orDefault (Some "") d = d.
Proof. split; reflexivity. Qed.

Lemma orDefault_nonempty c s d : orDefault (Some (String c s)) d = String c s.
Proof. reflexivity. Qed.

Lemma demo_treeData : treeData demo = render defaultConfig scenario.
Proof.
  unfold demo, setData. rewrite setStatus_treeData. cbn [treeData with_tree].
  rewrite deepClone_id. unfold construct, setData.
  now rewrite setStatus_config.
Qed.

Lemma demo_editable : editable (config demo) = true.
Proof.
  unfold demo, setData. rewrite setStatus_config. cbn [config with_tree].
  unfold construct, setData. now rewrite setStatus_config.
Qed.

Lemma demo_find_a :
  exists node, findNodeById (treeData demo) "a" = Some node
               /\ name (fields node) = "A".
Proof.
  rewrite demo_treeData.
  destruct (findNodeById_render defaultConfig scenario "a" (leafNode "a" "A")
              eq_refl) as (n' & H & Hs).
  exists n'. split; [exact H | exact (strip_name _ _ Hs)].
Qed.

(** Counterexample to C6 as stated. A new name of one space is empty after trimming,
    yet [renameNode] stores it: the name of node [a] becomes the space, not
    the placeholder. *)
Lemma renameNode_stores_blank_name :
  trim " " = ""
  /\ exists st' node',
       renameNode demo "a" (Some " ") = (st', true)
       /\ findNodeById (treeData st') "a" = Some node'
       /\ name (fields node') = " "
       /\ name (fields node') <> "Unnamed".
Proof.
  split; [reflexivity|].
  destruct demo_find_a as (node & Hf & _).
  destruct (renameNode_done demo "a" (Some " ") node demo_editable Hf)
    as (st' & node' & Hr & Hf' & Hn & _).
  exists st', node'. repeat split; try assumption.
  rewrite Hn. discriminate.
Qed.

(** C6 (amended). [renameNode] returns failure and leaves the instance as it
    was when editing is disabled or no node has the id; otherwise it returns
    success and the node found under the id then bears the new name as given
    (not trimmed), or the placeholder "Unnamed" when the new name is missing
    or the empty string; no id changes. *)
Theorem renameNode_sets_name_or_placeholder :
  forall (st : MindMap) (nodeId : string) (newName : option string),
    (editable (config st) = false \/ findNodeById (treeData st) nodeId = None ->
     renameNode st nodeId newName = (st, false))
    /\ (editable (config st) = true ->
        findNodeById (treeData st) nodeId <> None ->
        exists st' node',
          renameNode st nodeId newName = (st', true)
          /\ findNodeById (treeData st') nodeId = Some node'
          /\ name (fields node')
             = match newName with
               | Some (String c s) => String c s
               | _ => "Unnamed"
               end
          /\ ids (treeData st') = ids (treeData st)).
Proof.
  intros st nodeId newName. split.
  - apply renameNode_refused.
  - intros He Hf.
    destruct (findNodeById (treeData st) nodeId) as [node|] eqn:E;
      [|contradiction].
    destruct (renameNode_done st nodeId newName node He E)
      as (st' & node' & Hr & Hf' & Hn & Hi).
    exists st', node'. repeat split; try assumption.
    rewrite Hn. destruct newName as [[|c s]|]; reflexivity.
Qed.

Lemma readOnlyDemo_state :
  editable (config readOnlyDemo) = false
  /\ treeData readOnlyDemo = render readOnlyConfig scenario.
Proof.
  unfold readOnlyDemo, setData.
  rewrite setStatus_config, setStatus_treeData.
  cbn [config treeData with_tree]. rewrite deepClone_id.
  unfold construct, setData. rewrite !setStatus_config. split; reflexivity.
Qed.

Lemma readOnlyDemo_find_root :
  findNodeById (treeData readOnlyDemo) "root" <> None
  /\ id (fields (treeData readOnlyDemo)) = "root"
  /\ findNodeById (treeData readOnlyDemo) "ghost" = None.
Proof.
  destruct readOnlyDemo_state as (_ & ->).
  destruct (findNodeById_render readOnlyConfig scenario "root" scenario eq_refl)
    as (n' & H & _).
  split; [rewrite H; discriminate|]. split.
  - change (hd "" (ids (render readOnlyConfig scenario)) = "root").
    now rewrite ids_render.
  - pose proof (findNodeById_strip (render readOnlyConfig scenario) "ghost")
      as E.
    rewrite strip_render in E.
    destruct (findNodeById (render readOnlyConfig scenario) "ghost");
      [discriminate E | reflexivity].
Qed.

(** Counterexample to C7 as stated. With editing disabled, deleting the root and
    deleting an id that no node has end alike: failure, and the instance,
    status text included, as it was. *)
Lemma deleteNode_root_silent_when_read_only :
  deleteNode readOnlyDemo (id (fields (treeData readOnlyDemo)))
  = (readOnlyDemo, false)
  /\ findNodeById (treeData readOnlyDemo) "ghost" = None
  /\ deleteNode readOnlyDemo "ghost" = (readOnlyDemo, false).
Proof.
  destruct readOnlyDemo_state as (He & _).
  destruct readOnlyDemo_find_root as (_ & _ & Hg).
  unfold deleteNode. rewrite He. split; [reflexivity|].
  split; [exact Hg | reflexivity].
Qed.

(** C7 (amended). [deleteNode] called with the id of the root returns
    failure and leaves the tree, and every field of the instance but the
    status text, as they were.  With editing enabled and a status element
    present it writes "Cannot delete root node" on it, whereas for an id that
    no node has it returns failure without touching anything, the status
    included; with editing disabled, or without a status element, the root
    is refused without any trace. *)
Theorem deleteNode_root_rejected :
  forall (st : MindMap),
    let rootId := id (fields (treeData st)) in
    snd (deleteNode st rootId) = false
    /\ treeData (fst (deleteNode st rootId)) = treeData st
    /\ with_status (statusEl st) (fst (deleteNode st rootId)) = st
    /\ (editable (config st) = true ->
        statusEl st <> None ->
        statusEl (fst (deleteNode st rootId)) = Some "Cannot delete root node")
    /\ (editable (config st) = false \/ statusEl st = None ->
        deleteNode st rootId = (st, false))
    /\ (forall nodeId,
           findNodeById (treeData st) nodeId = None ->
           deleteNode st nodeId = (st, false)).
Proof.
  intros st rootId. unfold deleteNode.
  repeat split.
  - destruct (negb _); [reflexivity|]. subst rootId.
    now rewrite String.eqb_refl.
  - destruct (negb _); [reflexivity|]. subst rootId.
    rewrite String.eqb_refl. cbn [fst]. apply setStatus_treeData.
  - destruct (negb _); [now destruct st|]. subst rootId.
    rewrite String.eqb_refl. cbn [fst]. unfold setStatus.
    destruct st as [? ? ? ? ? ? ? ? ? ? ? ? ? ? [s|]]; reflexivity.
  - intros He Hs. rewrite He. cbn [negb]. subst rootId.
    rewrite String.eqb_refl. cbn [fst]. rewrite setStatus_statusEl.
    destruct (statusEl st); [reflexivity | contradiction].
  - intros [He|Hs]; [now rewrite He|].
    destruct (negb _); [reflexivity|]. subst rootId.
    rewrite String.eqb_refl. unfold setStatus. now rewrite Hs.
  - intros nodeId Hf. destruct (negb _); [reflexivity|].
    destruct (String.eqb nodeId (id (fields (treeData st)))) eqn:E.
    + apply String.eqb_eq in E. subst nodeId.
      rewrite findNodeById_root in Hf. discriminate.
    + now rewrite (findParentById_none_of_find _ _ Hf).
Qed.



(** ** Generated ids *)

Lemma decimal_inj a b : decimal a = decimal b -> a = b.
Proof.
  unfold decimal. intros H.
  assert (E : N.to_uint a = N.to_uint b).
  { apply (f_equal NilEmpty.uint_of_string) in H.
    rewrite !NilEmpty.usu in H. congruence. }
  apply (f_equal N.of_uint) in E.
  now rewrite !DecimalN.Unsigned.of_to in E.
Qed.

Lemma idOf_inj a b : idOf a = idOf b -> a = b.
Proof.
  unfold idOf. simpl. intros H. injection H as H. now apply decimal_inj.
Qed.

Lemma nextCounter_below c :
  (c < maxExact)%N -> nextCounter c = (c + 1)%N.
Proof.
  intros H. unfold nextCounter. apply N.ltb_lt in H. now rewrite H.
Qed.

Lemma ids_after_add st st' newName :
  Permutation (labels (treeData st'))
              ((idOf (nextCounter (nodeIdCounter st)), newName)
               :: labels (treeData st)) ->
  nodeIdCounter st' = nextCounter (nodeIdCounter st) ->
  (nodeIdCounter st < maxExact)%N ->
  NoDup (ids (treeData st)) -> aheadOfIds st ->
  NoDup (ids (treeData st')) /\ aheadOfIds st'
  /\ ~ In (idOf (nodeIdCounter st')) (ids (treeData st)).
Proof.
  intros Hp Hc Hlt Hnd Hah.
  rewrite (nextCounter_below _ Hlt) in *.
  assert (Hi : Permutation (ids (treeData st'))
                 (idOf (nodeIdCounter st + 1) :: ids (treeData st))).
  { rewrite !ids_labels. apply (Permutation_map fst) in Hp. exact Hp. }
  assert (Hnew : ~ In (idOf (nodeIdCounter st + 1)) (ids (treeData st))).
  { apply Hah. lia. }
  split; [|split].
  - eapply Permutation_NoDup; [symmetry; exact Hi|]. now constructor.
  - intros k Hk Hin. rewrite Hc in Hk.
    apply (Permutation_in _ Hi) in Hin. destruct Hin as [E|Hin].
    + apply idOf_inj in E. lia.
    + apply (Hah k); [lia | exact Hin].
  - now rewrite Hc.
Qed.

Lemma applyOp_keeps_unique st o :
  (nodeIdCounter st < maxExact)%N ->
  NoDup (ids (treeData st)) -> aheadOfIds st ->
  NoDup (ids (treeData (applyOp st o))) /\ aheadOfIds (applyOp st o)
  /\ (nodeIdCounter (applyOp st o) <= nodeIdCounter st + 1)%N.
Proof.
  intros Hlt Hnd Hah.
  destruct (editable (config st)) eqn:He.
  - destruct o as [parentId nm|nodeId nm]; simpl.
    + destruct (findNodeById (treeData st) parentId) as [p|] eqn:Ef.
      * destruct (addChild_done st parentId nm p He Ef)
          as (st' & -> & Hp & Hc & _).
        cbn [fst].
        destruct (ids_after_add st st' _ Hp Hc Hlt Hnd Hah) as (A & B & _).
        repeat split; try assumption.
        rewrite Hc, (nextCounter_below _ Hlt). lia.
      * rewrite addChild_refused by now right.
        cbn [fst]. repeat split; try assumption. lia.
    + destruct (findParentById (treeData st) nodeId) as [p|] eqn:Ef.
      * destruct (addSibling_done st nodeId nm p He Ef)
          as (st' & -> & Hp & Hc & _).
        cbn [fst].
        destruct (ids_after_add st st' _ Hp Hc Hlt Hnd Hah) as (A & B & _).
        repeat split; try assumption.
        rewrite Hc, (nextCounter_below _ Hlt). lia.
      * rewrite addSibling_refused by now right.
        cbn [fst]. repeat split; try assumption. lia.
  - destruct o as [parentId nm|nodeId nm]; simpl.
    + rewrite addChild_refused by now left.
      cbn [fst]. repeat split; try assumption. lia.
    + rewrite addSibling_refused by now left.
      cbn [fst]. repeat split; try assumption. lia.
Qed.

Lemma clashDemo_facts :
  editable (config clashDemo) = true
  /\ nodeIdCounter clashDemo = 1700000000000%N
  /\ ids (treeData clashDemo) = ["root"; "node_1700000000001"].
Proof.
  unfold clashDemo, setData. rewrite setStatus_config, setStatus_counter.
  rewrite setStatus_treeData. cbn [config nodeIdCounter treeData with_tree].
  unfold construct, setData.
  rewrite !setStatus_config, setStatus_counter.
  cbn [config nodeIdCounter with_tree].
  rewrite ids_render, deepClone_id. repeat split.
Qed.

(** Counterexample to C8 as stated. The ids of the initial tree are distinct, but one
    of them is the id the instance generates next: after one [addChild] two
    nodes share it. *)
Lemma addChild_repeats_supplied_id :
  NoDup (ids (treeData clashDemo))
  /\ snd (addChild clashDemo "root" (Some "B")) = true
  /\ ~ NoDup (ids (treeData (run [AddChild "root" (Some "B")] clashDemo))).
Proof.
  destruct clashDemo_facts as (He & Hc & Hi).
  assert (Hf : findNodeById (treeData clashDemo) "root"
               = Some (treeData clashDemo)).
  { rewrite findNodeById_eq.
    assert (E : id (fields (treeData clashDemo)) = "root").
    { change (hd "" (ids (treeData clashDemo)) = "root"). now rewrite Hi. }
    now rewrite E. }
  destruct (addChild_done clashDemo "root" (Some "B") _ He Hf)
    as (st' & Ha & Hp & _).
  split; [|split].
  - rewrite Hi. repeat constructor; simpl; intuition discriminate.
  - now rewrite Ha.
  - unfold run. cbn [fold_left applyOp]. rewrite Ha. cbn [fst]. intros Hnd.
    apply (Permutation_map fst) in Hp. cbn [map fst] in Hp.
    rewrite <- !ids_labels in Hp.
    apply (Permutation_NoDup Hp) in Hnd.
    rewrite Hc, Hi in Hnd.
    apply NoDup_cons_iff in Hnd. destruct Hnd as [Hnin _].
    apply Hnin. right. left. reflexivity.
Qed.

(** Past 2^53 the counter stands still and [generateId] returns the same id
    again and again (no run gets there: [Date.now()] is below 8.64e15). *)
Lemma generateId_repeats_at_2_53 st :
  nodeIdCounter st = maxExact ->
  fst (generateId (snd (generateId st))) = fst (generateId st).
Proof.
  intros H. unfold generateId. cbn [fst snd nodeIdCounter with_counter].
  now rewrite H.
Qed.

(** C8 (amended). If the ids of the tree are distinct, none of them is an id
    the counter has yet to produce (["node_" k] with [k] above the counter),
    and the counter stays within the integers that [++] steps through
    exactly, then after any sequence of [addChild] and [addSibling] calls no
    two nodes share an id. *)
Theorem ids_stay_unique :
  forall (ops : list Op) (st : MindMap),
    NoDup (ids (treeData st)) ->
    (forall k, (nodeIdCounter st < k)%N -> ~ In (idOf k) (ids (treeData st))) ->
    (nodeIdCounter st + N.of_nat (List.length ops) <= maxExact)%N ->
    NoDup (ids (treeData (run ops st))).
Proof.
  induction ops as [|o ops IH]; intros st Hnd Hah Hb; [exact Hnd|].
  unfold run. cbn [fold_left].
  assert (Hlt : (nodeIdCounter st < maxExact)%N).
  { simpl List.length in Hb. lia. }
  destruct (applyOp_keeps_unique st o Hlt Hnd Hah) as (A & B & C).
  apply IH; try assumption.
  simpl List.length in Hb. lia.
Qed.

(** ** Layout: positions *)

Lemma layout_interval cfg n s e d :
  p_start (layout cfg n s e d) = s /\ p_end (layout cfg n s e d) = e
  /\ _leafCount (p_fields (layout cfg n s e d)) = _leafCount (fields n)
  /\ _isLeaf (p_fields (layout cfg n s e d)) = _isLeaf (fields n).
Proof. rewrite layout_eq. repeat split. Qed.

Lemma layout_positioned cfg n s e d : positioned cfg d (layout cfg n s e d).
Proof. rewrite layout_eq. repeat split. Qed.

Lemma layout_children cfg n s e d :
  placedChildren (layout cfg n s e d)
  = layoutChildren cfg (e - s) (leafCountR n) (S d) (childArray n) s.
Proof.
  rewrite layout_eq. unfold placedChildren, childArray. cbn.
  destruct (children n); reflexivity.
Qed.

Lemma in_layoutChildren cfg total k depth l :
  forall angle p,
    In p (layoutChildren cfg total k depth l angle) ->
    exists c a b, In c l /\ p = layout cfg c a b depth.
Proof.
  induction l as [|c l IH]; intros angle p; simpl; [contradiction|].
  intros [<-|H].
  - exists c. do 2 eexists. split; [now left | reflexivity].
  - destruct (IH _ _ H) as (c' & a & b & Hin & E).
    exists c', a, b. split; [now right | exact E].
Qed.

Lemma placedAt_layout cfg n :
  forall s e d k p,
    In p (placedAt k (layout cfg n s e d)) -> positioned cfg (d + k) p.
Proof.
  induction n as [f|f cs IH] using Node_rect_children; intros s e d k p;
    (destruct k as [|k]; cbn [placedAt];
     [intros [<-|[]]; rewrite Nat.add_0_r; apply layout_positioned|]);
    rewrite layout_children; unfold childArray; cbn [children];
    [contradiction|].
  rewrite in_flat_map. intros (q & Hq & Hp).
  destruct (in_layoutChildren _ _ _ _ _ _ _ Hq) as (c & a & b & Hc & ->).
  rewrite Forall_forall in IH.
  replace (d + S k)%nat with (S d + k)%nat by lia.
  exact (IH c Hc a b (S d) k p Hp).
Qed.

Lemma layoutRoot_children cfg root :
  placedChildren (layoutRoot cfg root)
  = layoutChildren cfg (rootEnd - rootStart) (leafCountR root) 1
                   (childArray root) rootStart.
Proof.
  unfold layoutRoot, placedChildren, childArray.
  destruct (children root); reflexivity.
Qed.

(** The placed nodes at distance [d] are the nodes of the rendered tree at
    that distance, one for each node of the tree given, in the same order
    and with the same id, name and children. *)
Lemma childArray_strip n : childArray (strip n) = map strip (childArray n).
Proof. destruct n as [f [cs|]]; reflexivity. Qed.

Lemma childArray_erase p : childArray (erase p) = map erase (placedChildren p).
Proof. destruct p as [f s e [ps|]]; reflexivity. Qed.

Lemma nodesAt_strip d : forall n, nodesAt d (strip n) = map strip (nodesAt d n).
Proof.
  induction d as [|d IH]; intros n; [reflexivity|].
  cbn [nodesAt]. rewrite childArray_strip.
  induction (childArray n) as [|c cs IHcs]; simpl; [reflexivity|].
  now rewrite map_app, IH, IHcs.
Qed.

Lemma nodesAt_erase d :
  forall p, nodesAt d (erase p) = map erase (placedAt d p).
Proof.
  induction d as [|d IH]; intros p; [reflexivity|].
  cbn [nodesAt placedAt]. rewrite childArray_erase.
  induction (placedChildren p) as [|c cs IHcs]; simpl; [reflexivity|].
  now rewrite map_app, IH, IHcs.
Qed.

Lemma nodesAt_render cfg tree d :
  map strip (nodesAt d (render cfg tree)) = map strip (nodesAt d tree).
Proof. now rewrite <- !nodesAt_strip, strip_render. Qed.

Lemma placedAt_follows_tree cfg tree d :
  map (fun p => strip (erase p)) (placedAt d (renderPlaced cfg tree))
  = map strip (nodesAt d tree).
Proof.
  rewrite <- (map_map erase strip), <- nodesAt_erase.
  exact (nodesAt_render cfg tree d).
Qed.

Lemma preorder_nodesAt t :
  forall n, In n (preorder t) -> exists d, In n (nodesAt d t).
Proof.
  induction t as [f|f cs IH] using Node_rect_children; intros n;
    rewrite preorder_eq; unfold childArray; cbn [children flat_map].
  - intros [<-|[]]. exists 0%nat. now left.
  - intros [<-|H]; [exists 0%nat; now left|].
    apply in_flat_map in H. destruct H as (c & Hc & Hn).
    rewrite Forall_forall in IH. destruct (IH c Hc n Hn) as [d Hd].
    exists (S d). cbn [nodesAt]. apply in_flat_map. now exists c.
Qed.

Lemma in_map_matched {A B C} (f : A -> C) (g : B -> C) l l' :
  map f l = map g l' ->
  forall n, In n l' -> exists p, In p l /\ f p = g n.
Proof.
  intros E n Hn. apply (in_map g) in Hn. rewrite <- E in Hn.
  apply in_map_iff in Hn. destruct Hn as (p & Hp & Hin). now exists p.
Qed.

Lemma placedAt_positioned cfg tree d p :
  In p (placedAt d (renderPlaced cfg tree)) ->
  match d with
  | O =>
      p = renderPlaced cfg tree
      /\ _x (p_fields p) = Some (width cfg / 2)
      /\ _y (p_fields p) = Some (height cfg / 2)
      /\ _depth (p_fields p) = Some 0%nat
  | S _ => positioned cfg d p
  end.
Proof.
  destruct d as [|k]; cbn [placedAt].
  - intros [<-|[]]. unfold renderPlaced, layoutRoot.
    destruct (children (annotate tree)); repeat split.
  - unfold renderPlaced. rewrite layoutRoot_children, in_flat_map.
    intros (q & Hq & Hp).
    destruct (in_layoutChildren _ _ _ _ _ _ _ Hq) as (c & a & b & _ & ->).
    exact (placedAt_layout cfg c a b 1 k p Hp).
Qed.

(** C2. In the layout of a rendered tree every node of the tree lies at
    some distance [d] from the root, and the nodes placed at distance [d]
    are the nodes of the rendered tree at that distance: one for each node
    of the tree given, in the same order, with the same id, name and
    children.  A node placed at distance [d >= 1] has for angle the
    midpoint of the interval it was given, for depth [d], and for position
    the centre of the canvas plus [d * radiusStep] times (cos angle, sin
    angle); the root (distance 0) has depth 0 and sits on the centre of the
    canvas. *)
Theorem layout_positions_nodes :
  forall (cfg : Config) (tree : Node),
    (forall n, In n (preorder tree) -> exists d, In n (nodesAt d tree))
    /\ forall (d : nat),
         map erase (placedAt d (renderPlaced cfg tree))
         = nodesAt d (render cfg tree)
         /\ map (fun p => strip (erase p)) (placedAt d (renderPlaced cfg tree))
            = map strip (nodesAt d tree)
         /\ (forall n,
                In n (nodesAt d tree) ->
                exists p,
                  In p (placedAt d (renderPlaced cfg tree))
                  /\ strip (erase p) = strip n)
         /\ forall p,
              In p (placedAt d (renderPlaced cfg tree)) ->
              match d with
              | O =>
                  p = renderPlaced cfg tree
                  /\ _x (p_fields p) = Some (width cfg / 2)
                  /\ _y (p_fields p) = Some (height cfg / 2)
                  /\ _depth (p_fields p) = Some 0%nat
              | S _ =>
                  let angle := (p_start p + p_end p) / 2 in
                  let radius := INR d * radiusStep cfg in
                  _angle (p_fields p) = Some angle
                  /\ _depth (p_fields p) = Some d
                  /\ _x (p_fields p) = Some (width cfg / 2 + radius * cos angle)
                  /\ _y (p_fields p) = Some (height cfg / 2 + radius * sin angle)
              end.
Proof.
  intros cfg tree. split; [apply preorder_nodesAt|]. intros d.
  split; [symmetry; exact (nodesAt_erase d (renderPlaced cfg tree))|].
  split; [apply placedAt_follows_tree|].
  split.
  - exact (in_map_matched _ _ _ _ (placedAt_follows_tree cfg tree d)).
  - intros p Hp. pose proof (placedAt_positioned cfg tree d p Hp) as H.
    destruct d; exact H.
Qed.

(** Every placed node lies at some distance from the root, and the node
    objects of the rendered tree are the placed nodes. *)
Lemma placedNodes_eq p :
  placedNodes p = p :: flat_map placedNodes (placedChildren p).
Proof. destruct p as [f s e [ps|]]; reflexivity. Qed.

Lemma placedNodes_placedAt p :
  forall q, In q (placedNodes p) -> exists d, In q (placedAt d p).
Proof.
  assert (H : forall n (p : Placed) q,
             (List.length (placedNodes p) <= n)%nat ->
             In q (placedNodes p) -> exists d, In q (placedAt d p)).
  { induction n as [|n IH]; intros p0 q Hn;
      rewrite placedNodes_eq in *; simpl in Hn; [lia|].
    intros [<-|Hq]; [exists 0%nat; now left|].
    apply in_flat_map in Hq. destruct Hq as (c & Hc & Hq).
    assert (Hl : (List.length (placedNodes c) <= n)%nat).
    { apply le_S_n in Hn. revert Hn Hc. clear.
      induction (placedChildren p0) as [|x l IHl]; simpl; [contradiction|].
      rewrite length_app. intros Hn [->|Hc]; [lia|]. apply IHl; [lia|exact Hc]. }
    destruct (IH c q Hl Hq) as (d & Hd).
    exists (S d). simpl. apply in_flat_map. now exists c. }
  intros q. now apply (H (List.length (placedNodes p))).
Qed.

Lemma preorder_erase p : preorder (erase p) = map erase (placedNodes p).
Proof.
  assert (H : forall n (p : Placed),
             (List.length (placedNodes p) <= n)%nat ->
             preorder (erase p) = map erase (placedNodes p)).
  { induction n as [|n IH]; intros p0 Hn;
      rewrite preorder_eq, placedNodes_eq in *; simpl in Hn; [lia|].
    simpl. f_equal.
    assert (E : childArray (erase p0) = map erase (placedChildren p0)).
    { destruct p0 as [f s e [ps|]]; reflexivity. }
    rewrite E. apply le_S_n in Hn. revert Hn. clear -IH.
    induction (placedChildren p0) as [|x l IHl]; simpl; [reflexivity|].
    rewrite length_app, map_app. intros Hn.
    rewrite IH by lia. now rewrite IHl by lia. }
  now apply (H (List.length (placedNodes p))).
Qed.

(** ** Layout: the fields left on the nodes *)

Lemma annotate_leafCount n :
  _leafCount (fields (annotate n)) = Some (leafCountOf n)
  /\ _isLeaf (fields (annotate n)) <> None.
Proof.
  rewrite annotate_eq, leafCountOf_eq.
  destruct (children n) as [[|c cs]|]; split; cbn; congruence.
Qed.

Lemma annotate_children n :
  childArray (annotate n) = map annotate (childArray n).
Proof.
  rewrite annotate_eq. unfold childArray.
  destruct (children n) as [[|c cs]|]; reflexivity.
Qed.

Lemma annotate_counted n : Forall counted (preorder (annotate n)).
Proof.
  induction n as [f|f cs IH] using Node_rect_children;
    rewrite preorder_eq; constructor;
    try (destruct (annotate_leafCount (mkNode f None)) as [E ?]; split;
         [rewrite E; discriminate | assumption]);
    try (destruct (annotate_leafCount (mkNode f (Some cs))) as [E ?]; split;
         [rewrite E; discriminate | assumption]);
    rewrite annotate_children; unfold childArray; cbn [children];
    [constructor|].
  induction IH as [|c cs Hc _ IHcs]; simpl; [constructor|].
  apply Forall_app. split; assumption.
Qed.

Lemma layout_hasLayoutFields cfg n :
  Forall counted (preorder n) ->
  forall s e d,
    Forall (fun p => hasLayoutFields (p_fields p))
           (placedNodes (layout cfg n s e d)).
Proof.
  induction n as [f|f cs IH] using Node_rect_children; intros Hn s e d;
    rewrite placedNodes_eq; rewrite preorder_eq in Hn;
    apply Forall_cons_iff in Hn; destruct Hn as [[H1 H2] Hcs];
    (constructor;
     [rewrite layout_eq; repeat split; cbn; try discriminate; assumption|]);
    rewrite layout_children; unfold childArray in *; cbn [children] in *;
    [constructor|].
  apply Forall_forall. intros q Hq. apply in_flat_map in Hq.
  destruct Hq as (x & Hx & Hq).
  destruct (in_layoutChildren _ _ _ _ _ _ _ Hx) as (c & a & b & Hc & ->).
  rewrite Forall_forall in IH.
  assert (Hcc : Forall counted (preorder c)).
  { apply Forall_forall. intros m Hm. rewrite Forall_forall in Hcs.
    apply Hcs. apply in_flat_map. now exists c. }
  pose proof (IH c Hc Hcc a b (S d)) as HF.
  rewrite Forall_forall in HF. now apply HF.
Qed.

Lemma renderPlaced_hasLayoutFields cfg t :
  Forall (fun p => hasLayoutFields (p_fields p)) (placedNodes (renderPlaced cfg t))
  /\ _isRoot (p_fields (renderPlaced cfg t)) = Some true
  /\ _leafCount (p_fields (renderPlaced cfg t)) = Some (leafCountOf t).
Proof.
  unfold renderPlaced.
  pose proof (annotate_counted t) as Hc.
  destruct (annotate_leafCount t) as [El Hl].
  split; [|split].
  - rewrite placedNodes_eq. rewrite preorder_eq in Hc.
    apply Forall_cons_iff in Hc. destruct Hc as [[H1 H2] Hcs].
    constructor.
    + unfold layoutRoot. destruct (children (annotate t));
        repeat split; cbn; try discriminate; assumption.
    + rewrite layoutRoot_children.
      apply Forall_forall. intros q Hq. apply in_flat_map in Hq.
      destruct Hq as (x & Hx & Hq).
      destruct (in_layoutChildren _ _ _ _ _ _ _ Hx) as (c & a & b & Hin & ->).
      assert (Hcc : Forall counted (preorder c)).
      { apply Forall_forall. intros m Hm. rewrite Forall_forall in Hcs.
        apply Hcs. apply in_flat_map. now exists c. }
      pose proof (layout_hasLayoutFields cfg c Hcc a b 1%nat) as HF.
      rewrite Forall_forall in HF. now apply HF.
  - unfold layoutRoot. destruct (children (annotate t)); reflexivity.
  - rewrite <- El. unfold layoutRoot.
    destruct (children (annotate t)); reflexivity.
Qed.

Lemma erase_fields p : fields (erase p) = p_fields p.
Proof. destruct p; reflexivity. Qed.

Lemma getData_eq st : getData st = treeData st.
Proof. unfold getData. apply deepClone_id. Qed.

(** Counterexample to C5 as stated. After [setData], the root of the tree that
    [getData] returns carries [_leafCount] and [_isRoot]: the copy is not
    reduced to [id], [name] and [children]. *)
Lemma getData_returns_layout_fields :
  _leafCount (fields (getData demo)) = Some 2%nat
  /\ _isRoot (fields (getData demo)) = Some true
  /\ getData demo <> strip (getData demo).
Proof.
  rewrite getData_eq, demo_treeData. unfold render.
  destruct (renderPlaced_hasLayoutFields defaultConfig scenario)
    as (_ & Hr & Hl).
  rewrite erase_fields. repeat split; try assumption.
  intros E. apply (f_equal (fun n => _isRoot (fields n))) in E.
  rewrite erase_fields, Hr in E.
  destruct (erase (renderPlaced defaultConfig scenario)) as [[] ?].
  discriminate.
Qed.

(** C5 (amended). For a tree that has been rendered, [getData] returns a copy
    of the live tree as it is: [id], [name] and [children] of every node are
    those of the tree that was rendered, and every node of the copy still
    carries [_leafCount], [_isLeaf], [_x], [_y], [_angle] and [_depth], the
    root also [_isRoot]. *)
Theorem getData_copies_live_tree :
  forall (st : MindMap) (cfg : Config) (t : Node),
    treeData st = render cfg t ->
    getData st = treeData st
    /\ strip (getData st) = strip t
    /\ Forall (fun n => hasLayoutFields (fields n)) (preorder (getData st))
    /\ _isRoot (fields (getData st)) = Some true.
Proof.
  intros st cfg t H. rewrite getData_eq, H.
  destruct (renderPlaced_hasLayoutFields cfg t) as (HF & Hr & _).
  repeat split.
  - apply strip_render.
  - unfold render. rewrite preorder_erase. apply Forall_map.
    eapply Forall_impl; [|exact HF]. intros p Hp. now rewrite erase_fields.
  - unfold render. now rewrite erase_fields.
Qed.

(** ** Layout: the angular partition *)

Lemma leafCountOf_pos n : (1 <= leafCountOf n)%nat.
Proof.
  induction n as [f|f cs IH] using Node_rect_children;
    rewrite leafCountOf_eq; cbn [children]; [lia|].
  destruct cs as [|c cs]; [lia|].
  apply Forall_inv in IH. simpl. lia.
Qed.

Lemma leafCountR_annotate n : leafCountR (annotate n) = INR (leafCountOf n).
Proof.
  unfold leafCountR. destruct (annotate_leafCount n) as [-> _]. reflexivity.
Qed.

Lemma leafCountR_annotate_pos n : 0 < leafCountR (annotate n).
Proof.
  rewrite leafCountR_annotate. apply lt_0_INR. pose proof (leafCountOf_pos n). lia.
Qed.

Lemma sumLeafR_annotate cs :
  sumLeafR (map annotate cs) = INR (list_sum (map leafCountOf cs)).
Proof.
  induction cs as [|c cs IH]; simpl; [reflexivity|].
  now rewrite IH, leafCountR_annotate, plus_INR.
Qed.

Lemma leafR_layout cfg n s e d : leafR (layout cfg n s e d) = leafCountR n.
Proof.
  unfold leafR, leafCountR.
  destruct (layout_interval cfg n s e d) as (_ & _ & -> & _). reflexivity.
Qed.

Lemma layoutChildren_chain cfg total k depth l :
  0 < total -> 0 < k -> Forall (fun c => 0 < leafCountR c) l ->
  forall angle,
    let ps := layoutChildren cfg total k depth l angle in
    chain angle ps (angle + total * (sumLeafR l / k))
    /\ Forall (fun p => widthOf p = total * (leafR p / k)) ps
    /\ sumWidths ps = total * (sumLeafR l / k).
Proof.
  intros Ht Hk Hl. induction Hl as [|c l Hc _ IH]; intros angle; cbn.
  - repeat split; [|constructor|]; unfold Rdiv; lra.
  - destruct (IH (angle + total * (leafCountR c / k))) as (C & W & S).
    destruct (layout_interval cfg c angle (angle + total * (leafCountR c / k))
                depth) as (Es & Ee & _).
    assert (Hspan : 0 < total * (leafCountR c / k)).
    { apply Rmult_lt_0_compat; [exact Ht|].
      apply Rdiv_lt_0_compat; assumption. }
    assert (Hw : widthOf (layout cfg c angle
                            (angle + total * (leafCountR c / k)) depth)
                 = total * (leafCountR c / k)).
    { unfold widthOf. rewrite Es, Ee. lra. }
    repeat split.
    + exact Es.
    + rewrite Es, Ee. lra.
    + rewrite Ee.
      replace (angle + total * ((leafCountR c + sumLeafR l) / k))
        with (angle + total * (leafCountR c / k) + total * (sumLeafR l / k))
        by (field; lra).
      exact C.
    + constructor; [|exact W]. now rewrite Hw, leafR_layout.
    + rewrite Hw, S. field. lra.
Qed.

Lemma in_layoutChildren_lt cfg total k depth l :
  0 < total -> 0 < k -> Forall (fun c => 0 < leafCountR c) l ->
  forall angle p,
    In p (layoutChildren cfg total k depth l angle) ->
    exists c a b, In c l /\ a < b /\ p = layout cfg c a b depth.
Proof.
  intros Ht Hk Hl. induction Hl as [|c l Hc _ IH]; intros angle p; simpl;
    [contradiction|].
  intros [<-|H].
  - exists c. do 2 eexists. split; [now left|]. split; [|reflexivity].
    assert (0 < total * (leafCountR c / k)); [|lra].
    apply Rmult_lt_0_compat; [exact Ht|]. apply Rdiv_lt_0_compat; assumption.
  - destruct (IH _ _ H) as (c' & a & b & Hin & Hab & E).
    exists c', a, b. split; [now right | split; assumption].
Qed.

Lemma annotated_children_pos n :
  Forall (fun c => 0 < leafCountR c) (childArray (annotate n)).
Proof.
  rewrite annotate_children. apply Forall_forall. intros c Hc.
  apply in_map_iff in Hc. destruct Hc as (c0 & <- & _).
  apply leafCountR_annotate_pos.
Qed.

Lemma annotated_children_sum n :
  childArray n <> [] ->
  sumLeafR (childArray (annotate n)) = leafCountR (annotate n).
Proof.
  intros Hne. rewrite annotate_children, sumLeafR_annotate, leafCountR_annotate.
  rewrite leafCountOf_eq. unfold childArray in *.
  destruct (children n) as [[|c cs]|]; try contradiction. reflexivity.
Qed.

(** The loop over the children of an annotated node shares out its interval. *)
Lemma children_partition cfg n s e depth :
  s < e -> childArray n <> [] ->
  let k := leafCountR (annotate n) in
  let ps := layoutChildren cfg (e - s) k depth (childArray (annotate n)) s in
  chain s ps e
  /\ Forall (fun q => widthOf q = (e - s) * (leafR q / k)) ps
  /\ sumWidths ps = e - s.
Proof.
  intros Hse Hne k ps.
  assert (Hk : 0 < k) by apply leafCountR_annotate_pos.
  assert (Ht : 0 < e - s) by lra.
  destruct (layoutChildren_chain cfg (e - s) k depth (childArray (annotate n))
              Ht Hk (annotated_children_pos n) s) as (C & W & S).
  fold ps in C, W, S.
  rewrite (annotated_children_sum n Hne) in C, S. fold k in C, S.
  replace (s + (e - s) * (k / k)) with e in C by (field; lra).
  replace ((e - s) * (k / k)) with (e - s) in S by (field; lra).
  repeat split; assumption.
Qed.

Lemma layoutChildren_nil cfg total k depth l angle :
  layoutChildren cfg total k depth l angle <> [] -> l <> [].
Proof. destruct l; [now intros [] | discriminate]. Qed.

Lemma layout_partitioned_here cfg n s e d :
  s < e -> partitioned (layout cfg (annotate n) s e d).
Proof.
  intros Hse cs Hcs Hne.
  destruct (layout_interval cfg (annotate n) s e d) as (Es & Ee & _).
  unfold widthOf at 2 3. rewrite Es, Ee, leafR_layout.
  assert (E : cs = layoutChildren cfg (e - s) (leafCountR (annotate n)) (S d)
                     (childArray (annotate n)) s).
  { rewrite <- layout_children. unfold placedChildren. now rewrite Hcs. }
  subst cs. apply children_partition; [exact Hse|].
  apply layoutChildren_nil in Hne. rewrite annotate_children in Hne.
  now destruct (childArray n).
Qed.

Lemma layout_partitioned cfg n :
  forall s e d,
    s < e -> Forall partitioned (placedNodes (layout cfg (annotate n) s e d)).
Proof.
  induction n as [f|f cs IH] using Node_rect_children; intros s e d Hse;
    rewrite placedNodes_eq; (constructor; [now apply layout_partitioned_here|]);
    rewrite layout_children, annotate_children; unfold childArray;
    cbn [children]; [constructor|].
  apply Forall_forall. intros q Hq. apply in_flat_map in Hq.
  destruct Hq as (x & Hx & Hq).
  pose proof (annotated_children_pos (mkNode f (Some cs))) as Hpos.
  rewrite annotate_children in Hpos. unfold childArray in Hpos.
  cbn [children] in Hpos.
  assert (Ht : 0 < e - s) by lra.
  destruct (in_layoutChildren_lt cfg _ _ _ _ Ht
              (leafCountR_annotate_pos _) Hpos _ _ Hx)
    as (c & a & b & Hc & Hab & ->).
  apply in_map_iff in Hc. destruct Hc as (c0 & <- & Hc0).
  rewrite Forall_forall in IH.
  pose proof (IH c0 Hc0 a b (S d) Hab) as HF.
  rewrite Forall_forall in HF. now apply HF.
Qed.

Lemma root_sweep : rootStart < rootEnd.
Proof. unfold rootStart, rootEnd, gap. pose proof PI2_1. lra. Qed.

Lemma renderPlaced_partitioned cfg tree :
  Forall partitioned (placedNodes (renderPlaced cfg tree)).
Proof.
  unfold renderPlaced. rewrite placedNodes_eq. constructor.
  - intros cs Hcs Hne.
    assert (E : cs = layoutChildren cfg (rootEnd - rootStart)
                       (leafCountR (annotate tree)) 1
                       (childArray (annotate tree)) rootStart).
    { rewrite <- layoutRoot_children. unfold placedChildren. now rewrite Hcs. }
    assert (I : p_start (layoutRoot cfg (annotate tree)) = rootStart
                /\ p_end (layoutRoot cfg (annotate tree)) = rootEnd
                /\ leafR (layoutRoot cfg (annotate tree))
                   = leafCountR (annotate tree)).
    { unfold layoutRoot, leafR, leafCountR.
      destruct (children (annotate tree)); repeat split. }
    destruct I as (Es & Ee & El). unfold widthOf at 2 3. rewrite Es, Ee, El.
    subst cs. apply children_partition; [exact root_sweep|].
    apply layoutChildren_nil in Hne. rewrite annotate_children in Hne.
    now destruct (childArray tree).
  - rewrite layoutRoot_children, annotate_children.
    apply Forall_forall. intros q Hq. apply in_flat_map in Hq.
    destruct Hq as (x & Hx & Hq).
    pose proof (annotated_children_pos tree) as Hpos.
    rewrite annotate_children in Hpos.
    assert (Ht : 0 < rootEnd - rootStart) by (pose proof root_sweep; lra).
    destruct (in_layoutChildren_lt cfg _ _ _ _ Ht
                (leafCountR_annotate_pos _) Hpos _ _ Hx)
      as (c & a & b & Hc & Hab & ->).
    apply in_map_iff in Hc. destruct Hc as (c0 & <- & Hc0).
    pose proof (layout_partitioned cfg c0 a b 1%nat Hab) as HF.
    rewrite Forall_forall in HF. now apply HF.
Qed.

Lemma chain_le a l b : chain a l b -> a <= b.
Proof.
  revert a. induction l as [|c l IH]; intros a; simpl.
  - intros ->. lra.
  - intros (Hs & Hlt & Hc). apply IH in Hc. lra.
Qed.

Lemma chain_app a l1 l2 b :
  chain a (l1 ++ l2)%list b -> exists m, chain a l1 m /\ chain m l2 b.
Proof.
  revert a. induction l1 as [|c l1 IH]; intros a; simpl.
  - intros H. now exists a.
  - intros (Hs & Hlt & Hc). destruct (IH _ Hc) as (m & H1 & H2).
    exists m. repeat split; assumption.
Qed.

(** In a chain, an interval ends before any later one starts. *)
Lemma chain_ordered a l b :
  chain a l b ->
  forall l1 c1 l2 c2 l3,
    l = (l1 ++ c1 :: l2 ++ c2 :: l3)%list -> p_end c1 <= p_start c2.
Proof.
  intros H l1 c1 l2 c2 l3 ->.
  apply chain_app in H. destruct H as (m & _ & H).
  simpl in H. destruct H as (_ & _ & H).
  apply chain_app in H. destruct H as (m' & H1 & H2).
  simpl in H2. destruct H2 as (-> & _). now apply chain_le in H1.
Qed.

Lemma preorder_annotate n : preorder (annotate n) = map annotate (preorder n).
Proof.
  induction n as [f|f cs IH] using Node_rect_children;
    rewrite (preorder_eq (annotate _)), preorder_eq, annotate_children;
    unfold childArray; cbn [children map flat_map]; [reflexivity|].
  f_equal. induction IH as [|c cs Hc _ IHcs]; simpl; [reflexivity|].
  now rewrite map_app, Hc, IHcs.
Qed.

Lemma childless_annotate n : childless (annotate n) = childless n.
Proof.
  unfold childless. rewrite annotate_children. now destruct (childArray n).
Qed.

Lemma leafNodes_eq n :
  leafNodes n = if childless n then [n] else flat_map leafNodes (childArray n).
Proof.
  unfold leafNodes. rewrite preorder_eq. cbn [filter].
  destruct (childless n) eqn:E.
  - unfold childless in E. destruct (childArray n); [reflexivity | discriminate].
  - induction (childArray n) as [|c cs IH]; simpl; [reflexivity|].
    now rewrite filter_app, IH.
Qed.

Lemma leafCountOf_leafNodes n : leafCountOf n = List.length (leafNodes n).
Proof.
  induction n as [f|f cs IH] using Node_rect_children;
    rewrite leafCountOf_eq, leafNodes_eq; unfold childless, childArray;
    cbn [children]; [reflexivity|].
  destruct cs as [|c cs]; [reflexivity|].
  induction IH as [|x l Hx _ IHl]; simpl; [reflexivity|].
  rewrite length_app, <- Hx. f_equal. exact IHl.
Qed.

Lemma leafNodes_annotate_length n :
  List.length (leafNodes (annotate n)) = List.length (leafNodes n).
Proof.
  unfold leafNodes. rewrite preorder_annotate.
  induction (preorder n) as [|x l IH]; simpl; [reflexivity|].
  rewrite childless_annotate. destruct (childless x); simpl; now rewrite IH.
Qed.

(** The placed nodes are the nodes of the rendered tree, one for each node
    of the tree given, in pre-order, with the same id, name and children;
    the leaf count each carries is the number of childless nodes below
    it. *)
Lemma preorder_strip n : preorder (strip n) = map strip (preorder n).
Proof.
  induction n as [f|f cs IH] using Node_rect_children;
    rewrite (preorder_eq (strip _)), preorder_eq, childArray_strip;
    unfold childArray; cbn [children map flat_map]; [reflexivity|].
  f_equal. induction IH as [|c cs Hc _ IHcs]; simpl; [reflexivity|].
  now rewrite map_app, Hc, IHcs.
Qed.

Lemma placedNodes_follow_tree cfg tree :
  map (fun p => strip (erase p)) (placedNodes (renderPlaced cfg tree))
  = map strip (preorder tree).
Proof.
  rewrite <- (map_map erase strip), <- preorder_erase.
  fold (render cfg tree). rewrite <- !preorder_strip.
  now rewrite strip_render.
Qed.

Lemma childless_strip n : childless (strip n) = childless n.
Proof.
  unfold childless. rewrite childArray_strip. now destruct (childArray n).
Qed.

Lemma leafNodes_strip_length n :
  List.length (leafNodes (strip n)) = List.length (leafNodes n).
Proof.
  unfold leafNodes. rewrite preorder_strip.
  induction (preorder n) as [|x l IH]; simpl; [reflexivity|].
  rewrite childless_strip. destruct (childless x); simpl; now rewrite IH.
Qed.

Lemma leafNodes_same_shape a b :
  strip a = strip b -> List.length (leafNodes a) = List.length (leafNodes b).
Proof.
  intros E. now rewrite <- (leafNodes_strip_length a), E, leafNodes_strip_length.
Qed.

Lemma placedNodes_layout_inv cfg n :
  forall s e d q,
    In q (placedNodes (layout cfg n s e d)) ->
    exists m a b k, In m (preorder n) /\ q = layout cfg m a b k.
Proof.
  induction n as [f|f cs IH] using Node_rect_children; intros s e d q;
    rewrite placedNodes_eq, layout_children, preorder_eq;
    unfold childArray; cbn [children].
  - intros [<-|[]]. exists (mkNode f None), s, e, d.
    split; [now left | reflexivity].
  - intros [<-|H].
    + exists (mkNode f (Some cs)), s, e, d. split; [now left | reflexivity].
    + apply in_flat_map in H. destruct H as (x & Hx & Hq).
      destruct (in_layoutChildren _ _ _ _ _ _ _ Hx) as (c & a & b & Hc & ->).
      rewrite Forall_forall in IH.
      destruct (IH c Hc a b (S d) q Hq) as (m & a' & b' & k & Hm & ->).
      exists m, a', b', k. split; [|reflexivity].
      right. apply in_flat_map. now exists c.
Qed.

Lemma leafR_placed cfg tree q :
  In q (placedNodes (renderPlaced cfg tree)) ->
  leafR q = INR (List.length (leafNodes (erase q))).
Proof.
  assert (Hl : forall m a b k,
             leafR (layout cfg (annotate m) a b k)
             = INR (List.length
                      (leafNodes (erase (layout cfg (annotate m) a b k))))).
  { intros m a b k.
    rewrite leafR_layout, leafCountR_annotate, leafCountOf_leafNodes.
    f_equal. rewrite <- (leafNodes_annotate_length m).
    apply leafNodes_same_shape. symmetry. apply strip_layout. }
  unfold renderPlaced. rewrite placedNodes_eq. intros [<-|H].
  - assert (E : leafR (layoutRoot cfg (annotate tree))
                = leafCountR (annotate tree)).
    { unfold layoutRoot, leafR, leafCountR.
      destruct (children (annotate tree)); reflexivity. }
    rewrite E, leafCountR_annotate, leafCountOf_leafNodes. f_equal.
    apply leafNodes_same_shape.
    now rewrite strip_layoutRoot, strip_annotate.
  - rewrite layoutRoot_children, annotate_children in H.
    apply in_flat_map in H. destruct H as (x & Hx & Hq).
    destruct (in_layoutChildren _ _ _ _ _ _ _ Hx) as (c & a & b & Hc & ->).
    apply in_map_iff in Hc. destruct Hc as (c0 & <- & _).
    destruct (placedNodes_layout_inv _ _ _ _ _ _ Hq)
      as (m & a' & b' & k & Hm & ->).
    rewrite preorder_annotate in Hm. apply in_map_iff in Hm.
    destruct Hm as (m0 & <- & _). apply Hl.
Qed.

Lemma placed_children_of_node p n :
  strip (erase p) = strip n -> childArray n <> [] ->
  exists cs, p_children p = Some cs /\ cs <> [].
Proof.
  intros E Hn.
  assert (Hc : map strip (map erase (placedChildren p))
               = map strip (childArray n)).
  { now rewrite <- childArray_erase, <- !childArray_strip, E. }
  unfold placedChildren in Hc. destruct (p_children p) as [cs|].
  - exists cs. split; [reflexivity|]. intros ->.
    destruct (childArray n); [now apply Hn | discriminate].
  - destruct (childArray n); [now contradiction Hn | discriminate].
Qed.

(** C1. The layout of a rendered tree places every node of the tree: the
    placed nodes are the nodes of the rendered tree, one for each node of the
    tree given, in pre-order, with the same id, name and children, and the
    leaf count of each is the number of childless nodes of its subtree.  The
    children of every node that has some are placed, in the order of the
    child array, on intervals that start at the start of the parent's
    interval, each start where the one before ends, are non-empty, and end at
    the end of the parent's interval (so an earlier one ends before a later
    one starts); each has for width the parent's width times child leaf
    count over parent leaf count, and the widths add up to the parent's
    width (exactly, in real arithmetic). *)
Theorem layout_partitions_angles :
  forall (cfg : Config) (tree : Node),
    map erase (placedNodes (renderPlaced cfg tree)) = preorder (render cfg tree)
    /\ map (fun p => strip (erase p)) (placedNodes (renderPlaced cfg tree))
       = map strip (preorder tree)
    /\ (forall n,
           In n (preorder tree) -> childArray n <> [] ->
           exists p cs,
             In p (placedNodes (renderPlaced cfg tree))
             /\ strip (erase p) = strip n
             /\ p_children p = Some cs /\ cs <> [])
    /\ forall p,
         In p (placedNodes (renderPlaced cfg tree)) ->
         leafR p = INR (List.length (leafNodes (erase p)))
         /\ forall cs,
              p_children p = Some cs ->
              cs <> [] ->
              map erase cs = childArray (erase p)
              /\ chain (p_start p) cs (p_end p)
              /\ (forall l1 c1 l2 c2 l3,
                     cs = (l1 ++ c1 :: l2 ++ c2 :: l3)%list ->
                     p_end c1 <= p_start c2)
              /\ Forall (fun c => widthOf c = widthOf p * (leafR c / leafR p)) cs
              /\ sumWidths cs = widthOf p.
Proof.
  intros cfg tree.
  split; [symmetry; exact (preorder_erase (renderPlaced cfg tree))|].
  split; [apply placedNodes_follow_tree|].
  split.
  - intros n Hn Hne.
    destruct (in_map_matched _ _ _ _ (placedNodes_follow_tree cfg tree) n Hn)
      as (p & Hp & E).
    destruct (placed_children_of_node p n E Hne) as (cs & Hcs & Hc).
    now exists p, cs.
  - intros p Hp. split; [now apply (leafR_placed cfg tree)|].
    intros cs Hcs Hne.
    pose proof (renderPlaced_partitioned cfg tree) as HF.
    rewrite Forall_forall in HF.
    destruct (HF p Hp cs Hcs Hne) as (C & W & S).
    split.
    { rewrite childArray_erase. unfold placedChildren. now rewrite Hcs. }
    repeat split; try assumption.
    exact (chain_ordered _ _ _ C).
Qed.

(** ** The scenarios, and instances of the theorems *)

Lemma demo_state :
  config demo = defaultConfig
  /\ zoom demo = 1 /\ offsetX demo = 0 /\ offsetY demo = 0
  /\ isEditing demo = false
  /\ nodeIdCounter demo = 1700000000000%N
  /\ statusEl demo = Some "Data loaded successfully".
Proof. repeat split. Qed.

Lemma demo_ids : ids (treeData demo) = ["root"; "a"; "b"; "b1"].
Proof. rewrite demo_treeData, ids_render. reflexivity. Qed.

(** Scenario: leaf counts root = 2, a = 1, b = 1, b1 = 1. *)
Example scenario_leaf_counts :
  map (fun n => _leafCount (fields n)) (preorder (annotate scenario))
  = [Some 2; Some 1; Some 1; Some 1]%nat.
Proof. reflexivity. Qed.

(** Scenario: [addSibling("a", "C")] gives the order a, C, b under the
    root. *)
Example scenario_addSibling_order :
  labels (treeData (fst (addSibling demo "a" (Some "C"))))
  = [("root", "R"); ("a", "A"); ("node_1700000000001", "C"); ("b", "B");
     ("b1", "B1")].
Proof. reflexivity. Qed.

(** Scenario: [addChild("b", ...)] appends after [b1]; [deleteNode("b")]
    removes [b] with its subtree. *)
Example scenario_addChild_deleteNode :
  labels (treeData (fst (addChild demo "b" None)))
  = [("root", "R"); ("a", "A"); ("b", "B"); ("b1", "B1");
     ("node_1700000000001", "New Node")]
  /\ snd (deleteNode demo "b") = true
  /\ labels (treeData (fst (deleteNode demo "b"))) = [("root", "R"); ("a", "A")]
  /\ statusEl (fst (deleteNode demo "b")) = Some ("Deleted " ++ dq ++ "B" ++ dq).
Proof. repeat split. Qed.

(** Scenario: [a] and [b] get half of the sweep each, [a] lies at radius
    120, and [b1] takes the whole interval of [b], at depth 2. *)
Example scenario_layout :
  match placedChildren (renderPlaced defaultConfig scenario) with
  | [a; b] =>
      p_start a = rootStart /\ p_end a = p_start b /\ p_end b = rootEnd
      /\ widthOf a = (rootEnd - rootStart) / 2
      /\ widthOf b = (rootEnd - rootStart) / 2
      /\ _x (p_fields a)
         = Some (800 / 2 + 1 * 120 * cos ((p_start a + p_end a) / 2))
      /\ match placedChildren b with
         | [b1] =>
             p_start b1 = p_start b /\ p_end b1 = p_end b
             /\ _depth (p_fields b1) = Some 2%nat
         | _ => False
         end
  | _ => False
  end.
Proof.
  cbv -[Rplus Rminus Rmult Rdiv Rinv Ropp PI cos sin IZR rootStart rootEnd].
  repeat split; try field.
Qed.

(** On the scenario tree: node [b], whose only child [b1] takes its whole
    interval. *)
Lemma layout_partitions_angles_witness :
  let b := branchNode "b" "B" [leafNode "b1" "B1"] in
  In b (preorder scenario) /\ childArray b <> []
  /\ exists p cs,
       In p (placedNodes (renderPlaced defaultConfig scenario))
       /\ strip (erase p) = strip b
       /\ p_children p = Some cs /\ cs <> []
       /\ chain (p_start p) cs (p_end p)
       /\ sumWidths cs = widthOf p.
Proof.
  intros b.
  assert (Hb : In b (preorder scenario)) by (simpl; tauto).
  assert (Hne : childArray b <> []) by discriminate.
  destruct (layout_partitions_angles defaultConfig scenario) as (_ & _ & A & B).
  destruct (A b Hb Hne) as (p & cs & Hp & E & Hcs & Hc).
  destruct (B p Hp) as (_ & B').
  destruct (B' cs Hcs Hc) as (_ & C & _ & _ & S).
  exact (conj Hb (conj Hne
           (ex_intro _ p (ex_intro _ cs
              (conj Hp (conj E (conj Hcs (conj Hc (conj C S))))))))).
Defined.

(** On the scenario tree: node [b1], at distance 2 from the root. *)
Lemma layout_positions_nodes_witness :
  let b1 := leafNode "b1" "B1" in
  In b1 (nodesAt 2 scenario)
  /\ exists p,
       In p (placedAt 2 (renderPlaced defaultConfig scenario))
       /\ strip (erase p) = strip b1
       /\ _depth (p_fields p) = Some 2%nat
       /\ _angle (p_fields p) = Some ((p_start p + p_end p) / 2).
Proof.
  intros b1.
  assert (Hb : In b1 (nodesAt 2 scenario)) by (simpl; tauto).
  destruct (layout_positions_nodes defaultConfig scenario) as (_ & H).
  destruct (H 2%nat) as (_ & _ & A & B).
  destruct (A b1 Hb) as (p & Hp & E).
  destruct (B p Hp) as (An & D & _).
  exact (conj Hb (ex_intro _ p (conj Hp (conj E (conj D An))))).
Defined.

(** On the fresh view of an 800 by 800 surface: the point (400, 400). *)
Lemma wheel_zoom_anchor_stable_witness :
  0 < zoom demo
  /\ toCanvas demo (mkPoint 400 400) = viewCenter (config demo) demoRect
  /\ toCanvas (handleWheel demo demoRect (-100)) (mkPoint 400 400)
     = viewCenter (config demo) demoRect.
Proof.
  assert (Hz : 0 < zoom demo).
  { destruct demo_state as (_ & -> & _). lra. }
  assert (Hp : toCanvas demo (mkPoint 400 400)
               = viewCenter (config demo) demoRect).
  { unfold toCanvas, viewCenter, screenToSvg.
    destruct demo_state as (-> & -> & -> & -> & _). cbn.
    f_equal; field. }
  exact (conj Hz (conj Hp
           (wheel_zoom_anchor_stable demo demoRect (-100) (mkPoint 400 400)
              Hz Hp))).
Defined.

Lemma startEdit_demo : isEditing (startEdit demo "a") = true.
Proof.
  unfold startEdit. rewrite demo_editable.
  destruct demo_state as (_ & _ & _ & _ & -> & _). cbn [negb orb].
  destruct demo_find_a as (node & -> & _). reflexivity.
Qed.

(** A wheel event while node [a] is being edited. *)
Lemma gestures_inert_while_editing_witness :
  isEditing (startEdit demo "a") = true
  /\ exists st',
       handle (startEdit demo "a") demoRect (Wheel (-100)) = Some st'
       /\ zoom st' = zoom (startEdit demo "a")
       /\ offsetX st' = offsetX (startEdit demo "a")
       /\ offsetY st' = offsetY (startEdit demo "a")
       /\ st' = startEdit demo "a".
Proof.
  split; [exact startEdit_demo|].
  exact (gestures_inert_while_editing (startEdit demo "a") demoRect
           (Wheel (-100)) startEdit_demo).
Defined.

(** The copy handed out by the instance holding the scenario tree. *)
Lemma getData_copies_live_tree_witness :
  treeData demo = render defaultConfig scenario
  /\ getData demo = treeData demo
  /\ strip (getData demo) = strip scenario
  /\ _isRoot (fields (getData demo)) = Some true.
Proof.
  split; [exact demo_treeData|].
  destruct (getData_copies_live_tree demo defaultConfig scenario demo_treeData)
    as (A & B & _ & D).
  exact (conj A (conj B D)).
Defined.

(** Renaming node [a] of the scenario tree. *)
Lemma renameNode_sets_name_or_placeholder_witness :
  editable (config demo) = true
  /\ findNodeById (treeData demo) "a" <> None
  /\ exists st' node',
       renameNode demo "a" (Some "Alpha") = (st', true)
       /\ findNodeById (treeData st') "a" = Some node'
       /\ name (fields node') = "Alpha".
Proof.
  assert (Hf : findNodeById (treeData demo) "a" <> None).
  { destruct demo_find_a as (node & -> & _). discriminate. }
  split; [exact demo_editable|]. split; [exact Hf|].
  destruct (renameNode_sets_name_or_placeholder demo "a" (Some "Alpha"))
    as [_ H].
  destruct (H demo_editable Hf) as (st' & node' & A & B & C & _).
  exists st', node'. exact (conj A (conj B C)).
Defined.

(** Deleting the root of the scenario tree. *)
Lemma deleteNode_root_rejected_witness :
  editable (config demo) = true
  /\ statusEl demo <> None
  /\ snd (deleteNode demo (id (fields (treeData demo)))) = false
  /\ treeData (fst (deleteNode demo (id (fields (treeData demo)))))
     = treeData demo
  /\ statusEl (fst (deleteNode demo (id (fields (treeData demo)))))
     = Some "Cannot delete root node".
Proof.
  assert (Hs : statusEl demo <> None).
  { destruct demo_state as (_ & _ & _ & _ & _ & _ & ->). discriminate. }
  destruct (deleteNode_root_rejected demo) as (A & B & _ & C & _ & _).
  exact (conj demo_editable (conj Hs (conj A (conj B (C demo_editable Hs))))).
Defined.

Lemma demo_ahead k :
  (nodeIdCounter demo < k)%N -> ~ In (idOf k) (ids (treeData demo)).
Proof.
  intros _. rewrite demo_ids. unfold idOf. simpl.
  intros [E|[E|[E|[E|[]]]]]; discriminate E.
Qed.

(** One [addChild] and one [addSibling] on the scenario tree. *)
Lemma ids_stay_unique_witness :
  NoDup (ids (treeData demo))
  /\ NoDup (ids (treeData (run [AddChild "root" None; AddSibling "a" (Some "C")]
                               demo))).
Proof.
  assert (Hn : NoDup (ids (treeData demo))).
  { rewrite demo_ids. repeat constructor; simpl; intuition discriminate. }
  split; [exact Hn|].
  apply (ids_stay_unique [AddChild "root" None; AddSibling "a" (Some "C")] demo
           Hn demo_ahead).
  destruct demo_state as (_ & _ & _ & _ & _ & -> & _). now vm_compute.
Defined.


(** * Further properties *)

(** ** Search *)

Lemma find_app_first {A} (f : A -> bool) l1 l2 :
  find f (l1 ++ l2)%list
  = match find f l1 with
    | Some x => Some x
    | None => find f l2
    end.
Proof.
  induction l1 as [|x l1 IH]; simpl; [reflexivity|].
  destruct (f x); [reflexivity | exact IH].
Qed.

(** X1. [findNodeById] returns the first node, in pre-order, whose id is the
    one asked for, and [null] when no node has it. *)
Theorem findNodeById_first_in_preorder :
  forall (tree : Node) (i : string),
    findNodeById tree i = find (hasId i) (preorder tree).
Proof.
  intros tree i.
  induction tree as [f|f cs IH] using Node_rect_children;
    rewrite findNodeById_eq, preorder_eq; unfold childArray;
    cbn [children find flat_map]; unfold hasId at 1; cbn [fields];
    destruct (String.eqb (id f) i); try reflexivity.
  induction IH as [|c cs Hc _ IHcs]; simpl; [reflexivity|].
  rewrite find_app_first, <- Hc.
  destruct (findNodeById c i); [reflexivity | exact IHcs].
Qed.

Lemma parentLoop_sound i t l :
  Forall (fun c => forall p, findParentById c i = Some p ->
                             In p (preorder c)
                             /\ existsb (hasId i) (childArray p) = true) l ->
  forall p,
    parentLoop t i l = Some p ->
    (p = t /\ existsb (hasId i) l = true)
    \/ (In p (flat_map preorder l)
        /\ existsb (hasId i) (childArray p) = true).
Proof.
  induction 1 as [|c l Hc _ IH]; intros p; simpl; [discriminate|].
  destruct (hasId i c) eqn:Ei.
  - intros [= <-]. now left.
  - destruct (findParentById c i) as [q|] eqn:Eq.
    + intros [= <-]. right. destruct (Hc q eq_refl) as [Hin Hex].
      split; [apply in_or_app; now left | exact Hex].
    + intros Hl. destruct (IH p Hl) as [[-> Hex]|[Hin Hex]].
      * left. split; [reflexivity | exact Hex].
      * right. split; [apply in_or_app; now right | exact Hex].
Qed.

Lemma findParentById_sound t i :
  forall p,
    findParentById t i = Some p ->
    In p (preorder t) /\ existsb (hasId i) (childArray p) = true.
Proof.
  induction t as [f|f cs IH] using Node_rect_children; intros p;
    rewrite findParentById_eq; unfold childArray at 1; cbn [children];
    [discriminate|].
  intros H. destruct (parentLoop_sound i _ cs IH p H) as [[-> Hex]|[Hin Hex]].
  - split; [rewrite preorder_eq; now left | exact Hex].
  - split; [rewrite preorder_eq; right; exact Hin | exact Hex].
Qed.

Lemma parentLoop_none i t l :
  Forall (fun c => findParentById c i = None <->
                   ~ In i (map (fun m => id (fields m)) (descendants c))) l ->
  parentLoop t i l = None <->
  ~ In i (map (fun m => id (fields m)) (flat_map preorder l)).
Proof.
  induction 1 as [|c l Hc _ IH]; simpl; [tauto|].
  rewrite preorder_eq. fold (descendants c). cbn [app map].
  rewrite map_app. cbn [In]. rewrite in_app_iff.
  unfold hasId. destruct (String.eqb (id (fields c)) i) eqn:Ei.
  - apply String.eqb_eq in Ei. split; [discriminate | intros H; exfalso; tauto].
  - apply String.eqb_neq in Ei.
    destruct (findParentById c i) as [q|] eqn:Eq.
    + split; [discriminate|]. intros H. exfalso.
      assert (Hn : Some q <> None) by discriminate.
      apply Hn. apply Hc. tauto.
    + assert (Hd : ~ In i (map (fun m => id (fields m)) (descendants c)))
        by (now apply Hc).
      rewrite IH. tauto.
Qed.

Lemma findParentById_none_iff tree childId :
  findParentById tree childId = None <->
  ~ In childId (map (fun m => id (fields m)) (descendants tree)).
Proof.
  induction tree as [f|f cs IH] using Node_rect_children;
    rewrite findParentById_eq; unfold descendants, childArray;
    cbn [children]; [simpl; tauto|].
  now apply parentLoop_none.
Qed.

(** X2. The node that [findParentById] returns belongs to the tree and has a
    child with the id; the search returns [null] exactly when no node below
    the root has the id. *)
Theorem findParentById_finds_a_parent :
  forall (tree : Node) (childId : string),
    (forall p,
        findParentById tree childId = Some p ->
        In p (preorder tree)
        /\ existsb (hasId childId) (childArray p) = true)
    /\ (findParentById tree childId = None <->
        ~ In childId (map (fun m => id (fields m)) (descendants tree))).
Proof.
  intros tree childId. split.
  - intros p Hp. now apply findParentById_sound.
  - apply findParentById_none_iff.
Qed.

(** ** Leaf counts *)


(** ** Layout: shares of the sweep *)

Lemma in_layoutChildren_span cfg total k depth l :
  0 < total -> 0 < k -> Forall (fun c => 0 < leafCountR c) l ->
  forall angle p,
    In p (layoutChildren cfg total k depth l angle) ->
    exists c a b,
      In c l /\ p = layout cfg c a b depth
      /\ b - a = total * (leafCountR c / k)
      /\ a < b /\ angle <= a /\ b <= angle + total * (sumLeafR l / k).
Proof.
  intros Ht Hk Hl. induction Hl as [|c l Hc Hl IH]; intros angle p; simpl;
    [contradiction|].
  assert (Hspan : 0 < total * (leafCountR c / k)).
  { apply Rmult_lt_0_compat; [exact Ht|]. apply Rdiv_lt_0_compat; assumption. }
  assert (Hrest : 0 <= total * (sumLeafR l / k)).
  { apply Rmult_le_pos; [lra|]. apply Rmult_le_pos.
    - clear -Hl. induction Hl as [|x l Hx _ IHl]; simpl; lra.
    - left. now apply Rinv_0_lt_compat. }
  assert (Hsum : total * ((leafCountR c + sumLeafR l) / k)
                 = total * (leafCountR c / k) + total * (sumLeafR l / k))
    by (field; lra).
  intros [<-|H].
  - exists c. do 2 eexists. split; [now left|]. split; [reflexivity|].
    rewrite Hsum. repeat split; lra.
  - destruct (IH _ _ H) as (c' & a & b & Hin & E & Hw & Hab & Ha & Hb).
    exists c', a, b. split; [now right|]. split; [exact E|].
    rewrite Hsum. repeat split; lra.
Qed.

Lemma children_share cfg cs depth s e :
  Forall (fun c =>
            forall s e d, s < e ->
            forall q, In q (placedNodes (layout cfg (annotate c) s e d)) ->
                      widthOf q
                      = (e - s) * (leafR q / leafCountR (annotate c))
                      /\ s <= p_start q /\ p_start q < p_end q /\ p_end q <= e)
         cs ->
  s < e ->
  forall k,
    k = sumLeafR (map annotate cs) -> 0 < k ->
    forall q,
      In q (flat_map placedNodes
              (layoutChildren cfg (e - s) k depth (map annotate cs) s)) ->
      widthOf q = (e - s) * (leafR q / k)
      /\ s <= p_start q /\ p_start q < p_end q /\ p_end q <= e.
Proof.
  intros IH Hse k Ek Hk q Hq.
  apply in_flat_map in Hq. destruct Hq as (x & Hx & Hq).
  assert (Hpos : Forall (fun c => 0 < leafCountR c) (map annotate cs)).
  { apply Forall_forall. intros c Hc. apply in_map_iff in Hc.
    destruct Hc as (c0 & <- & _). apply leafCountR_annotate_pos. }
  assert (Ht : 0 < e - s) by lra.
  destruct (in_layoutChildren_span cfg _ _ depth _ Ht Hk Hpos _ _ Hx)
    as (c & a & b & Hc & -> & Hw & Hab & Ha & Hb).
  apply in_map_iff in Hc. destruct Hc as (c0 & <- & Hc0).
  rewrite Forall_forall in IH.
  destruct (IH c0 Hc0 a b depth Hab q Hq) as (W & A & B & C).
  pose proof (leafCountR_annotate_pos c0) as Hl0.
  rewrite <- Ek in Hb.
  replace (s + (e - s) * (k / k)) with e in Hb by (field; lra).
  split; [|repeat split; lra].
  rewrite W, Hw. field. lra.
Qed.

Lemma layout_share_here cfg n s e d :
  s < e ->
  widthOf (layout cfg (annotate n) s e d)
  = (e - s) * (leafR (layout cfg (annotate n) s e d)
               / leafCountR (annotate n))
  /\ s <= p_start (layout cfg (annotate n) s e d)
  /\ p_start (layout cfg (annotate n) s e d)
     < p_end (layout cfg (annotate n) s e d)
  /\ p_end (layout cfg (annotate n) s e d) <= e.
Proof.
  intros Hse.
  destruct (layout_interval cfg (annotate n) s e d) as (Es & Ee & _).
  unfold widthOf. rewrite Es, Ee, leafR_layout.
  pose proof (leafCountR_annotate_pos n).
  split; [field; lra | repeat split; lra].
Qed.

Lemma layout_shares cfg n :
  forall s e d,
    s < e ->
    forall q,
      In q (placedNodes (layout cfg (annotate n) s e d)) ->
      widthOf q = (e - s) * (leafR q / leafCountR (annotate n))
      /\ s <= p_start q /\ p_start q < p_end q /\ p_end q <= e.
Proof.
  induction n as [f|f cs IH] using Node_rect_children; intros s e d Hse q;
    rewrite placedNodes_eq; (intros [<-|Hq];
    [now apply layout_share_here|]);
    rewrite layout_children, annotate_children in Hq;
    unfold childArray in Hq; cbn [children map flat_map] in Hq;
    [contradiction|].
  destruct cs as [|c cs]; [contradiction|].
  apply (children_share cfg (c :: cs) (S d) s e IH Hse); try assumption.
  - assert (Hne : childArray (mkNode f (Some (c :: cs))) <> []) by discriminate.
    pose proof (annotated_children_sum _ Hne) as E.
    rewrite annotate_children in E. symmetry. exact E.
  - apply leafCountR_annotate_pos.
Qed.

Lemma renderPlaced_shares cfg tree q :
  In q (placedNodes (renderPlaced cfg tree)) ->
  widthOf q
  = (rootEnd - rootStart)
    * (leafR q / INR (List.length (leafNodes tree)))
  /\ rootStart <= p_start q /\ p_start q < p_end q /\ p_end q <= rootEnd.
Proof.
  unfold renderPlaced.
  rewrite <- leafCountOf_leafNodes, <- leafCountR_annotate.
  pose proof root_sweep as Hs.
  pose proof (leafCountR_annotate_pos tree) as Hk.
  rewrite placedNodes_eq. intros [<-|Hq].
  - assert (I : p_start (layoutRoot cfg (annotate tree)) = rootStart
                /\ p_end (layoutRoot cfg (annotate tree)) = rootEnd
                /\ leafR (layoutRoot cfg (annotate tree))
                   = leafCountR (annotate tree)).
    { unfold layoutRoot, leafR, leafCountR.
      destruct (children (annotate tree)); repeat split. }
    destruct I as (Es & Ee & El). unfold widthOf. rewrite Es, Ee, El.
    split; [field; lra | repeat split; lra].
  - rewrite layoutRoot_children, annotate_children in Hq.
    destruct (childArray tree) as [|c cs] eqn:Ec; [contradiction|].
    rewrite <- Ec in Hq.
    apply (children_share cfg (childArray tree) 1 rootStart rootEnd);
      try assumption.
    + apply Forall_forall. intros x _. apply layout_shares.
    + assert (Hne : childArray tree <> []) by (rewrite Ec; discriminate).
      pose proof (annotated_children_sum _ Hne) as E.
      rewrite annotate_children in E. symmetry. exact E.
Qed.

(** X4. In the layout of a rendered tree every node of the tree is given a
    non-empty interval inside the sweep of the root, of width the sweep
    times the number of childless nodes of the node's subtree over the
    number of childless nodes of the tree: every childless node gets the
    same share.  (The placed nodes are one for each node of the tree, in
    pre-order, with the same id, name and children, and the leaf count each
    carries is the number of childless nodes of its subtree.) *)
Theorem layout_shares_sweep_by_leaves :
  forall (cfg : Config) (tree : Node),
    (forall n,
        In n (preorder tree) ->
        exists q,
          In q (placedNodes (renderPlaced cfg tree))
          /\ strip (erase q) = strip n
          /\ widthOf q
             = (rootEnd - rootStart)
               * (INR (List.length (leafNodes n))
                  / INR (List.length (leafNodes tree)))
          /\ rootStart <= p_start q /\ p_start q < p_end q
          /\ p_end q <= rootEnd)
    /\ map (fun q => strip (erase q)) (placedNodes (renderPlaced cfg tree))
       = map strip (preorder tree)
    /\ forall q,
         In q (placedNodes (renderPlaced cfg tree)) ->
         leafR q = INR (List.length (leafNodes (erase q)))
         /\ widthOf q
            = (rootEnd - rootStart)
              * (INR (List.length (leafNodes (erase q)))
                 / INR (List.length (leafNodes tree)))
         /\ rootStart <= p_start q /\ p_start q < p_end q
         /\ p_end q <= rootEnd.
Proof.
  intros cfg tree.
  assert (H : forall q,
             In q (placedNodes (renderPlaced cfg tree)) ->
             leafR q = INR (List.length (leafNodes (erase q)))
             /\ widthOf q
                = (rootEnd - rootStart)
                  * (INR (List.length (leafNodes (erase q)))
                     / INR (List.length (leafNodes tree)))
             /\ rootStart <= p_start q /\ p_start q < p_end q
             /\ p_end q <= rootEnd).
  { intros q Hq. pose proof (leafR_placed cfg tree q Hq) as El.
    destruct (renderPlaced_shares cfg tree q Hq) as (W & B).
    rewrite El in W. exact (conj El (conj W B)). }
  split; [|split; [apply placedNodes_follow_tree | exact H]].
  intros n Hn.
  destruct (in_map_matched _ _ _ _ (placedNodes_follow_tree cfg tree) n Hn)
    as (q & Hq & E).
  destruct (H q Hq) as (_ & W & B).
  rewrite (leafNodes_same_shape _ _ E) in W.
  exists q. exact (conj Hq (conj E (conj W B))).
Qed.

Lemma positioned_on_circle cfg d q :
  positioned cfg d q ->
  exists x y,
    _x (p_fields q) = Some x /\ _y (p_fields q) = Some y
    /\ (x - width cfg / 2) * (x - width cfg / 2)
       + (y - height cfg / 2) * (y - height cfg / 2)
       = (INR d * radiusStep cfg) * (INR d * radiusStep cfg).
Proof.
  intros (_ & _ & Hx & Hy). do 2 eexists.
  split; [exact Hx|]. split; [exact Hy|].
  pose proof (sin2_cos2 ((p_start q + p_end q) / 2)) as H. unfold Rsqr in H.
  remember (INR d) as dist eqn:Ed. clear Ed.
  remember (cos ((p_start q + p_end q) / 2)) as co eqn:Eco. clear Eco.
  remember (sin ((p_start q + p_end q) / 2)) as si eqn:Esi. clear Esi.
  match goal with
  | |- _ = ?rhs => rewrite <- (Rmult_1_r rhs), <- H
  end.
  ring.
Qed.

(** X5. Every node of the tree at distance [d] from the root is placed, and
    a node placed at distance [d] has coordinates, on the circle of radius
    [d * radiusStep] around the centre of the canvas. *)
Theorem layout_places_on_circles :
  forall (cfg : Config) (tree : Node) (d : nat),
    map (fun q => strip (erase q)) (placedAt d (renderPlaced cfg tree))
    = map strip (nodesAt d tree)
    /\ (forall n,
           In n (nodesAt d tree) ->
           exists q,
             In q (placedAt d (renderPlaced cfg tree))
             /\ strip (erase q) = strip n)
    /\ forall q,
         In q (placedAt d (renderPlaced cfg tree)) ->
         exists x y,
           _x (p_fields q) = Some x /\ _y (p_fields q) = Some y
           /\ (x - width cfg / 2) * (x - width cfg / 2)
              + (y - height cfg / 2) * (y - height cfg / 2)
              = (INR d * radiusStep cfg) * (INR d * radiusStep cfg).
Proof.
  intros cfg tree d.
  split; [apply placedAt_follows_tree|].
  split; [exact (in_map_matched _ _ _ _ (placedAt_follows_tree cfg tree d))|].
  intros q Hq. pose proof (placedAt_positioned cfg tree d q Hq) as H.
  destruct d as [|k]; [|now apply positioned_on_circle].
  destruct H as (_ & Hx & Hy & _).
  exists (width cfg / 2), (height cfg / 2).
  split; [exact Hx|]. split; [exact Hy|]. simpl. ring.
Qed.

(** ** Rendering again *)

Lemma children_annotate n :
  children (annotate n)
  = match children n with
    | None => None
    | Some cs => Some (map annotate cs)
    end.
Proof. rewrite annotate_eq. destruct (children n) as [[|c cs]|]; reflexivity. Qed.

Lemma fields_annotate n :
  fields (annotate n)
  = set_leaf (leafCountOf n) (childless n) (fields n).
Proof.
  rewrite annotate_eq, leafCountOf_eq. unfold childless, childArray.
  destruct (children n) as [[|c cs]|]; reflexivity.
Qed.

Lemma erase_layout cfg n s e d :
  erase (layout cfg n s e d)
  = mkNode (set_position
              (width cfg / 2 + INR d * radiusStep cfg * cos ((s + e) / 2))
              (height cfg / 2 + INR d * radiusStep cfg * sin ((s + e) / 2))
              ((s + e) / 2) d (fields n))
           match children n with
           | None => None
           | Some cs =>
               Some (map erase (layoutChildren cfg (e - s) (leafCountR n)
                                               (S d) cs s))
           end.
Proof. rewrite layout_eq. cbn. destruct (children n); reflexivity. Qed.

Lemma erase_layoutRoot cfg n :
  erase (layoutRoot cfg n)
  = mkNode (set_isRoot (set_position (width cfg / 2) (height cfg / 2) 0 0
                                     (fields n)))
           match children n with
           | None => None
           | Some cs =>
               Some (map erase (layoutChildren cfg (rootEnd - rootStart)
                                               (leafCountR n) 1 cs rootStart))
           end.
Proof. unfold layoutRoot. destruct (children n); reflexivity. Qed.

Lemma leafCountOf_clearLayout n : leafCountOf (clearLayout n) = leafCountOf n.
Proof.
  induction n as [f|f cs IH] using Node_rect_children;
    rewrite !leafCountOf_eq; cbn [children clearLayout]; [reflexivity|].
  destruct cs as [|c cs]; [reflexivity|].
  cbn [map]. rewrite map_map. apply Forall_cons_iff in IH.
  destruct IH as [Hc Hcs]. do 2 f_equal; [exact Hc | now apply map_ext_Forall].
Qed.

Lemma childless_clearLayout n : childless (clearLayout n) = childless n.
Proof. destruct n as [f [[|c cs]|]]; reflexivity. Qed.

Lemma erase_layoutChildren_clear cfg total k depth cs :
  Forall (fun c => forall s e d,
              erase (layout cfg (annotate (clearLayout c)) s e d)
              = erase (layout cfg (annotate c) s e d)) cs ->
  forall angle,
    map erase (layoutChildren cfg total k depth
                 (map annotate (map clearLayout cs)) angle)
    = map erase (layoutChildren cfg total k depth (map annotate cs) angle).
Proof.
  induction 1 as [|c cs Hc _ IH]; intros angle; simpl; [reflexivity|].
  rewrite !leafCountR_annotate, leafCountOf_clearLayout, Hc, IH. reflexivity.
Qed.

Lemma set_leaf_clear k b f :
  forall x y a d,
    set_position x y a d (set_leaf k b (clearLayoutFields f))
    = set_position x y a d (set_leaf k b f).
Proof. reflexivity. Qed.

Lemma erase_layout_clear cfg n :
  forall s e d,
    erase (layout cfg (annotate (clearLayout n)) s e d)
    = erase (layout cfg (annotate n) s e d).
Proof.
  induction n as [f|f cs IH] using Node_rect_children; intros s e d;
    rewrite !erase_layout, !children_annotate, !fields_annotate,
      !leafCountR_annotate, leafCountOf_clearLayout, childless_clearLayout;
    cbn [children fields clearLayout]; [reflexivity|].
  rewrite set_leaf_clear. f_equal. f_equal.
  now apply erase_layoutChildren_clear.
Qed.

Lemma render_clearLayout cfg t : render cfg (clearLayout t) = render cfg t.
Proof.
  unfold render, renderPlaced.
  rewrite !erase_layoutRoot, !children_annotate, !fields_annotate,
    !leafCountR_annotate, leafCountOf_clearLayout, childless_clearLayout.
  destruct t as [f [cs|]]; cbn [children fields clearLayout]; [|reflexivity].
  f_equal. f_equal. apply erase_layoutChildren_clear.
  apply Forall_forall. intros c _. apply erase_layout_clear.
Qed.

Lemma render_markRoot cfg t : render cfg (markRoot t) = render cfg t.
Proof.
  unfold render, renderPlaced.
  rewrite !erase_layoutRoot, !children_annotate, !fields_annotate,
    !leafCountR_annotate.
  assert (E : leafCountOf (markRoot t) = leafCountOf t).
  { rewrite !leafCountOf_eq. reflexivity. }
  rewrite E. reflexivity.
Qed.

Lemma clearLayout_annotate n : clearLayout (annotate n) = clearLayout n.
Proof.
  induction n as [f|f cs IH] using Node_rect_children;
    rewrite annotate_eq; cbn [children fields]; [reflexivity|].
  destruct cs as [|c cs]; [reflexivity|].
  cbn [clearLayout children fields]. f_equal. f_equal.
  rewrite map_map. now apply map_ext_Forall.
Qed.

Lemma clearLayout_layoutChildren cfg total k depth cs :
  Forall (fun c => forall s e d,
              clearLayout (erase (layout cfg c s e d)) = clearLayout c) cs ->
  forall angle,
    map clearLayout (map erase (layoutChildren cfg total k depth cs angle))
    = map clearLayout cs.
Proof.
  induction 1 as [|c cs Hc _ IH]; intros angle; simpl; [reflexivity|].
  now rewrite Hc, IH.
Qed.

Lemma clearLayout_layout cfg n :
  forall s e d, clearLayout (erase (layout cfg n s e d)) = clearLayout n.
Proof.
  induction n as [f|f cs IH] using Node_rect_children; intros s e d;
    rewrite erase_layout; cbn [children fields clearLayout]; [reflexivity|].
  f_equal. f_equal. now apply clearLayout_layoutChildren.
Qed.

Lemma clearLayout_render cfg t :
  clearLayout (render cfg t) = markRoot (clearLayout t).
Proof.
  unfold render, renderPlaced. rewrite erase_layoutRoot.
  rewrite <- (clearLayout_annotate t).
  destruct (annotate t) as [f [cs|]]; unfold markRoot;
    cbn [children fields clearLayout]; [|reflexivity].
  f_equal. f_equal. apply clearLayout_layoutChildren.
  apply Forall_forall. intros c _. apply clearLayout_layout.
Qed.

Lemma render_twice cfg cfg' t : render cfg (render cfg' t) = render cfg t.
Proof.
  rewrite <- (render_clearLayout cfg (render cfg' t)), clearLayout_render.
  now rewrite render_markRoot, render_clearLayout.
Qed.

(** X6. Rendering is idempotent: rendering a rendered tree again, with the
    same options, gives the same tree, field for field.  So data taken with
    [getData] from a rendered instance and given back with [setData] (same
    options) is displayed, and handed out again, unchanged. *)
Theorem render_is_idempotent :
  forall (cfg : Config) (t : Node),
    render cfg (render cfg t) = render cfg t
    /\ forall st st0,
         config st = cfg ->
         treeData st0 = render cfg t ->
         getData (setData st (getData st0)) = getData st0.
Proof.
  intros cfg t. split; [apply render_twice|].
  intros st st0 Hc Ht. rewrite !getData_eq.
  unfold setData. rewrite setStatus_treeData. cbn [treeData with_tree].
  now rewrite deepClone_id, Ht, Hc, render_twice.
Qed.

(** X7. The layout fields that the data given to [setData] may carry have no
    influence on what is displayed: the tree is the same as for the data
    without them. *)
Theorem setData_ignores_layout_fields :
  forall (st : MindMap) (data : Node),
    treeData (setData st data) = treeData (setData st (clearLayout data))
    /\ treeData (setData st data) = render (config st) data.
Proof.
  intros st data. unfold setData. rewrite !setStatus_treeData.
  cbn [treeData with_tree]. now rewrite !deepClone_id, render_clearLayout.
Qed.

Lemma upToDate_after_render st t m :
  upToDate (setStatus m (with_tree (render (config st) t) st)).
Proof.
  unfold upToDate. rewrite setStatus_config, setStatus_treeData.
  cbn [config treeData with_tree]. apply render_twice.
Qed.

(** X8. The tree on display is always up to date: after [setData] and
    after every successful [addChild], [addSibling], [deleteNode] and
    [renameNode] the tree is the one a fresh render would give, and a call
    that fails leaves an up-to-date tree up to date. *)
Theorem mutations_leave_tree_rendered :
  forall (st : MindMap),
    (forall data, upToDate (setData st data))
    /\ (upToDate st ->
        (forall i nm, upToDate (fst (addChild st i nm)))
        /\ (forall i nm, upToDate (fst (addSibling st i nm)))
        /\ (forall i, upToDate (fst (deleteNode st i)))
        /\ (forall i nm, upToDate (fst (renameNode st i nm)))).
Proof.
  intros st. split; [intros data; apply upToDate_after_render|].
  intros Hu. repeat split; intros i; try intros nm.
  - unfold addChild. destruct (negb _); [exact Hu|].
    destruct (findNodeById _ _); [|exact Hu].
    rewrite generateId_eq. cbn [fst].
    apply (upToDate_after_render
             (with_counter (nextCounter (nodeIdCounter st)) st)).
  - unfold addSibling. destruct (negb _); [exact Hu|].
    destruct (findParentById _ _); [|exact Hu].
    rewrite generateId_eq. cbn [fst].
    apply (upToDate_after_render
             (with_counter (nextCounter (nodeIdCounter st)) st)).
  - unfold deleteNode. destruct (negb _); [exact Hu|].
    destruct (String.eqb _ _).
    + cbn [fst]. unfold upToDate.
      now rewrite setStatus_config, setStatus_treeData.
    + destruct (findParentById _ _); [|exact Hu].
      cbn [fst]. apply upToDate_after_render.
  - unfold renameNode. destruct (negb _); [exact Hu|].
    destruct (findNodeById _ _); [|exact Hu].
    cbn [fst]. apply upToDate_after_render.
Qed.

(** ** Editing: where the tree changes *)

Lemma outlineAt_eq d n :
  outlineAt d n = (d, label n) :: flat_map (outlineAt (S d)) (childArray n).
Proof. destruct n as [f [cs|]]; reflexivity. Qed.

Lemma outlineAt_strip n : forall d, outlineAt d (strip n) = outlineAt d n.
Proof.
  induction n as [f|f cs IH] using Node_rect_children; intros d;
    rewrite !outlineAt_eq; unfold childArray; cbn; [reflexivity|].
  f_equal. rewrite flat_map_concat_map, map_map, <- flat_map_concat_map.
  apply flat_map_ext_Forall. eapply Forall_impl; [|exact IH].
  intros c Hc. apply Hc.
Qed.

Lemma outline_render cfg t : outline (render cfg t) = outline t.
Proof.
  unfold outline. now rewrite <- outlineAt_strip, strip_render, outlineAt_strip.
Qed.

Lemma updateLoop_in_place f i l :
  Forall (fun c => forall n d,
            findNodeById c i = Some n ->
            exists c' pre post dn,
              updateNodeById f c i = Some c'
              /\ outlineAt d c = (pre ++ outlineAt dn n ++ post)%list
              /\ outlineAt d c' = (pre ++ outlineAt dn (f n) ++ post)%list) l ->
  forall n d,
    firstSome (fun c => findNodeById c i) l = Some n ->
    exists l' pre post dn,
      updateLoop f i l = Some l'
      /\ flat_map (outlineAt d) l = (pre ++ outlineAt dn n ++ post)%list
      /\ flat_map (outlineAt d) l' = (pre ++ outlineAt dn (f n) ++ post)%list.
Proof.
  induction 1 as [|c l Hc _ IH]; intros n d; simpl; [discriminate|].
  destruct (findNodeById c i) as [m|] eqn:Ec.
  - intros [= <-]. destruct (Hc m d eq_refl) as (c' & pre & post & dn & -> & E1 & E2).
    exists (c' :: l), pre, (post ++ flat_map (outlineAt d) l)%list, dn.
    split; [reflexivity|]. simpl. rewrite E1, E2, <- !app_assoc. now split.
  - intros H. rewrite (updateNodeById_none f i c Ec).
    destruct (IH n d H) as (l' & pre & post & dn & -> & E1 & E2).
    exists (c :: l'), (outlineAt d c ++ pre)%list, post, dn.
    split; [reflexivity|]. simpl. rewrite E1, E2, <- !app_assoc. now split.
Qed.

(** [updateNodeById] rewrites the node found, where it stands. *)
Lemma updateNodeById_in_place f i t :
  forall n d,
    findNodeById t i = Some n ->
    exists t' pre post dn,
      updateNodeById f t i = Some t'
      /\ outlineAt d t = (pre ++ outlineAt dn n ++ post)%list
      /\ outlineAt d t' = (pre ++ outlineAt dn (f n) ++ post)%list.
Proof.
  induction t as [fl|fl cs IH] using Node_rect_children; intros n d;
    rewrite findNodeById_eq, updateNodeById_eq; unfold childArray;
    cbn [children fields]; destruct (String.eqb (id fl) i) eqn:Ei;
    try discriminate.
  - intros [= <-]. exists (f (mkNode fl None)), [], [], d.
    rewrite !app_nil_r. repeat split.
  - intros [= <-]. exists (f (mkNode fl (Some cs))), [], [], d.
    rewrite !app_nil_r. repeat split.
  - intros H.
    destruct (updateLoop_in_place f i cs IH n (S d) H)
      as (l' & pre & post & dn & -> & E1 & E2).
    exists (mkNode fl (Some l')), ((d, (id fl, name fl)) :: pre), post, dn.
    split; [reflexivity|].
    rewrite (outlineAt_eq d (mkNode fl (Some cs))),
      (outlineAt_eq d (mkNode fl (Some l'))).
    unfold childArray, label. cbn [children fields]. rewrite E1, E2. now split.
Qed.

Lemma updateParentLoop_in_place f i t l :
  Forall (fun c => forall p d,
            findParentById c i = Some p ->
            exists c' pre post dp,
              updateParentById f c i = Some c'
              /\ outlineAt d c = (pre ++ outlineAt dp p ++ post)%list
              /\ outlineAt d c' = (pre ++ outlineAt dp (f p) ++ post)%list) l ->
  forall p d,
    parentLoop t i l = Some p ->
    (p = t /\ updateParentLoop f i l = Some Here)
    \/ exists l' pre post dp,
         updateParentLoop f i l = Some (Below l')
         /\ flat_map (outlineAt d) l = (pre ++ outlineAt dp p ++ post)%list
         /\ flat_map (outlineAt d) l' = (pre ++ outlineAt dp (f p) ++ post)%list.
Proof.
  induction 1 as [|c l Hc _ IH]; intros p d; simpl; [discriminate|].
  destruct (hasId i c); [intros [= <-]; now left|].
  destruct (findParentById c i) as [q|] eqn:Ec.
  - intros [= <-]. right.
    destruct (Hc q d eq_refl) as (c' & pre & post & dp & -> & E1 & E2).
    exists (c' :: l), pre, (post ++ flat_map (outlineAt d) l)%list, dp.
    split; [reflexivity|]. simpl. rewrite E1, E2, <- !app_assoc. now split.
  - intros H. rewrite (updateParentById_none f i c Ec).
    destruct (IH p d H) as [[-> ->]|(l' & pre & post & dp & -> & E1 & E2)];
      [now left|]. right.
    exists (c :: l'), (outlineAt d c ++ pre)%list, post, dp.
    split; [reflexivity|]. simpl. rewrite E1, E2, <- !app_assoc. now split.
Qed.

(** [updateParentById] rewrites the parent found, where it stands. *)
Lemma updateParentById_in_place f i t :
  forall p d,
    findParentById t i = Some p ->
    exists t' pre post dp,
      updateParentById f t i = Some t'
      /\ outlineAt d t = (pre ++ outlineAt dp p ++ post)%list
      /\ outlineAt d t' = (pre ++ outlineAt dp (f p) ++ post)%list.
Proof.
  induction t as [fl|fl cs IH] using Node_rect_children; intros p d;
    rewrite findParentById_eq, updateParentById_eq; unfold childArray at 1;
    cbn [children fields]; [discriminate|].
  intros H.
  destruct (updateParentLoop_in_place f i _ cs IH p (S d) H)
    as [[-> ->]|(l' & pre & post & dp & -> & E1 & E2)].
  - exists (f (mkNode fl (Some cs))), [], [], d.
    rewrite !app_nil_r. repeat split.
  - exists (mkNode fl (Some l')), ((d, (id fl, name fl)) :: pre), post, dp.
    split; [reflexivity|].
    rewrite (outlineAt_eq d (mkNode fl (Some cs))),
      (outlineAt_eq d (mkNode fl (Some l'))).
    unfold childArray, label. cbn [children fields]. rewrite E1, E2. now split.
Qed.

(** The first element of an array that satisfies a test, and [findIndex]. *)
Lemma findIndex_split {A} (p : A -> bool) l :
  existsb p l = true ->
  exists l1 c l2,
    l = (l1 ++ c :: l2)%list /\ p c = true
    /\ Forall (fun x => p x = false) l1
    /\ findIndex p l = Z.of_nat (List.length l1).
Proof.
  induction l as [|x l IH]; simpl; [discriminate|].
  destruct (p x) eqn:Ex.
  - intros _. exists [], x, l. repeat split; [exact Ex | constructor].
  - simpl. intros H. destruct (IH H) as (l1 & c & l2 & -> & Hc & Hl1 & Hi).
    exists (x :: l1), c, l2. repeat split; try assumption.
    + now constructor.
    + rewrite Hi. simpl List.length.
      destruct (Z.of_nat (List.length l1) <? 0)%Z eqn:E; [|lia].
      apply Z.ltb_lt in E. lia.
Qed.

Lemma spliceStart_nat len k :
  (k <= len)%nat -> spliceStart len (Z.of_nat k) = k.
Proof.
  intros H. unfold spliceStart.
  destruct (Z.of_nat k <? 0)%Z eqn:E; [apply Z.ltb_lt in E; lia|].
  rewrite Nat2Z.id. lia.
Qed.

Lemma firstn_length_prefix {A} (l1 l2 : list A) :
  firstn (List.length l1) (l1 ++ l2) = l1.
Proof. induction l1 as [|x l1 IH]; simpl; [now destruct l2 | now rewrite IH]. Qed.

Lemma skipn_length_prefix {A} (l1 l2 : list A) :
  skipn (List.length l1) (l1 ++ l2) = l2.
Proof. induction l1 as [|x l1 IH]; simpl; [reflexivity | exact IH]. Qed.

Lemma spliceInsert_after {A} (l1 l2 : list A) c item :
  spliceInsert (l1 ++ c :: l2) (Z.of_nat (List.length l1) + 1) item
  = (l1 ++ c :: item :: l2)%list.
Proof.
  unfold spliceInsert.
  replace (Z.of_nat (List.length l1) + 1)%Z
    with (Z.of_nat (S (List.length l1))) by lia.
  rewrite spliceStart_nat by (rewrite length_app; simpl; lia).
  replace (l1 ++ c :: l2)%list with ((l1 ++ [c]) ++ l2)%list
    by (now rewrite <- app_assoc).
  assert (E : S (List.length l1) = List.length (l1 ++ [c])%list)
    by (rewrite length_app; simpl; lia).
  rewrite E, firstn_length_prefix, skipn_length_prefix.
  now rewrite <- app_assoc.
Qed.

Lemma spliceRemove_at {A} (l1 l2 : list A) c :
  spliceRemove (l1 ++ c :: l2) (Z.of_nat (List.length l1)) = (l1 ++ l2)%list.
Proof.
  unfold spliceRemove.
  rewrite spliceStart_nat by (rewrite length_app; simpl; lia).
  rewrite firstn_length_prefix.
  replace (l1 ++ c :: l2)%list with ((l1 ++ [c]) ++ l2)%list
    by (now rewrite <- app_assoc).
  assert (E : S (List.length l1) = List.length (l1 ++ [c])%list)
    by (rewrite length_app; simpl; lia).
  now rewrite E, skipn_length_prefix.
Qed.

Lemma pushChild_outline c m d :
  outlineAt d (pushChild c m) = (outlineAt d m ++ outlineAt (S d) c)%list.
Proof.
  rewrite (outlineAt_eq d (pushChild c m)), (outlineAt_eq d m).
  change (childArray (pushChild c m)) with (childArray m ++ [c])%list.
  change (label (pushChild c m)) with (label m).
  rewrite flat_map_app. cbn [flat_map]. now rewrite app_nil_r.
Qed.

Lemma outlineAt_leafNode d i n : outlineAt d (leafNode i n) = [(d, (i, n))].
Proof. reflexivity. Qed.

Lemma ids_outline t : ids t = map (fun e => fst (snd e)) (outline t).
Proof.
  unfold outline. generalize 0%nat as d.
  induction t as [f|f cs IH] using Node_rect_children; intros d;
    unfold ids; rewrite preorder_eq, outlineAt_eq; unfold childArray;
    cbn [children map flat_map fst snd label]; [reflexivity|].
  f_equal. induction IH as [|c cs Hc _ IHcs]; simpl; [reflexivity|].
  rewrite !map_app. f_equal; [apply Hc | exact IHcs].
Qed.

Lemma find_first_split {A} (p : A -> bool) l1 c l2 :
  Forall (fun x => p x = false) l1 -> p c = true ->
  find p (l1 ++ c :: l2) = Some c.
Proof.
  induction 1 as [|x l1 Hx _ IH]; intros Hc; simpl.
  - now rewrite Hc.
  - rewrite Hx. now apply IH.
Qed.

Lemma findNodeById_none_iff t i :
  findNodeById t i = None <-> ~ In i (ids t).
Proof.
  induction t as [f|f cs IH] using Node_rect_children;
    rewrite findNodeById_eq; unfold ids; rewrite preorder_eq;
    unfold childArray; cbn [children fields map flat_map In];
    destruct (String.eqb (id f) i) eqn:Ei.
  - apply String.eqb_eq in Ei. split; [discriminate | tauto].
  - apply String.eqb_neq in Ei. simpl. tauto.
  - apply String.eqb_eq in Ei. split; [discriminate | tauto].
  - apply String.eqb_neq in Ei.
    assert (E : firstSome (fun c => findNodeById c i) cs = None
                <-> ~ In i (map (fun m => id (fields m)) (flat_map preorder cs))).
    { induction IH as [|c cs Hc _ IHcs]; simpl; [tauto|].
      rewrite map_app, in_app_iff. fold (ids c).
      destruct (findNodeById c i) eqn:Ec.
      - split; [discriminate|]. intros H. exfalso.
        assert (Hn : Some n <> None) by discriminate.
        apply Hn. apply Hc. tauto.
      - assert (~ In i (ids c)) by (now apply Hc). tauto. }
    tauto.
Qed.

(** X9. A successful [addChild] changes the outline of the tree in one
    place: right after the subtree of the parent found, one entry is added,
    one level below the parent, with the generated id and the name given
    (or "New Node"). *)
Theorem addChild_appends_last_child :
  forall (st : MindMap) (parentId : string) (nm : option string)
         (parent : Node),
    editable (config st) = true ->
    findNodeById (treeData st) parentId = Some parent ->
    exists st' pre post d,
      addChild st parentId nm = (st', true)
      /\ outline (treeData st) = (pre ++ outlineAt d parent ++ post)%list
      /\ outline (treeData st')
         = (pre ++ outlineAt d parent
                ++ (S d, (fst (generateId st), orDefault nm "New Node"))
                :: post)%list.
Proof.
  intros st parentId nm parent He Hf.
  destruct (updateNodeById_in_place
              (pushChild (leafNode (fst (generateId st))
                                   (orDefault nm "New Node")))
              parentId (treeData st) parent 0%nat Hf)
    as (t' & pre & post & d & Hu & E1 & E2).
  unfold addChild. rewrite He, Hf. cbn [negb].
  rewrite generateId_eq in *. cbn [fst] in *.
  eexists. exists pre, post, d. split; [reflexivity|].
  split; [exact E1|].
  rewrite setStatus_treeData. cbn [treeData with_tree with_counter config].
  rewrite outline_render. unfold mutateNode. rewrite Hu.
  unfold outline. rewrite E2, pushChild_outline, outlineAt_leafNode.
  now rewrite <- app_assoc.
Qed.

Lemma first_child_with_id i parent :
  existsb (hasId i) (childArray parent) = true ->
  exists l1 c l2,
    childArray parent = (l1 ++ c :: l2)%list
    /\ find (hasId i) (childArray parent) = Some c
    /\ hasId i c = true
    /\ findIndex (hasId i) (childArray parent) = Z.of_nat (List.length l1).
Proof.
  intros H. destruct (findIndex_split _ _ H) as (l1 & c & l2 & E & Hc & Hl & Hi).
  exists l1, c, l2. rewrite Hi. rewrite E at 2. repeat split; try assumption.
  now apply find_first_split.
Qed.

(** X10. A successful [addSibling] changes the outline of the tree in one
    place: right after the subtree of the first child with the id, in the
    parent found, one entry is added at the depth of that child, with the
    generated id and the name given (or "New Node"). *)
Theorem addSibling_inserts_after_sibling :
  forall (st : MindMap) (nodeId : string) (nm : option string) (parent : Node),
    editable (config st) = true ->
    findParentById (treeData st) nodeId = Some parent ->
    exists st' pre post d c,
      addSibling st nodeId nm = (st', true)
      /\ find (hasId nodeId) (childArray parent) = Some c
      /\ outline (treeData st) = (pre ++ outlineAt d c ++ post)%list
      /\ outline (treeData st')
         = (pre ++ outlineAt d c
                ++ (d, (fst (generateId st), orDefault nm "New Node"))
                :: post)%list.
Proof.
  intros st nodeId nm parent He Hf.
  rewrite generateId_eq. cbn [fst].
  remember (leafNode (idOf (nextCounter (nodeIdCounter st)))
                     (orDefault nm "New Node")) as new eqn:En.
  destruct (updateParentById_in_place (insertSibling nodeId new) nodeId
              (treeData st) parent 0%nat Hf)
    as (t' & pre & post & d & Hu & E1 & E2).
  destruct (findParentById_sound _ _ _ Hf) as [_ Hex].
  destruct (first_child_with_id _ _ Hex) as (l1 & c & l2 & Ec & Hfind & Hc & Hi).
  unfold addSibling. rewrite He, Hf. cbn [negb].
  rewrite generateId_eq. rewrite <- En.
  eexists.
  exists (pre ++ (d, label parent) :: flat_map (outlineAt (S d)) l1)%list,
    (flat_map (outlineAt (S d)) l2 ++ post)%list, (S d), c.
  split; [reflexivity|]. split; [exact Hfind|].
  rewrite setStatus_treeData. cbn [treeData with_tree with_counter config].
  rewrite outline_render. unfold mutateParent. rewrite Hu.
  unfold outline. rewrite E1, E2.
  rewrite (outlineAt_eq d parent), (outlineAt_eq d (insertSibling _ _ _)).
  change (label (insertSibling nodeId new parent)) with (label parent).
  change (childArray (insertSibling nodeId new parent))
    with (spliceInsert (childArray parent)
            (findIndex (hasId nodeId) (childArray parent) + 1) new).
  rewrite Hi, Ec, spliceInsert_after, !flat_map_app.
  cbn [flat_map]. rewrite En at 1. rewrite outlineAt_leafNode.
  split; rewrite <- ?app_assoc; cbn [app]; rewrite <- ?app_assoc; reflexivity.
Qed.

Lemma NoDup_drop_middle {A} (a b c : list A) :
  NoDup (a ++ b ++ c) ->
  NoDup (a ++ c) /\ forall x, In x b -> ~ In x (a ++ c).
Proof.
  induction b as [|y b IH]; simpl; [intros H; split; [exact H | tauto]|].
  intros H. pose proof (NoDup_remove_1 _ _ _ H) as H1.
  pose proof (NoDup_remove_2 _ _ _ H) as H2.
  destruct (IH H1) as [Hn Hb]. split; [exact Hn|].
  intros x [<-|Hx]; [|now apply Hb].
  intros Hin. apply H2. apply in_app_iff in Hin. apply in_app_iff.
  destruct Hin as [Hin|Hin]; [now left|]. right. apply in_app_iff. now right.
Qed.

Lemma deleteNode_outline st nodeId parent :
  editable (config st) = true ->
  nodeId <> id (fields (treeData st)) ->
  findParentById (treeData st) nodeId = Some parent ->
  exists st' pre post d c,
    deleteNode st nodeId = (st', true)
    /\ find (hasId nodeId) (childArray parent) = Some c
    /\ outline (treeData st) = (pre ++ outlineAt d c ++ post)%list
    /\ outline (treeData st') = (pre ++ post)%list
    /\ nodeIdCounter st' = nodeIdCounter st
    /\ config st' = config st.
Proof.
  intros He Hr Hf.
  destruct (updateParentById_in_place (removeChild nodeId) nodeId
              (treeData st) parent 0%nat Hf)
    as (t' & pre & post & d & Hu & E1 & E2).
  destruct (findParentById_sound _ _ _ Hf) as [_ Hex].
  destruct (first_child_with_id _ _ Hex) as (l1 & c & l2 & Ec & Hfind & Hc & Hi).
  unfold deleteNode. rewrite He, Hf. cbn [negb].
  apply String.eqb_neq in Hr. rewrite Hr.
  eexists.
  exists (pre ++ (d, label parent) :: flat_map (outlineAt (S d)) l1)%list,
    (flat_map (outlineAt (S d)) l2 ++ post)%list, (S d), c.
  split; [reflexivity|]. split; [exact Hfind|].
  rewrite setStatus_treeData, setStatus_counter, setStatus_config.
  cbn [treeData with_tree config nodeIdCounter].
  rewrite outline_render. unfold mutateParent. rewrite Hu.
  split; [|split; [|split; reflexivity]].
  - unfold outline. rewrite E1, (outlineAt_eq d parent), Ec, flat_map_app.
    cbn [flat_map]. rewrite <- !app_assoc. cbn [app].
    now rewrite <- !app_assoc.
  - unfold outline. rewrite E2, (outlineAt_eq d (removeChild _ _)).
    change (label (removeChild nodeId parent)) with (label parent).
    change (childArray (removeChild nodeId parent))
      with (spliceRemove (childArray parent)
              (findIndex (hasId nodeId) (childArray parent))).
    rewrite Hi, Ec, spliceRemove_at, flat_map_app.
    rewrite <- !app_assoc. cbn [app]. now rewrite <- !app_assoc.
Qed.

(** X11. A successful [deleteNode] takes out of the outline of the tree the
    subtree of the first child with the id, in the parent found, and nothing
    else; if the ids of the tree were distinct they still are, and the id is
    no longer found. *)
Theorem deleteNode_removes_subtree :
  forall (st : MindMap) (nodeId : string) (parent : Node),
    editable (config st) = true ->
    nodeId <> id (fields (treeData st)) ->
    findParentById (treeData st) nodeId = Some parent ->
    exists st' pre post d c,
      deleteNode st nodeId = (st', true)
      /\ find (hasId nodeId) (childArray parent) = Some c
      /\ outline (treeData st) = (pre ++ outlineAt d c ++ post)%list
      /\ outline (treeData st') = (pre ++ post)%list
      /\ (NoDup (ids (treeData st)) ->
          NoDup (ids (treeData st'))
          /\ findNodeById (treeData st') nodeId = None).
Proof.
  intros st nodeId parent He Hr Hf.
  destruct (deleteNode_outline st nodeId parent He Hr Hf)
    as (st' & pre & post & d & c & Hd & Hfind & A & B & _).
  exists st', pre, post, d, c.
  do 4 (split; [assumption|]).
  intros Hnd. rewrite ids_outline, A, !map_app in Hnd.
  destruct (NoDup_drop_middle _ _ _ Hnd) as [Hn Hb].
  rewrite ids_outline, B, map_app. split; [exact Hn|].
  apply findNodeById_none_iff. rewrite ids_outline, B, map_app. apply Hb.
  rewrite (outlineAt_eq d c). left. cbn [fst snd label].
  apply find_some in Hfind. destruct Hfind as [_ Hc].
  now apply String.eqb_eq.
Qed.

Lemma ids_eq t :
  ids t = id (fields t) :: map (fun m => id (fields m)) (descendants t).
Proof. unfold ids, descendants. now rewrite preorder_eq. Qed.

(** X12. In a tree whose ids are distinct the root has no parent:
    [findParentById] returns [null] for the id of the root, and [addSibling]
    called with it fails and changes nothing.  Any id that a node below the
    root has does have a parent. *)
Theorem addSibling_refused_for_root :
  forall (st : MindMap) (nm : option string),
    (NoDup (ids (treeData st)) ->
     findParentById (treeData st) (id (fields (treeData st))) = None
     /\ addSibling st (id (fields (treeData st))) nm = (st, false))
    /\ (forall i,
           In i (map (fun m => id (fields m)) (descendants (treeData st))) ->
           findParentById (treeData st) i <> None).
Proof.
  intros st nm. split.
  - intros Hnd. rewrite ids_eq in Hnd. apply NoDup_cons_iff in Hnd.
    destruct Hnd as [Hn _].
    assert (E : findParentById (treeData st) (id (fields (treeData st))) = None)
      by (now apply findParentById_none_iff).
    split; [exact E|]. apply addSibling_refused. now right.
  - intros i Hi E. apply findParentById_none_iff in E. contradiction.
Qed.

(** X13. Below 2^53, [generateId] steps the counter by one and returns
    "node_" followed by its decimal digits, an id different from every id
    made of a smaller or equal counter value: the instance never hands out
    an id a second time. *)
Theorem generateId_never_repeats :
  forall (st : MindMap),
    (nodeIdCounter st < maxExact)%N ->
    fst (generateId st) = idOf (nodeIdCounter st + 1)
    /\ nodeIdCounter (snd (generateId st)) = (nodeIdCounter st + 1)%N
    /\ treeData (snd (generateId st)) = treeData st
    /\ forall k, (k <= nodeIdCounter st)%N -> fst (generateId st) <> idOf k.
Proof.
  intros st H. rewrite generateId_eq, (nextCounter_below _ H). cbn [fst snd].
  repeat split. intros k Hk E. apply idOf_inj in E. lia.
Qed.

Lemma findNodeById_id t i n :
  findNodeById t i = Some n -> id (fields n) = i.
Proof.
  revert n. induction t as [f|f cs IH] using Node_rect_children; intros n;
    rewrite findNodeById_eq; unfold childArray; cbn [children fields];
    destruct (String.eqb (id f) i) eqn:Ei;
    try (intros [= <-]; now apply String.eqb_eq); try discriminate.
  induction IH as [|c cs Hc _ IHcs]; simpl; [discriminate|].
  destruct (findNodeById c i) as [m|]; [intros [= <-]; now apply Hc | exact IHcs].
Qed.

(** X14. A successful [renameNode] changes one entry of the outline of the
    tree and nothing else: the entry of the node found keeps its depth and
    its id, and its name becomes the new name (or "Unnamed"). *)
Theorem renameNode_changes_one_name :
  forall (st : MindMap) (nodeId : string) (newName : option string)
         (node : Node),
    editable (config st) = true ->
    findNodeById (treeData st) nodeId = Some node ->
    exists st' pre post d,
      renameNode st nodeId newName = (st', true)
      /\ outline (treeData st)
         = (pre ++ (d, (nodeId, name (fields node))) :: post)%list
      /\ outline (treeData st')
         = (pre ++ (d, (nodeId, orDefault newName "Unnamed")) :: post)%list.
Proof.
  intros st nodeId newName node He Hf.
  destruct (updateNodeById_in_place
              (renamed (orDefault newName "Unnamed")) nodeId (treeData st)
              node 0%nat Hf)
    as (t' & pre & post & d & Hu & E1 & E2).
  pose proof (findNodeById_id _ _ _ Hf) as Hid.
  unfold renameNode. rewrite He, Hf. cbn [negb].
  eexists.
  exists pre, (flat_map (outlineAt (S d)) (childArray node) ++ post)%list, d.
  split; [reflexivity|].
  rewrite setStatus_treeData. cbn [treeData with_tree].
  rewrite outline_render. unfold mutateNode. rewrite Hu.
  unfold outline. rewrite E1, E2.
  rewrite (outlineAt_eq d node), (outlineAt_eq d (renamed _ node)).
  unfold label. cbn [renamed fields set_name id name]. rewrite Hid.
  change (childArray (renamed (orDefault newName "Unnamed") node))
    with (childArray node).
  split; reflexivity.
Qed.

(** ** The edit session *)












(** X15. Only one edit session at a time.  [startEdit] changes nothing when
    editing is disabled, when a session is open or when no node has the id;
    otherwise it opens a session on the node: [isEditing] and [editingNode]
    are set together and every other field of the instance is as before.  So
    a second [startEdit] while a session is open is ignored, and
    [editingNode] is set exactly while a session is open. *)
Theorem startEdit_opens_one_session :
  forall (st : MindMap) (a b : string),
    (editable (config st) = false \/ isEditing st = true
     \/ findNodeById (treeData st) a = None ->
     startEdit st a = st)
    /\ (editable (config st) = true -> isEditing st = false ->
        findNodeById (treeData st) a <> None ->
        startEdit st a = with_editing true (Some a) st)
    /\ (isEditing st = true -> startEdit st a = st)
    /\ (isEditing (startEdit st a) = true ->
        startEdit (startEdit st a) b = startEdit st a)
    /\ (isEditing st = false -> isEditing (startEdit st a) = true ->
        editable (config st) = true
        /\ findNodeById (treeData st) a <> None
        /\ editingNode (startEdit st a) = Some a)
    /\ (sessionConsistent st -> sessionConsistent (startEdit st a)).
Proof.
  intros st a b. unfold startEdit.
  split.
  { intros [H|[H|H]].
    - now rewrite H.
    - now rewrite H, orb_true_r.
    - rewrite H. now destruct (negb (editable (config st)) || isEditing st). }
  split.
  { intros He Hi Hf. rewrite He, Hi. cbn [negb orb].
    destruct (findNodeById (treeData st) a); [reflexivity | contradiction]. }
  split; [intros ->; now rewrite orb_true_r|].
  split.
  - destruct (negb (editable (config st)) || isEditing st) eqn:E.
    + intros H. now rewrite E.
    + destruct (findNodeById (treeData st) a); cbn.
      * intros _. now rewrite orb_true_r.
      * intros H. rewrite H, orb_true_r in E. discriminate.
  - split.
    + intros H. rewrite H, orb_false_r.
      destruct (editable (config st)); cbn [negb];
        [|intros H'; rewrite H in H'; discriminate].
      destruct (findNodeById (treeData st) a);
        [repeat split; discriminate|].
      intros H'. rewrite H in H'. discriminate.
    + intros Hs. destruct (negb (editable (config st)) || isEditing st);
        [exact Hs|].
      destruct (findNodeById (treeData st) a); [|exact Hs].
      left. split; [reflexivity | discriminate].
Qed.


(** ** The context menu *)

(** X17. When the context menu comes up for a node, it offers rename and
    add-child, and for a node other than the root also add-sibling and
    delete (delete is never offered for the root); every operation it
    offers succeeds when run on the same tree. *)
Theorem contextMenu_offers_what_succeeds :
  forall (st : MindMap) (nodeId : string) (items : list MenuItem),
    contextMenuItems st nodeId = Some items ->
    map itemAction items
    = (if String.eqb nodeId (id (fields (treeData st)))
       then [ActRename; ActAddChild]
       else [ActRename; ActAddChild; ActAddSibling; ActDelete])
    /\ forall item nm,
         In item items ->
         match itemAction item with
         | ActRename =>
             isEditing st = false ->
             isEditing (startEdit st nodeId) = true
             /\ editingNode (startEdit st nodeId) = Some nodeId
         | ActAddChild => snd (addChild st nodeId nm) = true
         | ActAddSibling => snd (addSibling st nodeId nm) = true
         | ActDelete => snd (deleteNode st nodeId) = true
         end.
Proof.
  intros st nodeId items. unfold contextMenuItems.
  destruct (editable (config st)) eqn:He; cbn [negb]; [|discriminate].
  destruct (findNodeById (treeData st) nodeId) as [node|] eqn:Ef;
    [|discriminate].
  intros [= <-].
  destruct (String.eqb nodeId (id (fields (treeData st)))) eqn:Er;
    (split; [reflexivity|]); intros item nm Hin.
  - destruct Hin as [<-|[<-|[]]]; cbn [itemAction].
    + intros Hed. unfold startEdit. now rewrite He, Hed, Ef.
    + destruct (addChild_done st nodeId nm node He Ef) as (st' & -> & _).
      reflexivity.
  - assert (Hp : findParentById (treeData st) nodeId <> None).
    { intros E. apply findParentById_none_iff in E. apply E.
      assert (Hi : In nodeId (ids (treeData st))).
      { destruct (in_dec string_dec nodeId (ids (treeData st))) as [H|H];
          [exact H|].
        apply findNodeById_none_iff in H. rewrite H in Ef. discriminate. }
      rewrite ids_eq in Hi. destruct Hi as [Hi|Hi]; [|exact Hi].
      apply String.eqb_neq in Er. congruence. }
    destruct (findParentById (treeData st) nodeId) as [p|] eqn:Ep;
      [|contradiction].
    destruct Hin as [<-|[<-|[<-|[<-|[]]]]]; cbn [itemAction].
    + intros Hed. unfold startEdit. now rewrite He, Hed, Ef.
    + destruct (addChild_done st nodeId nm node He Ef) as (st' & -> & _).
      reflexivity.
    + destruct (addSibling_done st nodeId nm p He Ep) as (st' & -> & _).
      reflexivity.
    + unfold deleteNode. now rewrite He, Er, Ep.
Qed.

(** ** Viewport: wheel, drag and touch *)

Lemma viewCenter_is_canvas_centre cfg rect :
  r_width rect <> 0 -> r_height rect <> 0 ->
  viewCenter cfg rect = mkPoint (width cfg / 2) (height cfg / 2).
Proof.
  intros Hw Hh. unfold viewCenter, screenToSvg. f_equal; field; assumption.
Qed.

(** X18. A wheel event scales the view about the centre of the canvas
    ([width]/2, [height]/2), wherever the element lies on the screen and
    wherever the pointer is: every point of the diagram moves to 0.9 or 1.1
    times its displacement from that centre, and the zoom is multiplied by
    the same factor.  A step inwards followed by a step outwards leaves the
    zoom at 0.99 of what it was. *)
Theorem wheel_scales_about_canvas_centre :
  forall (st : MindMap) (rect : Rect) (deltaY : R) (p : Point),
    isEditing st = false ->
    zoom st <> 0 ->
    r_width rect <> 0 -> r_height rect <> 0 ->
    let k := if Rlt_dec 0 deltaY then 9 / 10 else 11 / 10 in
    let cx := width (config st) / 2 in
    let cy := height (config st) / 2 in
    zoom (handleWheel st rect deltaY) = zoom st * k
    /\ toCanvas (handleWheel st rect deltaY) p
       = mkPoint (cx + k * (pt_x (toCanvas st p) - cx))
                 (cy + k * (pt_y (toCanvas st p) - cy))
    /\ zoom (handleWheel (handleWheel st rect (-1)) rect 1)
       = zoom st * (99 / 100).
Proof.
  intros st rect deltaY p He Hz Hw Hh k cx cy.
  split; [apply (handleWheel_idle _ _ _ He)|]. split.
  - unfold handleWheel. rewrite He.
    rewrite (viewCenter_is_canvas_centre _ _ Hw Hh).
    fold k. unfold toCanvas. cbn [zoom offsetX offsetY with_view pt_x pt_y].
    fold cx cy. f_equal; field; assumption.
  - destruct (handleWheel_idle st rect (-1) He) as [Hz1 He1].
    destruct (handleWheel_idle _ rect 1 He1) as [Hz2 _].
    rewrite Hz2, Hz1.
    destruct (Rlt_dec 0 (-1)); destruct (Rlt_dec 0 1); lra.
Qed.

Lemma mouseMoves_app st path q :
  mouseMoves st (path ++ [q])
  = handleMouseMove (mouseMoves st path) (fst q) (snd q).
Proof. unfold mouseMoves. now rewrite fold_left_app. Qed.

Lemma handleMouseMove_keeps st x y :
  isDragging (handleMouseMove st x y) = isDragging st
  /\ dragStart (handleMouseMove st x y) = dragStart st
  /\ isEditing (handleMouseMove st x y) = isEditing st
  /\ zoom (handleMouseMove st x y) = zoom st.
Proof.
  unfold handleMouseMove.
  destruct (negb (isDragging st) || isEditing st); [tauto|].
  destruct (dragStart st) eqn:E; cbn; rewrite ?E; repeat split.
Qed.

Lemma mouseMoves_keeps st path :
  isDragging (mouseMoves st path) = isDragging st
  /\ dragStart (mouseMoves st path) = dragStart st
  /\ isEditing (mouseMoves st path) = isEditing st
  /\ zoom (mouseMoves st path) = zoom st.
Proof.
  revert st. induction path as [|q path IH]; intros st; [repeat split|].
  unfold mouseMoves. cbn [fold_left]. fold (mouseMoves (handleMouseMove st (fst q) (snd q)) path).
  destruct (IH (handleMouseMove st (fst q) (snd q))) as (A & B & C & D).
  destruct (handleMouseMove_keeps st (fst q) (snd q)) as (A' & B' & C' & D').
  rewrite A, B, C, D. repeat split; assumption.
Qed.

(** X19. Dragging with the mouse pans by the displacement of the pointer:
    after a [mousedown] at (x0, y0) and any number of [mousemove]s, the last
    one at (x, y), the offset is the offset at [mousedown] plus
    (x - x0, y - y0), whatever path the pointer took, and the zoom is as
    before.  After [mouseup], and on an instance that saw no [mousedown],
    [mousemove] changes nothing. *)
Theorem drag_pans_by_pointer_displacement :
  forall (st : MindMap) (x0 y0 x y : R) (path : list (R * R)),
    isEditing st = false ->
    let st' := mouseMoves (handleMouseDown st x0 y0) (path ++ [(x, y)]) in
    offsetX st' = offsetX st + (x - x0)
    /\ offsetY st' = offsetY st + (y - y0)
    /\ zoom st' = zoom st
    /\ (forall x' y',
           handleMouseMove (handleMouseUp st') x' y' = handleMouseUp st')
    /\ (isDragging st = false ->
        forall x' y', handleMouseMove st x' y' = st).
Proof.
  intros st x0 y0 x y path He st'.
  assert (Hd : handleMouseDown st x0 y0
               = with_drag true
                   (Some (mkDragStart x0 y0 (offsetX st) (offsetY st))) st)
    by (unfold handleMouseDown; now rewrite He).
  destruct (mouseMoves_keeps (handleMouseDown st x0 y0) path)
    as (A & B & C & D).
  rewrite Hd in A at 2. rewrite Hd in B at 2. rewrite Hd in C at 2.
  rewrite Hd in D at 2.
  cbn [isDragging dragStart isEditing zoom with_drag] in A, B, C, D.
  assert (E : st' = with_view (zoom st) (offsetX st + (x - x0))
                              (offsetY st + (y - y0))
                              (mouseMoves (handleMouseDown st x0 y0) path)).
  { unfold st'. rewrite mouseMoves_app. cbn [fst snd].
    unfold handleMouseMove. rewrite A, B, C, D, He. reflexivity. }
  rewrite E. cbn [offsetX offsetY zoom with_view].
  do 3 (split; [reflexivity|]). split.
  - intros x' y'. unfold handleMouseMove, handleMouseUp. reflexivity.
  - intros Hn x' y'. unfold handleMouseMove. now rewrite Hn.
Qed.

Lemma handleTouchStart_two st rect a b :
  isEditing st = false ->
  handleTouchStart st rect (mkTouchEvent [a; b] false)
  = let center := getTouchCenter a b in
    let svgCenter := screenToSvg (config st) rect (pt_x center) (pt_y center) in
    with_touch false true
      (Some (mkTouchStart (pt_x center) (pt_y center) (offsetX st) (offsetY st)
               (Some (mkPinchStart (zoom st) (pt_x svgCenter)
                                   (pt_y svgCenter)))))
      (Some (getTouchDistance a b)) (Some center) st.
Proof. intros He. unfold handleTouchStart. now rewrite He. Qed.

Lemma handleTouchMove_pinch st rect a b a' b' :
  isEditing st = false ->
  getTouchDistance a b <> 0 ->
  forall s z ox oy,
    s = with_view z ox oy
          (handleTouchStart st rect (mkTouchEvent [a; b] false)) ->
    handleTouchMove s rect (mkTouchEvent [a'; b'] false)
    = let c := getTouchCenter a b in
      let c' := getTouchCenter a' b' in
      let svgC := screenToSvg (config st) rect (pt_x c) (pt_y c) in
      let svgC' := screenToSvg (config st) rect (pt_x c') (pt_y c') in
      let newZoom :=
        clampZoom (zoom st * (getTouchDistance a' b' / getTouchDistance a b)) in
      Some (with_view newZoom
              (pt_x svgC' - (pt_x svgC - offsetX st) / zoom st * newZoom
               + (pt_x c' - pt_x c))
              (pt_y svgC' - (pt_y svgC - offsetY st) / zoom st * newZoom
               + (pt_y c' - pt_y c))
              (handleTouchStart st rect (mkTouchEvent [a; b] false))).
Proof.
  intros He Hd s z ox oy ->. rewrite (handleTouchStart_two _ _ _ _ He).
  unfold handleTouchMove.
  cbn [isTouching isEditing with_view with_touch negb orb onNode touches
       touchStart lastTouchDistance lastTouchCenter t_pinch].
  rewrite He. cbn [orb].
  destruct (Req_dec_T (getTouchDistance a b) 0) as [E|_]; [contradiction|].
  reflexivity.
Qed.

(** X20. A pinch: two touches go down (at distinct points) and move.  The
    move succeeds; the zoom becomes the zoom at touch-down times the ratio of
    the finger distances, clamped to [0.1, 5]; the point of the diagram that
    was under the centre of the two touches is drawn at the canvas position
    of their new centre, displaced once more by the movement of the centre
    on the screen (so it stays under the centre when the centre does not
    move).  Each move is computed from the touch-down, not from the move
    before it. *)
Theorem pinch_zooms_about_touch_centre :
  forall (st : MindMap) (rect : Rect) (a b a' b' : Touch) (F : Point),
    isEditing st = false ->
    getTouchDistance a b <> 0 ->
    zoom st <> 0 ->
    let st1 := handleTouchStart st rect (mkTouchEvent [a; b] false) in
    let c := getTouchCenter a b in
    let c' := getTouchCenter a' b' in
    exists st2,
      handleTouchMove st1 rect (mkTouchEvent [a'; b'] false) = Some st2
      /\ zoom st2
         = clampZoom (zoom st * (getTouchDistance a' b' / getTouchDistance a b))
      /\ 1 / 10 <= zoom st2 <= 5
      /\ (toCanvas st F = screenToSvg (config st) rect (pt_x c) (pt_y c) ->
          toCanvas st2 F
          = mkPoint (pt_x (screenToSvg (config st) rect (pt_x c') (pt_y c'))
                     + (pt_x c' - pt_x c))
                    (pt_y (screenToSvg (config st) rect (pt_x c') (pt_y c'))
                     + (pt_y c' - pt_y c)))
      /\ (forall a2 b2,
             handleTouchMove st2 rect (mkTouchEvent [a2; b2] false)
             = handleTouchMove st1 rect (mkTouchEvent [a2; b2] false)).
Proof.
  intros st rect a b a' b' F He Hd Hz st1 c c'.
  assert (E1 : st1 = with_view (zoom st1) (offsetX st1) (offsetY st1) st1).
  { unfold st1. rewrite (handleTouchStart_two _ _ _ _ He). reflexivity. }
  pose proof (handleTouchMove_pinch st rect a b a' b' He Hd st1 _ _ _ E1) as Hm.
  cbv zeta in Hm. fold c c' st1 in Hm.
  eexists. split; [exact Hm|].
  cbn [zoom with_view]. split; [reflexivity|].
  split; [apply clampZoom_bounds|]. split.
  - intros HF. unfold toCanvas in *.
    cbn [zoom offsetX offsetY with_view pt_x pt_y].
    remember (clampZoom _) as nz eqn:En. clear En.
    remember (screenToSvg (config st) rect (pt_x c) (pt_y c)) as sc eqn:Es.
    clear Es. destruct sc as [sx sy]. injection HF as Hx Hy.
    cbn [pt_x pt_y]. rewrite <- Hx, <- Hy. f_equal; field; assumption.
  - intros a2 b2.
    rewrite (handleTouchMove_pinch st rect a b a2 b2 He Hd st1 _ _ _ E1).
    fold st1.
    rewrite (handleTouchMove_pinch st rect a b a2 b2 He Hd _ _ _ _ eq_refl).
    reflexivity.
Qed.

(** X21. One finger pans: after a touch goes down on the background and
    moves, the offset is the offset at touch-down plus the displacement of
    the finger and the zoom is unchanged; once all touches have ended, a
    touch move changes nothing. *)
Theorem touch_pan_follows_finger :
  forall (st : MindMap) (rect : Rect) (a a' : Touch),
    isEditing st = false ->
    let st1 := handleTouchStart st rect (mkTouchEvent [a] false) in
    exists st2,
      handleTouchMove st1 rect (mkTouchEvent [a'] false) = Some st2
      /\ zoom st2 = zoom st
      /\ offsetX st2 = offsetX st + (clientX a' - clientX a)
      /\ offsetY st2 = offsetY st + (clientY a' - clientY a)
      /\ forall e,
           handleTouchMove (handleTouchEnd st2 (mkTouchEvent [] false)) rect e
           = Some (handleTouchEnd st2 (mkTouchEvent [] false)).
Proof.
  intros st rect a a' He st1. unfold st1, handleTouchStart. rewrite He.
  cbn [onNode touches]. unfold handleTouchMove.
  cbn [isTouching isEditing with_touch negb orb onNode touches touchStart
       isDragging]. rewrite He. cbn [orb].
  eexists. split; [reflexivity|].
  cbn [zoom offsetX offsetY with_view with_touch t_ox t_oy t_x t_y].
  repeat split.
Qed.

(** X22. Lifting one of two fingers turns the pinch into a pan without a
    jump: the view stays as the pinch left it, and moving the remaining
    finger pans by its displacement from where it was when the other one was
    lifted. *)
Theorem lifting_a_finger_continues_as_pan :
  forall (st : MindMap) (rect : Rect) (a b a' b' r r' : Touch) (st2 : MindMap),
    isEditing st = false ->
    getTouchDistance a b <> 0 ->
    handleTouchMove (handleTouchStart st rect (mkTouchEvent [a; b] false)) rect
                    (mkTouchEvent [a'; b'] false) = Some st2 ->
    let st3 := handleTouchEnd st2 (mkTouchEvent [r] false) in
    zoom st3 = zoom st2 /\ offsetX st3 = offsetX st2
    /\ offsetY st3 = offsetY st2
    /\ exists st4,
         handleTouchMove st3 rect (mkTouchEvent [r'] false) = Some st4
         /\ zoom st4 = zoom st2
         /\ offsetX st4 = offsetX st2 + (clientX r' - clientX r)
         /\ offsetY st4 = offsetY st2 + (clientY r' - clientY r).
Proof.
  intros st rect a b a' b' r r' st2 He Hd Hm st3.
  assert (E1 : handleTouchStart st rect (mkTouchEvent [a; b] false)
               = with_view (zoom st) (offsetX st) (offsetY st)
                   (handleTouchStart st rect (mkTouchEvent [a; b] false))).
  { rewrite (handleTouchStart_two _ _ _ _ He). reflexivity. }
  rewrite (handleTouchMove_pinch st rect a b a' b' He Hd _ _ _ _ E1) in Hm.
  cbv zeta in Hm. injection Hm as <-.
  unfold st3. rewrite (handleTouchStart_two _ _ _ _ He). cbv zeta.
  unfold handleTouchEnd.
  cbn [isTouching with_view with_touch negb onNode touches lastTouchDistance].
  destruct (Req_dec_T (getTouchDistance a b) 0) as [E|_]; [contradiction|].
  cbn [zoom offsetX offsetY with_touch with_view].
  repeat split.
  unfold handleTouchMove.
  cbn [isTouching isEditing with_view with_touch negb orb onNode touches
       touchStart isDragging]. rewrite He.
  eexists. split; [reflexivity|].
  cbn [zoom offsetX offsetY with_view with_touch t_ox t_oy t_x t_y].
  repeat split.
Qed.

(** ** Drawing *)

Lemma drawNodes_eq n :
  drawNodes n
  = (id (fields n), nodeClass n) :: flat_map drawNodes (childArray n).
Proof. destruct n as [f [cs|]]; reflexivity. Qed.

Lemma drawNodes_layoutChildren cfg total k depth cs :
  Forall (fun c => forall s e d,
              drawNodes (erase (layout cfg (annotate c) s e d))
              = map (fun m => (id (fields m), classByData m)) (preorder c)) cs ->
  forall angle,
    flat_map drawNodes
      (map erase (layoutChildren cfg total k depth (map annotate cs) angle))
    = map (fun m => (id (fields m), classByData m)) (flat_map preorder cs).
Proof.
  induction 1 as [|c cs Hc _ IH]; intros angle; simpl; [reflexivity|].
  now rewrite Hc, IH, map_app.
Qed.

Lemma drawNodes_layout cfg n :
  forall s e d,
    drawNodes (erase (layout cfg (annotate n) s e d))
    = map (fun m => (id (fields m), classByData m)) (preorder n).
Proof.
  induction n as [f|f cs IH] using Node_rect_children; intros s e d;
    rewrite erase_layout, drawNodes_eq, preorder_eq, children_annotate,
      fields_annotate; unfold childArray; cbn [children fields map].
  - unfold nodeClass, classByData. cbn.
    destruct (_isRoot f) as [[|]|]; reflexivity.
  - f_equal. now apply drawNodes_layoutChildren.
Qed.

(** X23. What [draw] makes of a rendered tree: one element per node, in
    pre-order, under the node's id.  The element of the root has class
    "root"; below it a node is a "leaf" exactly when it has no children (no
    [children] key or an empty array) and a "branch" otherwise, unless the
    data given for it carry [_isRoot: true], which makes it a "root" as
    well. *)
Theorem draw_classes_follow_shape :
  forall (cfg : Config) (t : Node),
    drawNodes (render cfg t)
    = (id (fields t), ClassRoot)
      :: map (fun m => (id (fields m), classByData m)) (descendants t).
Proof.
  intros cfg t. unfold render, renderPlaced.
  rewrite erase_layoutRoot, drawNodes_eq, children_annotate, fields_annotate.
  unfold descendants, childArray. cbn [children fields].
  f_equal. destruct (children t) as [cs|]; [|reflexivity].
  apply drawNodes_layoutChildren, Forall_forall.
  intros c _. apply drawNodes_layout.
Qed.

(** ** A fresh instance *)

Lemma deleteNode_keeps_unique st nodeId :
  NoDup (ids (treeData st)) -> aheadOfIds st ->
  NoDup (ids (treeData (fst (deleteNode st nodeId))))
  /\ aheadOfIds (fst (deleteNode st nodeId))
  /\ nodeIdCounter (fst (deleteNode st nodeId)) = nodeIdCounter st.
Proof.
  intros Hnd Hah.
  destruct (editable (config st)) eqn:He.
  2:{ unfold deleteNode. rewrite He. cbn. auto. }
  destruct (String.eqb nodeId (id (fields (treeData st)))) eqn:Er.
  { unfold deleteNode. rewrite He, Er. cbn [negb fst].
    unfold aheadOfIds.
    rewrite setStatus_treeData, setStatus_counter. auto. }
  destruct (findParentById (treeData st) nodeId) as [p|] eqn:Ef.
  2:{ unfold deleteNode. rewrite He, Er, Ef. cbn. auto. }
  apply String.eqb_neq in Er.
  destruct (deleteNode_outline st nodeId p He Er Ef)
    as (st' & pre & post & d & c & -> & _ & A & B & Hc & _).
  cbn [fst]. unfold aheadOfIds in *.
  rewrite Hc, !ids_outline, B. rewrite ids_outline, A in Hnd, Hah.
  rewrite !map_app in *.
  split; [apply (NoDup_drop_middle _ _ _ Hnd)|]. split; [|reflexivity].
  intros k Hk Hin. apply (Hah k Hk).
  apply in_app_iff in Hin. rewrite !in_app_iff. tauto.
Qed.

Lemma renameNode_keeps_unique st nodeId newName :
  NoDup (ids (treeData st)) -> aheadOfIds st ->
  NoDup (ids (treeData (fst (renameNode st nodeId newName))))
  /\ aheadOfIds (fst (renameNode st nodeId newName))
  /\ nodeIdCounter (fst (renameNode st nodeId newName)) = nodeIdCounter st.
Proof.
  intros Hnd Hah.
  destruct (editable (config st)) eqn:He.
  2:{ rewrite renameNode_refused by now left. cbn. auto. }
  destruct (findNodeById (treeData st) nodeId) as [node|] eqn:Ef.
  2:{ rewrite renameNode_refused by now right. cbn. auto. }
  destruct (renameNode_done st nodeId newName node He Ef)
    as (st' & node' & E & _ & _ & Hi).
  assert (Hc : nodeIdCounter (fst (renameNode st nodeId newName))
               = nodeIdCounter st).
  { unfold renameNode. rewrite He, Ef. cbn [negb fst].
    now rewrite setStatus_counter. }
  rewrite E in *. cbn [fst] in *. unfold aheadOfIds. rewrite Hc, Hi. auto.
Qed.

Lemma applyEdit_keeps_unique st e :
  (nodeIdCounter st < maxExact)%N ->
  NoDup (ids (treeData st)) -> aheadOfIds st ->
  NoDup (ids (treeData (applyEdit st e))) /\ aheadOfIds (applyEdit st e)
  /\ (nodeIdCounter (applyEdit st e) <= nodeIdCounter st + 1)%N.
Proof.
  intros Hlt Hnd Hah. destruct e as [i nm|i nm|i|i nm].
  - apply (applyOp_keeps_unique st (AddChild i nm) Hlt Hnd Hah).
  - apply (applyOp_keeps_unique st (AddSibling i nm) Hlt Hnd Hah).
  - destruct (deleteNode_keeps_unique st i Hnd Hah) as (A & B & C).
    cbn [applyEdit]. rewrite C. repeat split; try assumption. lia.
  - destruct (renameNode_keeps_unique st i nm Hnd Hah) as (A & B & C).
    cbn [applyEdit]. rewrite C. repeat split; try assumption. lia.
Qed.

Lemma edits_keep_unique es :
  forall st,
    NoDup (ids (treeData st)) -> aheadOfIds st ->
    (nodeIdCounter st + N.of_nat (List.length es) <= maxExact)%N ->
    NoDup (ids (treeData (edits es st))).
Proof.
  induction es as [|e es IH]; intros st Hnd Hah Hb; [exact Hnd|].
  unfold edits. cbn [fold_left].
  assert (Hlt : (nodeIdCounter st < maxExact)%N).
  { simpl List.length in Hb. lia. }
  destruct (applyEdit_keeps_unique st e Hlt Hnd Hah) as (A & B & C).
  apply IH; try assumption.
  simpl List.length in Hb. lia.
Qed.

Lemma construct_ids cfg now touch :
  ids (treeData (construct cfg now touch))
  = ["root"; "node1"; "node1-1"; "node2"; "node3"; "node3-1"; "node3-2"]
  /\ nodeIdCounter (construct cfg now touch) = now.
Proof.
  unfold construct, setData. rewrite setStatus_treeData, setStatus_counter.
  cbn [treeData nodeIdCounter with_tree config].
  rewrite ids_render, deepClone_id. split; reflexivity.
Qed.

(** X24. On a new instance the ids stay distinct: the default data and
    whatever any sequence of [addChild], [addSibling], [deleteNode] and
    [renameNode] calls makes of it never holds two nodes with the same id, as
    long as the counter, which starts at [Date.now()], stays within the
    integers that [++] steps through exactly. *)
Theorem new_instance_keeps_ids_distinct :
  forall (cfg : Config) (now : N) (touch : bool) (es : list Edit),
    (now + N.of_nat (List.length es) <= maxExact)%N ->
    NoDup (ids (treeData (edits es (construct cfg now touch)))).
Proof.
  intros cfg now touch es Hb.
  destruct (construct_ids cfg now touch) as [Hi Hc].
  apply edits_keep_unique.
  - rewrite Hi. repeat constructor; simpl; intuition discriminate.
  - intros k _. rewrite Hi. unfold idOf. simpl.
    intuition discriminate.
  - now rewrite Hc.
Qed.

(** ** Adding a child and deleting it again *)

Lemma hasId_strip i c : hasId i (strip c) = hasId i c.
Proof. now destruct c as [[] ?]. Qed.

Lemma findIndex_map_strip i l :
  findIndex (hasId i) (map strip l) = findIndex (hasId i) l.
Proof.
  induction l as [|c l IH]; simpl; [reflexivity|].
  now rewrite hasId_strip, IH.
Qed.

Lemma strip_eq n :
  strip n
  = mkNode (plainFields (id (fields n)) (name (fields n)))
           match children n with
           | None => None
           | Some cs => Some (map strip cs)
           end.
Proof. destruct n as [f [cs|]]; reflexivity. Qed.

Lemma removeChild_strip i n :
  removeChild i (strip n) = strip (removeChild i n).
Proof.
  unfold removeChild. rewrite (strip_eq (mkNode _ _)). cbn [fields children].
  assert (E : childArray (strip n) = map strip (childArray n))
    by (destruct n as [f [cs|]]; reflexivity).
  rewrite E, findIndex_map_strip. unfold spliceRemove.
  rewrite length_map, map_app, firstn_map, skipn_map.
  destruct n as [[] ?]; reflexivity.
Qed.

Lemma updateParentById_strip i t :
  updateParentById (removeChild i) (strip t) i
  = option_map strip (updateParentById (removeChild i) t i).
Proof.
  induction t as [f|f cs IH] using Node_rect_children;
    rewrite (updateParentById_eq _ (strip _)), updateParentById_eq;
    rewrite (strip_eq (mkNode _ _)); cbn [children fields]; [reflexivity|].
  assert (E : updateParentLoop (removeChild i) i (map strip cs)
              = option_map stripHit (updateParentLoop (removeChild i) i cs)).
  { induction IH as [|c cs Hc _ IHcs]; simpl; [reflexivity|].
    rewrite hasId_strip. destruct (hasId i c); [reflexivity|].
    rewrite Hc. destruct (updateParentById (removeChild i) c i); [reflexivity|].
    simpl. rewrite IHcs.
    destruct (updateParentLoop (removeChild i) i cs) as [[|r]|]; reflexivity. }
  rewrite E.
  destruct (updateParentLoop (removeChild i) i cs) as [[|r]|]; simpl;
    [|reflexivity|reflexivity].
  f_equal.
  change (mkNode (plainFields (id f) (name f)) (Some (map strip cs)))
    with (strip (mkNode f (Some cs))).
  apply removeChild_strip.
Qed.

Lemma mutateParent_remove_outline i a b :
  strip a = strip b ->
  outline (mutateParent (removeChild i) a i)
  = outline (mutateParent (removeChild i) b i).
Proof.
  intros E. pose proof (updateParentById_strip i a) as Ha.
  pose proof (updateParentById_strip i b) as Hb.
  rewrite E, Hb in Ha. unfold mutateParent, outline.
  destruct (updateParentById (removeChild i) a i) as [a'|];
    destruct (updateParentById (removeChild i) b i) as [b'|];
    try discriminate; simpl in Ha.
  - injection Ha as Ha.
    now rewrite <- (outlineAt_strip a'), <- (outlineAt_strip b'), Ha.
  - now rewrite <- (outlineAt_strip a), <- (outlineAt_strip b), E.
Qed.

Lemma absent_has_no_parent nid c :
  ~ In nid (ids c) ->
  hasId nid c = false /\ updateParentById (removeChild nid) c nid = None.
Proof.
  intros H. rewrite ids_eq in H. split.
  - unfold hasId. apply String.eqb_neq. intros E. apply H. now left.
  - apply updateParentById_none, findParentById_none_iff.
    intros Hin. apply H. now right.
Qed.

Lemma updateNodeById_root_id f i t t' :
  (forall m, id (fields (f m)) = id (fields m)) ->
  updateNodeById f t i = Some t' -> id (fields t') = id (fields t).
Proof.
  intros Hf. rewrite updateNodeById_eq.
  destruct (String.eqb (id (fields t)) i); [intros [= <-]; apply Hf|].
  destruct (children t) as [cs|]; [|discriminate].
  destruct (updateLoop f i cs); [|discriminate]. now intros [= <-].
Qed.

Lemma findIndex_last {A} (p : A -> bool) l x :
  Forall (fun c => p c = false) l -> p x = true ->
  findIndex p (l ++ [x]) = Z.of_nat (List.length l).
Proof.
  intros Hl Hx. induction Hl as [|c l Hc _ IH]; simpl; [now rewrite Hx|].
  rewrite Hc, IH.
  destruct (Z.of_nat (List.length l) <? 0)%Z eqn:E; [|lia].
  apply Z.ltb_lt in E. lia.
Qed.

Lemma updateParentLoop_last nid new l :
  hasId nid new = true ->
  (forall c, In c l -> ~ In nid (ids c)) ->
  updateParentLoop (removeChild nid) nid (l ++ [new]) = Some Here.
Proof.
  intros Hn. induction l as [|c l IH]; intros Hl; simpl; [now rewrite Hn|].
  destruct (absent_has_no_parent nid c (Hl c (or_introl eq_refl))) as [-> ->].
  rewrite IH; [reflexivity|]. intros x Hx. apply Hl. now right.
Qed.

Lemma ids_children nid fl cs :
  ~ In nid (ids (mkNode fl (Some cs))) ->
  forall c, In c cs -> ~ In nid (ids c).
Proof.
  intros H c Hc Hin. apply H. rewrite ids_eq. right.
  unfold descendants, childArray. cbn [children].
  unfold ids in Hin. apply in_map_iff in Hin. destruct Hin as (m & Em & Hm).
  apply in_map_iff. exists m. split; [exact Em|].
  apply in_flat_map. now exists c.
Qed.

Lemma push_then_remove_loop new nid pid l :
  id (fields new) = nid ->
  Forall (fun c =>
            ~ In nid (ids c) ->
            forall p, findNodeById c pid = Some p ->
            exists c1 c2,
              updateNodeById (pushChild new) c pid = Some c1
              /\ updateParentById (removeChild nid) c1 nid = Some c2
              /\ forall d, outlineAt d c2 = outlineAt d c) l ->
  (forall c, In c l -> ~ In nid (ids c)) ->
  forall p, firstSome (fun c => findNodeById c pid) l = Some p ->
  exists l1 l2,
    updateLoop (pushChild new) pid l = Some l1
    /\ updateParentLoop (removeChild nid) nid l1 = Some (Below l2)
    /\ forall d, flat_map (outlineAt d) l2 = flat_map (outlineAt d) l.
Proof.
  intros Hn. induction 1 as [|c l Hc _ IH]; intros Hl p; simpl;
    [discriminate|].
  assert (Ha : ~ In nid (ids c)) by (apply Hl; now left).
  destruct (findNodeById c pid) as [q|] eqn:Ec.
  - intros _. destruct (Hc Ha q eq_refl) as (c1 & c2 & E1 & E2 & Ho).
    rewrite E1. exists (c1 :: l), (c2 :: l). split; [reflexivity|].
    simpl. unfold hasId.
    rewrite (updateNodeById_root_id (pushChild new) _ _ _
             (fun m => eq_refl) E1).
    destruct (absent_has_no_parent nid c Ha) as [Hh _]. unfold hasId in Hh.
    rewrite Hh, E2. split; [reflexivity|]. intros d. now rewrite Ho.
  - intros Hp. rewrite (updateNodeById_none _ _ _ Ec).
    destruct (IH (fun x Hx => Hl x (or_intror Hx)) p Hp)
      as (l1 & l2 & E1 & E2 & Ho).
    rewrite E1. exists (c :: l1), (c :: l2). split; [reflexivity|].
    simpl. destruct (absent_has_no_parent nid c Ha) as [-> ->].
    rewrite E2. split; [reflexivity|]. intros d. now rewrite Ho.
Qed.

Lemma push_then_remove new nid pid u :
  id (fields new) = nid ->
  ~ In nid (ids u) ->
  forall p, findNodeById u pid = Some p ->
  exists u1 u2,
    updateNodeById (pushChild new) u pid = Some u1
    /\ updateParentById (removeChild nid) u1 nid = Some u2
    /\ forall d, outlineAt d u2 = outlineAt d u.
Proof.
  intros Hn.
  assert (Hh : hasId nid new = true)
    by (unfold hasId; now apply String.eqb_eq).
  induction u as [fl|fl cs IH] using Node_rect_children; intros Ha p;
    rewrite findNodeById_eq, updateNodeById_eq; unfold childArray;
    cbn [children fields]; destruct (String.eqb (id fl) pid) eqn:Ei;
    try discriminate.
  - intros _. eexists. eexists. split; [reflexivity|].
    rewrite updateParentById_eq. unfold pushChild, childArray.
    cbn [children fields app updateParentLoop]. rewrite Hh.
    split; [reflexivity|]. intros d.
    unfold removeChild, childArray. cbn [children fields findIndex].
    rewrite Hh. reflexivity.
  - intros _. eexists. eexists. split; [reflexivity|].
    rewrite updateParentById_eq. unfold pushChild, childArray.
    cbn [children fields].
    rewrite (updateParentLoop_last nid new cs Hh (ids_children _ _ _ Ha)).
    split; [reflexivity|]. intros d.
    unfold removeChild, childArray. cbn [children fields].
    rewrite (findIndex_last (hasId nid) cs new); [|
      apply Forall_forall; intros c Hc;
      apply (absent_has_no_parent nid c (ids_children _ _ _ Ha c Hc)) | exact Hh].
    rewrite spliceRemove_at, app_nil_r. reflexivity.
  - intros Hp.
    destruct (push_then_remove_loop new nid pid cs Hn IH
                (ids_children _ _ _ Ha) p Hp) as (l1 & l2 & E1 & E2 & Ho).
    rewrite E1. eexists. eexists. split; [reflexivity|].
    rewrite updateParentById_eq. cbn [children fields]. rewrite E2.
    split; [reflexivity|]. intros d. cbn [outlineAt children fields].
    now rewrite Ho.
Qed.

(** X25. Deleting the node that [addChild] has just added undoes the
    addition: when the generated id is not yet in the tree, [deleteNode]
    with that id succeeds and the outline of the tree (depth, id and name of
    every node, in order) is the one from before [addChild]. *)
Theorem addChild_then_deleteNode_restores :
  forall (st : MindMap) (parentId : string) (nm : option string)
         (parent : Node),
    editable (config st) = true ->
    findNodeById (treeData st) parentId = Some parent ->
    ~ In (fst (generateId st)) (ids (treeData st)) ->
    snd (addChild st parentId nm) = true
    /\ snd (deleteNode (fst (addChild st parentId nm)) (fst (generateId st)))
       = true
    /\ outline (treeData (fst (deleteNode (fst (addChild st parentId nm))
                                          (fst (generateId st)))))
       = outline (treeData st).
Proof.
  intros st parentId nm parent He Hf Hfresh.
  rewrite generateId_eq in *. cbn [fst] in *.
  remember (idOf (nextCounter (nodeIdCounter st))) as nid eqn:En.
  remember (leafNode nid (orDefault nm "New Node")) as new eqn:Enew.
  assert (Hn : id (fields new) = nid) by (now subst new).
  destruct (push_then_remove new nid parentId (treeData st) Hn Hfresh parent Hf)
    as (u1 & u2 & E1 & E2 & Ho).
  assert (Ea : addChild st parentId nm
               = (setStatus
                    ("Added child " ++ dq ++ orDefault nm "New Node" ++ dq
                     ++ " to " ++ dq ++ name (fields parent) ++ dq)
                    (with_tree (render (config st) u1)
                       (with_counter (nextCounter (nodeIdCounter st)) st)),
                  true)).
  { unfold addChild. rewrite He, Hf. cbn [negb]. rewrite generateId_eq.
    cbn [treeData with_counter config]. unfold mutateNode.
    rewrite <- En, <- Enew, E1. reflexivity. }
  rewrite Ea. cbn [fst snd]. split; [reflexivity|].
  set (st1 := setStatus _ _).
  assert (Ht : treeData st1 = render (config st) u1)
    by (unfold st1; now rewrite setStatus_treeData).
  assert (Hc : config st1 = config st)
    by (unfold st1; now rewrite setStatus_config).
  assert (Hroot : String.eqb nid (id (fields (treeData st1))) = false).
  { apply String.eqb_neq. intros E. apply Hfresh. rewrite ids_eq. left.
    rewrite E, Ht.
    rewrite (strip_id _ _ (strip_render (config st) u1)). symmetry.
    apply (updateNodeById_root_id (pushChild new) _ _ _
             (fun m => eq_refl) E1). }
  assert (Hp : findParentById u1 nid <> None).
  { intros E. rewrite (updateParentById_none _ _ _ E) in E2. discriminate. }
  destruct (findParentById u1 nid) as [q|] eqn:Eq; [|contradiction].
  destruct (findParentById_render (config st) _ _ _ Eq) as (q' & Eq' & _).
  unfold deleteNode. rewrite Hc, He, Hroot, Ht, Eq'. cbn [negb fst snd].
  split; [reflexivity|].
  rewrite setStatus_treeData. cbn [treeData with_tree].
  rewrite outline_render.
  rewrite (mutateParent_remove_outline nid _ u1 (strip_render _ _)).
  unfold mutateParent. rewrite E2. apply Ho.
Qed.

(** ** Instances of the further properties *)

Lemma demo_find_root :
  findNodeById (treeData demo) "root" = Some (treeData demo).
Proof. reflexivity. Qed.

Lemma demo_parent_of_a :
  findParentById (treeData demo) "a" = Some (treeData demo).
Proof. reflexivity. Qed.

Lemma demo_idle : isEditing demo = false.
Proof. reflexivity. Qed.

Lemma demo_zoom_nonzero : zoom demo <> 0.
Proof. destruct demo_state as (_ & -> & _). lra. Qed.

Lemma demo_distinct : NoDup (ids (treeData demo)).
Proof. rewrite demo_ids. repeat constructor; simpl; intuition discriminate. Qed.

(** In the scenario tree the parent of [b1] is [b]. *)
Lemma findParentById_finds_a_parent_witness :
  let p := branchNode "b" "B" [leafNode "b1" "B1"] in
  findParentById scenario "b1" = Some p
  /\ In p (preorder scenario)
  /\ existsb (hasId "b1") (childArray p) = true.
Proof.
  intros p.
  assert (H : findParentById scenario "b1" = Some p) by reflexivity.
  destruct (findParentById_finds_a_parent scenario "b1") as [A _].
  exact (conj H (A p H)).
Defined.


(** Node [b1] of the scenario tree gets half of the sweep. *)
Lemma layout_shares_sweep_by_leaves_witness :
  let b1 := leafNode "b1" "B1" in
  In b1 (preorder scenario)
  /\ exists q,
       In q (placedNodes (renderPlaced defaultConfig scenario))
       /\ strip (erase q) = strip b1
       /\ widthOf q = (rootEnd - rootStart) * (INR 1 / INR 2).
Proof.
  intros b1.
  assert (Hb : In b1 (preorder scenario)) by (simpl; tauto).
  destruct (layout_shares_sweep_by_leaves defaultConfig scenario) as (A & _).
  destruct (A b1 Hb) as (q & Hq & E & W & _).
  exact (conj Hb (ex_intro _ q (conj Hq (conj E W)))).
Defined.

(** Node [b1] of the scenario tree lies on the circle of radius 240. *)
Lemma layout_places_on_circles_witness :
  let b1 := leafNode "b1" "B1" in
  In b1 (nodesAt 2 scenario)
  /\ exists q x y,
       In q (placedAt 2 (renderPlaced defaultConfig scenario))
       /\ strip (erase q) = strip b1
       /\ _x (p_fields q) = Some x /\ _y (p_fields q) = Some y
       /\ (x - 800 / 2) * (x - 800 / 2) + (y - 800 / 2) * (y - 800 / 2)
          = (INR 2 * 120) * (INR 2 * 120).
Proof.
  intros b1.
  assert (Hb : In b1 (nodesAt 2 scenario)) by (simpl; tauto).
  destruct (layout_places_on_circles defaultConfig scenario 2) as (_ & A & B).
  destruct (A b1 Hb) as (q & Hq & E).
  destruct (B q Hq) as (x & y & Hx & Hy & C).
  exact (conj Hb (ex_intro _ q (ex_intro _ x (ex_intro _ y
           (conj Hq (conj E (conj Hx (conj Hy C)))))))).
Defined.

(** Taking the data of the scenario instance and giving them back to it. *)
Lemma render_is_idempotent_witness :
  config demo = defaultConfig
  /\ treeData demo = render defaultConfig scenario
  /\ getData (setData demo (getData demo)) = getData demo.
Proof.
  destruct (render_is_idempotent defaultConfig scenario) as [_ A].
  exact (conj eq_refl
           (conj demo_treeData (A demo demo eq_refl demo_treeData))).
Defined.

(** The scenario instance before and after an [addChild]. *)
Lemma mutations_leave_tree_rendered_witness :
  upToDate demo /\ upToDate (fst (addChild demo "a" None)).
Proof.
  destruct (mutations_leave_tree_rendered
              (construct defaultConfig 1700000000000 false)) as [A _].
  pose proof (A scenario) as H.
  destruct (mutations_leave_tree_rendered demo) as [_ B].
  destruct (B H) as (C & _).
  exact (conj H (C "a" None)).
Defined.

(** A child added to the root of the scenario tree. *)
Lemma addChild_appends_last_child_witness :
  editable (config demo) = true
  /\ findNodeById (treeData demo) "root" = Some (treeData demo)
  /\ exists st' pre post d,
       addChild demo "root" None = (st', true)
       /\ outline (treeData demo)
          = (pre ++ outlineAt d (treeData demo) ++ post)%list
       /\ outline (treeData st')
          = (pre ++ outlineAt d (treeData demo)
                 ++ (S d, (fst (generateId demo), orDefault None "New Node"))
                 :: post)%list.
Proof.
  exact (conj demo_editable
           (conj demo_find_root
              (addChild_appends_last_child demo "root" None (treeData demo)
                 demo_editable demo_find_root))).
Defined.

(** A sibling added after node [a] of the scenario tree. *)
Lemma addSibling_inserts_after_sibling_witness :
  editable (config demo) = true
  /\ findParentById (treeData demo) "a" = Some (treeData demo)
  /\ exists st' pre post d c,
       addSibling demo "a" (Some "C") = (st', true)
       /\ find (hasId "a") (childArray (treeData demo)) = Some c
       /\ outline (treeData demo) = (pre ++ outlineAt d c ++ post)%list
       /\ outline (treeData st')
          = (pre ++ outlineAt d c
                 ++ (d, (fst (generateId demo), orDefault (Some "C") "New Node"))
                 :: post)%list.
Proof.
  exact (conj demo_editable
           (conj demo_parent_of_a
              (addSibling_inserts_after_sibling demo "a" (Some "C")
                 (treeData demo) demo_editable demo_parent_of_a))).
Defined.

(** Node [a] of the scenario tree deleted. *)
Lemma deleteNode_removes_subtree_witness :
  editable (config demo) = true
  /\ "a" <> id (fields (treeData demo))
  /\ findParentById (treeData demo) "a" = Some (treeData demo)
  /\ exists st' pre post d c,
       deleteNode demo "a" = (st', true)
       /\ find (hasId "a") (childArray (treeData demo)) = Some c
       /\ outline (treeData demo) = (pre ++ outlineAt d c ++ post)%list
       /\ outline (treeData st') = (pre ++ post)%list.
Proof.
  assert (Hr : "a" <> id (fields (treeData demo))).
  { change (id (fields (treeData demo))) with "root". discriminate. }
  destruct (deleteNode_removes_subtree demo "a" (treeData demo) demo_editable
              Hr demo_parent_of_a)
    as (st' & pre & post & d & c & A & B & C & D & _).
  exact (conj demo_editable (conj Hr (conj demo_parent_of_a
           (ex_intro _ st' (ex_intro _ pre (ex_intro _ post (ex_intro _ d
              (ex_intro _ c (conj A (conj B (conj C D))))))))))).
Defined.

(** The root of the scenario tree has no parent. *)
Lemma addSibling_refused_for_root_witness :
  NoDup (ids (treeData demo))
  /\ addSibling demo (id (fields (treeData demo))) None = (demo, false).
Proof.
  destruct (addSibling_refused_for_root demo None) as [A _].
  destruct (A demo_distinct) as [_ B].
  exact (conj demo_distinct B).
Defined.

(** The first id the scenario instance generates. *)
Lemma generateId_never_repeats_witness :
  (nodeIdCounter demo < maxExact)%N
  /\ fst (generateId demo) = idOf (nodeIdCounter demo + 1)
  /\ nodeIdCounter (snd (generateId demo)) = (nodeIdCounter demo + 1)%N.
Proof.
  assert (H : (nodeIdCounter demo < maxExact)%N) by reflexivity.
  destruct (generateId_never_repeats demo H) as (A & B & _).
  exact (conj H (conj A B)).
Defined.

(** The root of the scenario tree renamed. *)
Lemma renameNode_changes_one_name_witness :
  editable (config demo) = true
  /\ findNodeById (treeData demo) "root" = Some (treeData demo)
  /\ exists st' pre post d,
       renameNode demo "root" (Some "Top") = (st', true)
       /\ outline (treeData demo)
          = (pre ++ (d, ("root", name (fields (treeData demo)))) :: post)%list
       /\ outline (treeData st')
          = (pre ++ (d, ("root", orDefault (Some "Top") "Unnamed")) :: post)%list.
Proof.
  exact (conj demo_editable
           (conj demo_find_root
              (renameNode_changes_one_name demo "root" (Some "Top")
                 (treeData demo) demo_editable demo_find_root))).
Defined.

(** A second [startEdit] while node [a] is being edited. *)
Lemma startEdit_opens_one_session_witness :
  isEditing (startEdit demo "a") = true
  /\ startEdit (startEdit demo "a") "b" = startEdit demo "a".
Proof.
  destruct (startEdit_opens_one_session demo "a" "b") as (_ & _ & _ & A & _).
  exact (conj startEdit_demo (A startEdit_demo)).
Defined.


(** The menu of node [a] of the scenario tree. *)
Lemma contextMenu_offers_what_succeeds_witness :
  let items :=
    [ mkMenuItem ("Rename " ++ dq ++ "A" ++ dq) ActRename false;
      mkMenuItem "Add Child" ActAddChild false;
      mkMenuItem "Add Sibling" ActAddSibling false;
      mkMenuItem ("Delete " ++ dq ++ "A" ++ dq) ActDelete true ] in
  contextMenuItems demo "a" = Some items
  /\ map itemAction items
     = [ActRename; ActAddChild; ActAddSibling; ActDelete]
  /\ snd (deleteNode demo "a") = true.
Proof.
  intros items.
  assert (H : contextMenuItems demo "a" = Some items) by reflexivity.
  destruct (contextMenu_offers_what_succeeds demo "a" items H) as [A B].
  exact (conj H (conj A
           (B (mkMenuItem ("Delete " ++ dq ++ "A" ++ dq) ActDelete true) None
              (or_intror (or_intror (or_intror (or_introl eq_refl))))))).
Defined.

(** A wheel step inwards on the scenario instance. *)
Lemma wheel_scales_about_canvas_centre_witness :
  isEditing demo = false /\ zoom demo <> 0
  /\ r_width demoRect <> 0 /\ r_height demoRect <> 0
  /\ zoom (handleWheel demo demoRect (-100))
     = zoom demo * (if Rlt_dec 0 (-100) then 9 / 10 else 11 / 10)
  /\ zoom (handleWheel (handleWheel demo demoRect (-1)) demoRect 1)
     = zoom demo * (99 / 100).
Proof.
  assert (Hw : r_width demoRect <> 0) by (unfold demoRect; simpl; lra).
  assert (Hh : r_height demoRect <> 0) by (unfold demoRect; simpl; lra).
  destruct (wheel_scales_about_canvas_centre demo demoRect (-100)
              (mkPoint 0 0) demo_idle demo_zoom_nonzero Hw Hh) as (A & _ & C).
  exact (conj demo_idle (conj demo_zoom_nonzero (conj Hw (conj Hh (conj A C))))).
Defined.

(** A drag from (10, 20) over (11, 21) to (13, 24). *)
Lemma drag_pans_by_pointer_displacement_witness :
  isEditing demo = false
  /\ offsetX (mouseMoves (handleMouseDown demo 10 20) [(11, 21); (13, 24)])
     = offsetX demo + (13 - 10)
  /\ offsetY (mouseMoves (handleMouseDown demo 10 20) [(11, 21); (13, 24)])
     = offsetY demo + (24 - 20).
Proof.
  destruct (drag_pans_by_pointer_displacement demo 10 20 13 24 [(11, 21)]
              demo_idle) as (A & B & _).
  exact (conj demo_idle (conj A B)).
Defined.

Lemma demo_touch_distance :
  getTouchDistance (mkTouch 100 100) (mkTouch 200 100) <> 0.
Proof.
  unfold getTouchDistance. cbn [clientX clientY].
  replace ((100 - 200) * (100 - 200) + (100 - 100) * (100 - 100))
    with (100 * 100) by ring.
  rewrite sqrt_square; lra.
Qed.

(** Two fingers 100 apart spread to 200 apart. *)
Lemma pinch_zooms_about_touch_centre_witness :
  isEditing demo = false
  /\ getTouchDistance (mkTouch 100 100) (mkTouch 200 100) <> 0
  /\ zoom demo <> 0
  /\ exists st2,
       handleTouchMove
         (handleTouchStart demo demoRect
            (mkTouchEvent [mkTouch 100 100; mkTouch 200 100] false))
         demoRect (mkTouchEvent [mkTouch 50 100; mkTouch 250 100] false)
       = Some st2
       /\ 1 / 10 <= zoom st2 <= 5.
Proof.
  destruct (pinch_zooms_about_touch_centre demo demoRect (mkTouch 100 100)
              (mkTouch 200 100) (mkTouch 50 100) (mkTouch 250 100)
              (mkPoint 0 0) demo_idle demo_touch_distance demo_zoom_nonzero)
    as (st2 & A & _ & B & _).
  exact (conj demo_idle (conj demo_touch_distance (conj demo_zoom_nonzero
           (ex_intro _ st2 (conj A B))))).
Defined.

(** One finger moved from (100, 100) to (130, 90). *)
Lemma touch_pan_follows_finger_witness :
  isEditing demo = false
  /\ exists st2,
       handleTouchMove
         (handleTouchStart demo demoRect
            (mkTouchEvent [mkTouch 100 100] false))
         demoRect (mkTouchEvent [mkTouch 130 90] false)
       = Some st2
       /\ offsetX st2 = offsetX demo + (130 - 100)
       /\ offsetY st2 = offsetY demo + (90 - 100).
Proof.
  destruct (touch_pan_follows_finger demo demoRect (mkTouch 100 100)
              (mkTouch 130 90) demo_idle) as (st2 & A & _ & B & C & _).
  exact (conj demo_idle (ex_intro _ st2 (conj A (conj B C)))).
Defined.

(** The pinch above, then one finger lifted and the other moved. *)
Lemma lifting_a_finger_continues_as_pan_witness :
  isEditing demo = false
  /\ getTouchDistance (mkTouch 100 100) (mkTouch 200 100) <> 0
  /\ exists st2,
       handleTouchMove
         (handleTouchStart demo demoRect
            (mkTouchEvent [mkTouch 100 100; mkTouch 200 100] false))
         demoRect (mkTouchEvent [mkTouch 50 100; mkTouch 250 100] false)
       = Some st2
       /\ exists st4,
            handleTouchMove
              (handleTouchEnd st2 (mkTouchEvent [mkTouch 50 100] false))
              demoRect (mkTouchEvent [mkTouch 60 120] false)
            = Some st4
            /\ zoom st4 = zoom st2
            /\ offsetX st4 = offsetX st2 + (60 - 50)
            /\ offsetY st4 = offsetY st2 + (120 - 100).
Proof.
  pose proof (handleTouchMove_pinch demo demoRect (mkTouch 100 100)
                (mkTouch 200 100) (mkTouch 50 100) (mkTouch 250 100)
                demo_idle demo_touch_distance
                (handleTouchStart demo demoRect
                   (mkTouchEvent [mkTouch 100 100; mkTouch 200 100] false))
                (zoom demo) (offsetX demo) (offsetY demo) eq_refl) as Hm.
  cbv zeta in Hm.
  destruct (lifting_a_finger_continues_as_pan demo demoRect (mkTouch 100 100)
              (mkTouch 200 100) (mkTouch 50 100) (mkTouch 250 100)
              (mkTouch 50 100) (mkTouch 60 120) _ demo_idle
              demo_touch_distance Hm) as (_ & _ & _ & B).
  exact (conj demo_idle (conj demo_touch_distance
           (ex_intro _ _ (conj Hm B)))).
Defined.

(** A few edits on an instance created at [Date.now() = 1700000000000]. *)
Lemma new_instance_keeps_ids_distinct_witness :
  (1700000000000 + N.of_nat 3 <= maxExact)%N
  /\ NoDup (ids (treeData
                   (edits [EditAddChild "root" None; EditDelete "node1";
                           EditRename "node2" (Some "x")]
                          (construct defaultConfig 1700000000000 false)))).
Proof.
  assert (H : (1700000000000 + N.of_nat 3 <= maxExact)%N) by now vm_compute.
  exact (conj H
           (new_instance_keeps_ids_distinct defaultConfig 1700000000000 false
              [EditAddChild "root" None; EditDelete "node1";
               EditRename "node2" (Some "x")] H)).
Defined.

(** A child added to the root of the scenario tree and deleted again. *)
Lemma addChild_then_deleteNode_restores_witness :
  editable (config demo) = true
  /\ findNodeById (treeData demo) "root" = Some (treeData demo)
  /\ ~ In (fst (generateId demo)) (ids (treeData demo))
  /\ outline (treeData (fst (deleteNode (fst (addChild demo "root" None))
                                        (fst (generateId demo)))))
     = outline (treeData demo).
Proof.
  assert (Hfresh : ~ In (fst (generateId demo)) (ids (treeData demo)))
    by exact (demo_ahead 1700000000001%N eq_refl).
  destruct (addChild_then_deleteNode_restores demo "root" None (treeData demo)
              demo_editable demo_find_root Hfresh) as (_ & _ & A).
  exact (conj demo_editable (conj demo_find_root (conj Hfresh A))).
Defined.
